(** * DistriChat: consistent-hash ring, two-tier LRU cache and failover client

    A shallow embedding of the Go packages [ring], [cache], [server] and
    [client] of DistriChat, together with the properties that the
    specification states about them.

    Conventions of the embedding.
    - A Go [int] or [int64] is a [Z]; where the code does arithmetic on it
      the two's-complement wrap-around is written out ([wrap64]).
    - A Go [map] is a [gmap]; a slice is a [list]; a [string] is a
      [string] (a sequence of bytes in both worlds).
    - Pointers to mutable objects ([*ChatSession], [*list.Element]) are
      addresses into an explicit store carried by the state.
    - Loops whose termination depends on the data take a [fuel] argument
      and return [OutOfFuel] when it runs out; divergence of the Go loop
      is "[OutOfFuel] for every fuel".
    - Locks are not modelled: every operation is taken as one atomic
      step, which is what the mutexes of the code enforce.
    - [time.Now()] and the network are inputs of the operations that
      read them; [log.Printf] is left out. *)

From stdpp Require Import base gmap strings list fin_maps pretty sorting.

#[local] Set Warnings "-clear-no-such-hyp".

Open Scope Z_scope.

(** ** Machine integers *)

(** Two's-complement wrap-around of a 64-bit signed integer. *)
Definition wrap64 (z : Z) : Z := (z + 2 ^ 63) mod 2 ^ 64 - 2 ^ 63.

(** Go's [+] on [int64] (and on [int] on a 64-bit platform). *)
Definition add64 (x y : Z) : Z := wrap64 (x + y).

(** [x++] *)
Definition incr64 (x : Z) : Z := add64 x 1.

(** ** Outcomes of code that may loop or panic *)

(** [Ok a]: the call returns [a].  [Panic]: a run-time panic (a nil
    dereference, a negative capacity given to [make]).
    [OutOfFuel]: a loop did not finish within the fuel given. *)
Inductive result (A : Type) : Type :=
  | Ok (a : A)
  | Panic
  | OutOfFuel.
Arguments Ok {A} a.
Arguments Panic {A}.
Arguments OutOfFuel {A}.

#[global] Instance result_ret : MRet result := λ A a, Ok a.
#[global] Instance result_bind : MBind result := λ A B f r,
  match r with
  | Ok a => f a
  | Panic => Panic
  | OutOfFuel => OutOfFuel
  end.

(** ** Package ring *)

Module Ring.

(** [hash/crc32.ChecksumIEEE]: the reflected CRC-32 with polynomial
    0xEDB88320, initial value and final xor 0xFFFFFFFF, computed bit by
    bit. *)
Definition crc32_shift (crc : Z) : Z :=
  if Z.testbit crc 0
  then Z.lxor (Z.shiftr crc 1) 0xEDB88320
  else Z.shiftr crc 1.

Definition crc32_byte (crc : Z) (b : Ascii.ascii) : Z :=
  Nat.iter 8 crc32_shift (Z.lxor crc (Z.of_N (Ascii.N_of_ascii b))).

Definition ChecksumIEEE (data : string) : Z :=
  Z.lxor (fold_left crc32_byte (String.list_ascii_of_string data) 0xFFFFFFFF) 0xFFFFFFFF.

(** [type VirtualNode struct] *)
Record VirtualNode := mkVirtualNode {
  Hash : Z;          (* uint32 *)
  NodeID : string;
  VNodeIdx : Z;
}.

#[global] Instance VirtualNode_inhabited : Inhabited VirtualNode :=
  populate (mkVirtualNode 0 "" 0).

(** [type HashRing struct] (without the mutex) *)
Record HashRing := mkHashRing {
  nodes : list VirtualNode;
  nodeCapacity : gmap string Z;
  nodeAddress : gmap string string;
  replicas : Z;
}.

(** [type NodeInfo struct] *)
Record NodeInfo := mkNodeInfo {
  InfoNodeID : string;
  InfoAddress : string;
}.

(** [func NewHashRing(replicas int) *HashRing] *)
Definition NewHashRing (replicas : Z) : HashRing :=
  let replicas := if replicas <? 1 then 100 else replicas in
  {| nodes := []; nodeCapacity := ∅; nodeAddress := ∅; replicas := replicas |}.

(** [func hashKey(key string) uint32] *)
Definition hashKey (key : string) : Z := ChecksumIEEE key.

(** [func virtualNodeKey(nodeID string, vNodeIdx int) string], that is
    [fmt.Sprintf("%s#%d", nodeID, vNodeIdx)]. *)
Definition virtualNodeKey (nodeID : string) (vNodeIdx : Z) : string :=
  nodeID +:+ "#" +:+ pretty vNodeIdx.

(** [sort.Slice(hr.nodes, less)] with [less i j := nodes[i].Hash <
    nodes[j].Hash].  Go's sort is not stable and its result on equal
    hashes is not specified: the ring is parameterised by any function
    that returns a sorted permutation. *)
Definition hash_le (a b : VirtualNode) : Prop := Hash a ≤ Hash b.

Class SliceSort := {
  sort_slice : list VirtualNode → list VirtualNode;
  sort_slice_perm l : sort_slice l ≡ₚ l;
  sort_slice_sorted l : Sorted hash_le (sort_slice l);
}.

(** [make([]NodeInfo, 0, count)] allocates room for [count] entries
    before any is collected.  It panics when [count] is negative and
    when the capacity is out of range (the entries, 32 bytes each on a
    64-bit platform, would take more than the [2^48] bytes an allocation
    may have); below that, the runtime stops the program when the memory
    is not there.  [slice_limit] is the greatest capacity that is
    granted. *)
Class Allocator := {
  slice_limit : Z;
  slice_limit_bound : slice_limit ≤ 2 ^ 43;
}.

Section ring.
Context `{SliceSort}.
Context {alloc : Allocator}.

(** The virtual nodes created by the loop [for i := 0; i < capacity; i++]. *)
Definition newVirtualNodes (nodeID : string) (capacity : Z) : list VirtualNode :=
  (λ i, {| Hash := hashKey (virtualNodeKey nodeID i);
           NodeID := nodeID;
           VNodeIdx := i |}) <$> seqZ 0 capacity.

(** [func (hr *HashRing) AddNode(nodeID string, capacity int, address string)] *)
Definition AddNode (nodeID : string) (capacity : Z) (address : string)
    (hr : HashRing) : HashRing :=
  match nodeCapacity hr !! nodeID with
  | Some _ => hr
  | None =>
      let capacity := if capacity <? 1 then replicas hr else capacity in
      {| nodes := sort_slice (nodes hr ++ newVirtualNodes nodeID capacity);
         nodeCapacity := <[nodeID := capacity]> (nodeCapacity hr);
         nodeAddress := <[nodeID := address]> (nodeAddress hr);
         replicas := replicas hr |}
  end.

(** [func (hr *HashRing) RemoveNode(nodeID string)] *)
Definition RemoveNode (nodeID : string) (hr : HashRing) : HashRing :=
  match nodeCapacity hr !! nodeID with
  | None => hr
  | Some _ =>
      {| nodes := filter (λ vNode, NodeID vNode ≠ nodeID) (nodes hr);
         nodeCapacity := delete nodeID (nodeCapacity hr);
         nodeAddress := delete nodeID (nodeAddress hr);
         replicas := replicas hr |}
  end.

(** [sort.Search(n, f)]: the binary search of the Go library,
<<
    i, j := 0, n
    for i < j { h := int(uint(i+j) >> 1); if !f(h) { i = h + 1 } else { j = h } }
    return i
>>
    The loop runs at most [j - i] times, which is the fuel given to it. *)
Fixpoint search_loop (fuel : nat) (f : nat → bool) (i j : nat) : nat :=
  match fuel with
  | O => i
  | S fuel =>
      if (i <? j)%nat then
        let h := ((i + j) / 2)%nat in
        if negb (f h) then search_loop fuel f (h + 1)%nat j
        else search_loop fuel f i h
      else i
  end.

Definition Search (n : nat) (f : nat → bool) : nat := search_loop n f 0%nat n.

(** The landing index shared by [GetNode] and [GetNodes]: the binary
    search for the first hash [>=] the key's hash, wrapped to 0. *)
Definition startIndex (key : string) (hr : HashRing) : nat :=
  let hash := hashKey key in
  let idx := Search (length (nodes hr))
               (λ i, bool_decide (hash ≤ Hash (nodes hr !!! i))) in
  if (length (nodes hr) <=? idx)%nat then 0%nat else idx.

(** [func (hr *HashRing) GetNode(key string) (nodeID, address string, ok bool)] *)
Definition GetNode (key : string) (hr : HashRing) : string * string * bool :=
  if (length (nodes hr) =? 0)%nat then ("", "", false)
  else
    let node := nodes hr !!! startIndex key hr in
    (NodeID node, default "" (nodeAddress hr !! NodeID node), true).

(** The body of the loop of [GetNodes], iterated over the values of [i].
    The loop condition [len(result) < count] is tested before every
    iteration. *)
Fixpoint GetNodes_loop (hr : HashRing) (startIdx : nat) (count : Z)
    (idxs : list nat) (seen : gmap string bool) (result : list NodeInfo)
    : list NodeInfo :=
  match idxs with
  | [] => result
  | i :: idxs =>
      if Z.of_nat (length result) <? count then
        let idx := ((startIdx + i) mod length (nodes hr))%nat in
        let nodeID := NodeID (nodes hr !!! idx) in
        if negb (default false (seen !! nodeID)) then
          GetNodes_loop hr startIdx count idxs (<[nodeID := true]> seen)
            (result ++ [{| InfoNodeID := nodeID;
                           InfoAddress := default "" (nodeAddress hr !! nodeID) |}])
        else GetNodes_loop hr startIdx count idxs seen result
      else result
  end.

(** [func (hr *HashRing) GetNodes(key string, count int) []NodeInfo].
    On a ring with nodes, [make([]NodeInfo, 0, count)] comes first: the
    call panics when [count] is negative or more than the allocator
    grants. *)
Definition GetNodes (key : string) (count : Z) (hr : HashRing)
    : result (list NodeInfo) :=
  if (length (nodes hr) =? 0)%nat then Ok []
  else if (count <? 0) || (slice_limit <? count) then Panic
  else
    Ok (GetNodes_loop hr (startIndex key hr) count
          (seq 0 (length (nodes hr))) ∅ []).

(** [GetNodeCount], [GetVirtualNodeCount], [NodeExists], [GetNodeAddress] *)
Definition GetNodeCount (hr : HashRing) : nat := size (nodeCapacity hr).
Definition GetVirtualNodeCount (hr : HashRing) : nat := length (nodes hr).
Definition NodeExists (nodeID : string) (hr : HashRing) : bool :=
  bool_decide (is_Some (nodeCapacity hr !! nodeID)).
Definition GetNodeAddress (nodeID : string) (hr : HashRing) : option string :=
  nodeAddress hr !! nodeID.

(** [func (hr *HashRing) GetNodeCapacity(nodeID string) (int, bool)] *)
Definition GetNodeCapacity (nodeID : string) (hr : HashRing) : Z * bool :=
  match nodeCapacity hr !! nodeID with
  | Some cap => (cap, true)
  | None => (0, false)
  end.

(** [func (hr *HashRing) GetAllNodes() []string], given the order in
    which [range] visits the keys of [nodeCapacity]. *)
Definition GetAllNodes (order : list string) (hr : HashRing) : list string :=
  foldl (λ nodes nodeID, nodes ++ [nodeID]) [] order.

Definition GetAllNodes_returns (hr : HashRing) (ids : list string) : Prop :=
  ∃ order, order ≡ₚ (map_to_list (nodeCapacity hr)).*1 ∧
           ids = GetAllNodes order hr.

(** The ring states a program can build: [NewHashRing] followed by any
    sequence of [AddNode] and [RemoveNode]. *)
Inductive reachable : HashRing → Prop :=
  | reachable_new replicas : reachable (NewHashRing replicas)
  | reachable_add hr nodeID capacity address :
      reachable hr → reachable (AddNode nodeID capacity address hr)
  | reachable_remove hr nodeID :
      reachable hr → reachable (RemoveNode nodeID hr).

(** The node id read at iteration [i] of the loop of [GetNodes]. *)
Definition visit (hr : HashRing) (startIdx i : nat) : string :=
  NodeID (nodes hr !!! ((startIdx + i) mod length (nodes hr))%nat).

(** What holds of every reachable ring: the default weight is positive and
    the physical nodes are exactly the owners of the virtual nodes. *)
Definition ring_ok (hr : HashRing) : Prop :=
  1 ≤ replicas hr ∧
  dom (nodeCapacity hr) = list_to_set (NodeID <$> nodes hr).

(** The virtual nodes of [id] in the ring are those its capacity asks
    for. *)
Definition weights_ok (hr : HashRing) : Prop :=
  ∀ id,
    filter (λ v, NodeID v = id) (nodes hr) ≡ₚ
    match nodeCapacity hr !! id with
    | Some cap => newVirtualNodes id cap
    | None => []
    end ∧
    (∀ cap, nodeCapacity hr !! id = Some cap → 1 ≤ cap) ∧
    (nodeAddress hr !! id = None ↔ nodeCapacity hr !! id = None).

(** The ring of the tests: three servers of ten virtual nodes each. *)
Definition ring3 : HashRing :=
  AddNode "server-c" 10 "localhost:50053"
    (AddNode "server-b" 10 "localhost:50052"
       (AddNode "server-a" 10 "localhost:50051" (NewHashRing 10))).

End ring.

(** The allocator of the examples: a machine with memory for every
    capacity that is in range. *)
#[global] Instance example_Allocator : Allocator :=
  {| slice_limit := 2 ^ 43;
     slice_limit_bound := proj1 (Z.leb_le (2 ^ 43) (2 ^ 43)) eq_refl |}.

(** An executable instance of [sort.Slice]: insertion sort on the hash. *)
Fixpoint insert_by_hash (v : VirtualNode) (l : list VirtualNode) : list VirtualNode :=
  match l with
  | [] => [v]
  | w :: l' => if Hash v <=? Hash w then v :: l else w :: insert_by_hash v l'
  end.

Definition insertion_sort (l : list VirtualNode) : list VirtualNode :=
  foldr insert_by_hash [] l.

End Ring.


(** ** Package cache *)

Module Cache.

(** [type CacheLevel int] *)
Inductive CacheLevel := LevelUnknown | LevelL1 | LevelL2 | LevelMiss.

(** [time.Time], as an opaque instant. *)
Definition Time := Z.

(** [type Message struct] *)
Record Message := mkMessage {
  Content : string;
  SenderID : string;
  Timestamp : Time;
}.

(** [type ChatSession struct] *)
Record ChatSession := mkChatSession {
  ChatID : string;
  Messages : list Message;
  LastAccessed : Time;
  CreatedAt : Time;
  MessageCount : Z;
}.

(** *** container/list

    A [*list.List] is the sequence of its elements, front first.  An
    element is its address [eid] and its [Value], so that
    [Remove(e)] and [MoveToFront(e)] act on the element [e] points to and
    on nothing else. *)
Record Element := mkElement {
  eid : nat;
  Value : string;
}.

(** [l.Back()] *)
Definition Back (l : list Element) : option Element := last l.

(** [l.Remove(e)]: no effect when [e] is not an element of [l]. *)
Definition Remove (e : nat) (l : list Element) : list Element :=
  filter (λ x, eid x ≠ e) l.

(** [l.MoveToFront(e)]: no effect when [e] is not an element of [l]. *)
Definition MoveToFront (e : nat) (l : list Element) : list Element :=
  match list_find (λ x, eid x = e) l with
  | Some (_, x) => x :: Remove e l
  | None => l
  end.

(** [type cacheEntry struct]: the two pointers. *)
Record cacheEntry := mkCacheEntry {
  session : nat;   (* *ChatSession *)
  element : nat;   (* *list.Element *)
}.

(** [type CacheStats struct] *)
Record CacheStats := mkCacheStats {
  TotalRequests : Z;
  CacheHits : Z;
  CacheMisses : Z;
  L1Hits : Z;
  L2Hits : Z;
  Evictions : Z;
  Demotions : Z;
}.

(** [type HierarchicalCache struct] (without the mutex) *)
Record HierarchicalCache := mkHierarchicalCache {
  l1Cache : gmap string cacheEntry;
  l1List : list Element;
  l1Capacity : Z;
  l2Cache : gmap string cacheEntry;
  l2List : list Element;
  l2Capacity : Z;
  stats : CacheStats;
  serverID : string;
}.

(** [type CacheInfo struct] *)
Record CacheInfo := mkCacheInfo {
  L1Size : Z;
  L1Capacity : Z;
  L2Size : Z;
  L2Capacity : Z;
  L1Chats : list string;
  L2Chats : list string;
  Stats : CacheStats;
}.

(** The cache together with the [ChatSession] objects allocated so far,
    by address.  A session that was evicted stays in the store: callers
    may still hold the pointer they were given. *)
Record State := mkState {
  cache : HierarchicalCache;
  sessions : gmap nat ChatSession;
}.

(** Field updates. *)
Definition set_l1 (m : gmap string cacheEntry) (l : list Element)
    (c : HierarchicalCache) : HierarchicalCache :=
  {| l1Cache := m; l1List := l; l1Capacity := l1Capacity c;
     l2Cache := l2Cache c; l2List := l2List c; l2Capacity := l2Capacity c;
     stats := stats c; serverID := serverID c |}.

Definition set_l2 (m : gmap string cacheEntry) (l : list Element)
    (c : HierarchicalCache) : HierarchicalCache :=
  {| l1Cache := l1Cache c; l1List := l1List c; l1Capacity := l1Capacity c;
     l2Cache := m; l2List := l; l2Capacity := l2Capacity c;
     stats := stats c; serverID := serverID c |}.

Definition set_stats (s : CacheStats) (c : HierarchicalCache) : HierarchicalCache :=
  {| l1Cache := l1Cache c; l1List := l1List c; l1Capacity := l1Capacity c;
     l2Cache := l2Cache c; l2List := l2List c; l2Capacity := l2Capacity c;
     stats := s; serverID := serverID c |}.

Definition incrTotalRequests (s : CacheStats) : CacheStats :=
  {| TotalRequests := incr64 (TotalRequests s); CacheHits := CacheHits s;
     CacheMisses := CacheMisses s; L1Hits := L1Hits s; L2Hits := L2Hits s;
     Evictions := Evictions s; Demotions := Demotions s |}.

Definition incrL1Hit (s : CacheStats) : CacheStats :=
  {| TotalRequests := TotalRequests s; CacheHits := incr64 (CacheHits s);
     CacheMisses := CacheMisses s; L1Hits := incr64 (L1Hits s); L2Hits := L2Hits s;
     Evictions := Evictions s; Demotions := Demotions s |}.

Definition incrL2Hit (s : CacheStats) : CacheStats :=
  {| TotalRequests := TotalRequests s; CacheHits := incr64 (CacheHits s);
     CacheMisses := CacheMisses s; L1Hits := L1Hits s; L2Hits := incr64 (L2Hits s);
     Evictions := Evictions s; Demotions := Demotions s |}.

Definition incrCacheMisses (s : CacheStats) : CacheStats :=
  {| TotalRequests := TotalRequests s; CacheHits := CacheHits s;
     CacheMisses := incr64 (CacheMisses s); L1Hits := L1Hits s; L2Hits := L2Hits s;
     Evictions := Evictions s; Demotions := Demotions s |}.

Definition incrEvictions (s : CacheStats) : CacheStats :=
  {| TotalRequests := TotalRequests s; CacheHits := CacheHits s;
     CacheMisses := CacheMisses s; L1Hits := L1Hits s; L2Hits := L2Hits s;
     Evictions := incr64 (Evictions s); Demotions := Demotions s |}.

Definition incrDemotions (s : CacheStats) : CacheStats :=
  {| TotalRequests := TotalRequests s; CacheHits := CacheHits s;
     CacheMisses := CacheMisses s; L1Hits := L1Hits s; L2Hits := L2Hits s;
     Evictions := Evictions s; Demotions := incr64 (Demotions s) |}.

(** [len(m)] of a map, as a Go [int]. *)
Definition len {V} (m : gmap string V) : Z := Z.of_nat (size m).

(** The address of the element allocated by the next [PushFront]: one
    that no element of either list has. *)
Definition newElement (c : HierarchicalCache) : nat :=
  fresh (list_to_set (eid <$> (l1List c ++ l2List c)) : gset nat).

(** [func NewHierarchicalCache(serverID string, l1Capacity, l2Capacity int) *HierarchicalCache] *)
Definition NewHierarchicalCache (serverID : string) (l1Capacity l2Capacity : Z)
    : HierarchicalCache :=
  {| l1Cache := ∅; l1List := []; l1Capacity := l1Capacity;
     l2Cache := ∅; l2List := []; l2Capacity := l2Capacity;
     stats := mkCacheStats 0 0 0 0 0 0 0;
     serverID := serverID |}.

(** [func (c *HierarchicalCache) evictFromL2()] *)
Definition evictFromL2 (c : HierarchicalCache) : HierarchicalCache :=
  match Back (l2List c) with
  | None => c
  | Some back =>
      let chatID := Value back in
      set_stats (incrEvictions (stats c))
        (set_l2 (delete chatID (l2Cache c)) (Remove (eid back) (l2List c)) c)
  end.

(** The loop [for len(c.l2Cache) >= c.l2Capacity { c.evictFromL2() }]. *)
Fixpoint evictLoop (fuel : nat) (c : HierarchicalCache) : result HierarchicalCache :=
  match fuel with
  | O => OutOfFuel
  | S fuel =>
      if l2Capacity c <=? len (l2Cache c) then evictLoop fuel (evictFromL2 c)
      else Ok c
  end.

(** [func (c *HierarchicalCache) addToL2(chatID string, session *ChatSession)] *)
Definition addToL2 (fuel : nat) (chatID : string) (session : nat)
    (c : HierarchicalCache) : result HierarchicalCache :=
  c ← evictLoop fuel c;
  let elem := newElement c in
  Ok (set_l2 (<[chatID := {| session := session; element := elem |}]> (l2Cache c))
             ({| eid := elem; Value := chatID |} :: l2List c) c).

(** [func (c *HierarchicalCache) demoteFromL1()].  [c.l1Cache[chatID]] is
    nil when the id is not a key, and [entry.session] then panics. *)
Definition demoteFromL1 (fuel : nat) (c : HierarchicalCache) : result HierarchicalCache :=
  match Back (l1List c) with
  | None => Ok c
  | Some back =>
      let chatID := Value back in
      let entry := l1Cache c !! chatID in
      let c := set_l1 (delete chatID (l1Cache c)) (Remove (eid back) (l1List c)) c in
      let c := set_stats (incrDemotions (stats c)) c in
      match entry with
      | None => Panic
      | Some entry => addToL2 fuel chatID (session entry) c
      end
  end.

(** The loop [for len(c.l1Cache) >= c.l1Capacity { c.demoteFromL1() }]. *)
Fixpoint demoteLoop (fuel : nat) (c : HierarchicalCache) : result HierarchicalCache :=
  match fuel with
  | O => OutOfFuel
  | S fuel =>
      if l1Capacity c <=? len (l1Cache c) then
        c ← demoteFromL1 fuel c; demoteLoop fuel c
      else Ok c
  end.

(** [func (c *HierarchicalCache) addToL1(chatID string, session *ChatSession)] *)
Definition addToL1 (fuel : nat) (chatID : string) (session : nat)
    (c : HierarchicalCache) : result HierarchicalCache :=
  c ← demoteLoop fuel c;
  let elem := newElement c in
  Ok (set_l1 (<[chatID := {| session := session; element := elem |}]> (l1Cache c))
             ({| eid := elem; Value := chatID |} :: l1List c) c).

(** [func (c *HierarchicalCache) promoteToL1(chatID string, entry *cacheEntry)] *)
Definition promoteToL1 (fuel : nat) (chatID : string) (entry : cacheEntry)
    (c : HierarchicalCache) : result HierarchicalCache :=
  let c := set_l2 (delete chatID (l2Cache c)) (Remove (element entry) (l2List c)) c in
  addToL1 fuel chatID (session entry) c.

(** [session.LastAccessed = time.Now()] *)
Definition touch (now : Time) (s : ChatSession) : ChatSession :=
  {| ChatID := ChatID s; Messages := Messages s; LastAccessed := now;
     CreatedAt := CreatedAt s; MessageCount := MessageCount s |}.

(** [func (c *HierarchicalCache) GetOrCreate(chatID string) ( *ChatSession, CacheLevel)].
    [now] is the reading of [time.Now()] during the call.  On a miss
    the code reads the clock twice in a row, for [LastAccessed] and for
    [CreatedAt] of the new session; the two readings are taken to be
    the one [now], and no property below is about the time fields of a
    new session. *)
Definition GetOrCreate (fuel : nat) (now : Time) (chatID : string) (σ : State)
    : result (State * nat * CacheLevel) :=
  let c := set_stats (incrTotalRequests (stats (cache σ))) (cache σ) in
  match l1Cache c !! chatID with
  | Some entry =>
      let c := set_stats (incrL1Hit (stats c)) c in
      let h := alter (touch now) (session entry) (sessions σ) in
      let c := set_l1 (l1Cache c) (MoveToFront (element entry) (l1List c)) c in
      Ok ({| cache := c; sessions := h |}, session entry, LevelL1)
  | None =>
      match l2Cache c !! chatID with
      | Some entry =>
          let c := set_stats (incrL2Hit (stats c)) c in
          let h := alter (touch now) (session entry) (sessions σ) in
          c ← promoteToL1 fuel chatID entry c;
          Ok ({| cache := c; sessions := h |}, session entry, LevelL2)
      | None =>
          let c := set_stats (incrCacheMisses (stats c)) c in
          let p := fresh (dom (sessions σ)) in
          let h := <[p := {| ChatID := chatID; Messages := [];
                             LastAccessed := now; CreatedAt := now;
                             MessageCount := 0 |}]> (sessions σ) in
          c ← addToL1 fuel chatID p c;
          Ok ({| cache := c; sessions := h |}, p, LevelMiss)
      end
  end.

(** The three assignments of [AddMessage] on the session object. *)
Definition appendMessage (msg : Message) (now : Time) (s : ChatSession) : ChatSession :=
  {| ChatID := ChatID s; Messages := Messages s ++ [msg]; LastAccessed := now;
     CreatedAt := CreatedAt s; MessageCount := incr64 (MessageCount s) |}.

(** [func (c *HierarchicalCache) AddMessage(chatID string, msg Message) ( *ChatSession, CacheLevel, error)].
    The error returned is always nil and is left out.  [now] stands for
    the readings of [time.Now()] during the call, that of [GetOrCreate]
    and the later one of [AddMessage] itself; no property below is about
    [LastAccessed] after an [AddMessage]. *)
Definition AddMessage (fuel : nat) (now : Time) (chatID : string) (msg : Message)
    (σ : State) : result (State * nat * CacheLevel) :=
  '(σ, session, level) ← GetOrCreate fuel now chatID σ;
  Ok ({| cache := cache σ;
         sessions := alter (appendMessage msg now) session (sessions σ) |},
      session, level).

(** [func (c *HierarchicalCache) GetStats() CacheStats] *)
Definition GetStats (σ : State) : CacheStats := stats (cache σ).

(** [for chatID := range m { chats = append(chats, chatID) }].  The order
    in which [range] visits the keys of a map is chosen by the Go runtime
    and differs from run to run: [order] is the order chosen, any
    permutation of the keys. *)
Definition range_order {V} (m : gmap string V) (order : list string) : Prop :=
  order ≡ₚ (map_to_list m).*1.

Definition collectKeys (order : list string) : list string :=
  foldl (λ chats chatID, chats ++ [chatID]) [] order.

(** [func (c *HierarchicalCache) GetCacheInfo() CacheInfo], given the
    iteration orders of the two [range] loops. *)
Definition GetCacheInfo (order1 order2 : list string) (σ : State) : CacheInfo :=
  let c := cache σ in
  {| L1Size := len (l1Cache c);
     L1Capacity := l1Capacity c;
     L2Size := len (l2Cache c);
     L2Capacity := l2Capacity c;
     L1Chats := collectKeys order1;
     L2Chats := collectKeys order2;
     Stats := stats c |}.

(** The results [GetCacheInfo] can return in state [σ]. *)
Definition GetCacheInfo_returns (σ : State) (info : CacheInfo) : Prop :=
  ∃ order1 order2,
    range_order (l1Cache (cache σ)) order1 ∧
    range_order (l2Cache (cache σ)) order2 ∧
    info = GetCacheInfo order1 order2 σ.

(** [func (c *HierarchicalCache) GetSession(chatID string) ( *ChatSession, CacheLevel, bool)] *)
Definition GetSession (chatID : string) (σ : State) : option nat * CacheLevel * bool :=
  match l1Cache (cache σ) !! chatID with
  | Some entry => (Some (session entry), LevelL1, true)
  | None =>
      match l2Cache (cache σ) !! chatID with
      | Some entry => (Some (session entry), LevelL2, true)
      | None => (None, LevelMiss, false)
      end
  end.

(** [func (c *HierarchicalCache) Clear()] *)
Definition Clear (σ : State) : State :=
  {| cache := set_l2 ∅ [] (set_l1 ∅ [] (cache σ)); sessions := sessions σ |}.

(** The ids of a tier's LRU list, front to back (what [DebugPrint] prints). *)
Definition listIDs (l : list Element) : list string := Value <$> l.

(** *** Programs over the public operations *)

Inductive op :=
  | OpGetOrCreate (now : Time) (chatID : string)
  | OpAddMessage (now : Time) (chatID : string) (msg : Message)
  | OpGetSession (chatID : string)
  | OpClear.

Definition exec (fuel : nat) (o : op) (σ : State) : result State :=
  match o with
  | OpGetOrCreate now chatID =>
      '(σ, _, _) ← GetOrCreate fuel now chatID σ; Ok σ
  | OpAddMessage now chatID msg =>
      '(σ, _, _) ← AddMessage fuel now chatID msg σ; Ok σ
  | OpGetSession chatID => let _ := GetSession chatID σ in Ok σ
  | OpClear => Ok (Clear σ)
  end.

Fixpoint run (fuel : nat) (ops : list op) (σ : State) : result State :=
  match ops with
  | [] => Ok σ
  | o :: ops => σ ← exec fuel o σ; run fuel ops σ
  end.

(** The state of a freshly constructed cache. *)
Definition new (serverID : string) (l1Capacity l2Capacity : Z) : State :=
  {| cache := NewHierarchicalCache serverID l1Capacity l2Capacity; sessions := ∅ |}.

(** The states a cache constructed with the given capacities goes
    through: after construction, and after every public operation that
    returns. *)
Inductive reachable (l1Capacity l2Capacity : Z) : State → Prop :=
  | reachable_new serverID :
      reachable l1Capacity l2Capacity (new serverID l1Capacity l2Capacity)
  | reachable_exec σ fuel o σ' :
      reachable l1Capacity l2Capacity σ →
      exec fuel o σ = Ok σ' →
      reachable l1Capacity l2Capacity σ'.

(** The state after a program, when it returns. *)
Definition after (fuel : nat) (ops : list op) (σ : State) : State :=
  match run fuel ops σ with
  | Ok σ' => σ'
  | _ => σ
  end.

(** The states of the scenarios of the specification, capacities (2, 3):
    after touching [a] and [b], and after touching [a], [b] and [c]. *)
Definition scenario_ab : State :=
  after 3 [OpGetOrCreate 1 "a"; OpGetOrCreate 2 "b"] (new "srv" 2 3).

Definition scenario_abc : State :=
  after 3 [OpGetOrCreate 1 "a"; OpGetOrCreate 2 "b"; OpGetOrCreate 3 "c"]
    (new "srv" 2 3).

(** Two messages appended to the session [a]. *)
Definition scenario_messages : State :=
  after 3 [OpAddMessage 1 "a" (mkMessage "hello" "user-1" 1);
           OpAddMessage 2 "a" (mkMessage "again" "user-1" 2)]
    (new "srv" 2 3).

(** A cache with no warm tier, capacities (1, 0), after touching [a]. *)
Definition scenario_no_l2 : State :=
  after 3 [OpGetOrCreate 1 "a"] (new "srv" 1 0).

(** *** The two-list LRU of the design

    The tiers as two lists of ids, most recent first, and an access as a
    function on them: a hit in L1 moves the id to the front of L1; any
    other access takes the id out of L2 (if it is there) and inserts it
    at the front of L1, after demoting the back of a full L1 to the
    front of L2, which first drops the back of a full L2. *)
Definition spec_demote (cap2 : Z) (x : string) (l2 : list string) : list string :=
  if Z.of_nat (length l2) <? cap2 then x :: l2 else x :: removelast l2.

Definition spec_insert (cap1 cap2 : Z) (id : string) (l1 l2 : list string)
    : list string * list string :=
  if Z.of_nat (length l1) <? cap1 then (id :: l1, l2)
  else
    match last l1 with
    | Some x => (id :: removelast l1, spec_demote cap2 x l2)
    | None => (id :: l1, l2)
    end.

Definition spec_access (cap1 cap2 : Z) (id : string)
    (tiers : list string * list string) : list string * list string :=
  let '(l1, l2) := tiers in
  if bool_decide (id ∈ l1) then (id :: filter (λ k, k ≠ id) l1, l2)
  else spec_insert cap1 cap2 id l1 (filter (λ k, k ≠ id) l2).

#[global] Instance CacheLevel_eq_dec : EqDecision CacheLevel.
Proof. solve_decision. Defined.

(** The ids of the two tiers of a state, most recent first. *)
Definition tiers (σ : State) : list string * list string :=
  (listIDs (l1List (cache σ)), listIDs (l2List (cache σ))).

(** The id [k] is resident, in either tier, with the session at [p]. *)
Definition resident (c : HierarchicalCache) (k : string) (p : nat) : Prop :=
  ∃ e, (l1Cache c !! k = Some e ∨ l2Cache c !! k = Some e) ∧ session e = p.

(** Every resident entry points to the session created for its id. *)
Definition entries_keyed (σ : State) : Prop :=
  ∀ k e, l1Cache (cache σ) !! k = Some e ∨ l2Cache (cache σ) !! k = Some e →
    ∃ s, sessions σ !! session e = Some s ∧ ChatID s = k.

(** *** Invariants *)

(** A tier is consistent when its map and its list describe the same
    entries: the list has no two elements with the same address or the
    same id, and the map sends [k] to an entry with element [e] exactly
    when the element at address [e] is in the list with value [k]. *)
Definition tier_ok (m : gmap string cacheEntry) (l : list Element) : Prop :=
  NoDup (eid <$> l) ∧
  NoDup (Value <$> l) ∧
  ∀ k e, (∃ s, m !! k = Some {| session := s; element := e |}) ↔
         {| eid := e; Value := k |} ∈ l.

(** No id is in both tiers. *)
Definition tiers_disjoint (c : HierarchicalCache) : Prop :=
  ∀ k, is_Some (l1Cache c !! k) → is_Some (l2Cache c !! k) → False.

(** Every session pointer held by an entry satisfies [P]. *)
Definition entries_in (P : nat → Prop) (c : HierarchicalCache) : Prop :=
  ∀ k e, l1Cache c !! k = Some e ∨ l2Cache c !! k = Some e → P (session e).

Definition cache_ok (P : nat → Prop) (c : HierarchicalCache) : Prop :=
  tier_ok (l1Cache c) (l1List c) ∧
  tier_ok (l2Cache c) (l2List c) ∧
  tiers_disjoint c ∧
  len (l1Cache c) ≤ Z.max 0 (l1Capacity c) ∧
  len (l2Cache c) ≤ Z.max 0 (l2Capacity c) ∧
  entries_in P c.

(** [id] is in neither tier. *)
Definition absent (id : string) (c : HierarchicalCache) : Prop :=
  l1Cache c !! id = None ∧ l2Cache c !! id = None.

(** The request counters agree. *)
Definition same_requests (s s' : CacheStats) : Prop :=
  TotalRequests s' = TotalRequests s ∧ CacheHits s' = CacheHits s ∧
  CacheMisses s' = CacheMisses s ∧ L1Hits s' = L1Hits s ∧ L2Hits s' = L2Hits s.

(** What the internal moves between tiers leave alone: the capacities,
    the name, the request counters, and the absence of an id. *)
Definition evolves (c c' : HierarchicalCache) : Prop :=
  l1Capacity c' = l1Capacity c ∧ l2Capacity c' = l2Capacity c ∧
  serverID c' = serverID c ∧ same_requests (stats c) (stats c') ∧
  ∀ id, absent id c → absent id c'.

(** The counter identities of Go's [int64] arithmetic. *)
Definition stats_ok (s : CacheStats) : Prop :=
  CacheHits s = add64 (L1Hits s) (L2Hits s) ∧
  TotalRequests s = add64 (CacheHits s) (CacheMisses s).

(** Every session object counts its messages. *)
Definition sessions_ok (h : gmap nat ChatSession) : Prop :=
  ∀ p s, h !! p = Some s →
    MessageCount s = wrap64 (Z.of_nat (length (Messages s))).

(** What a [GetOrCreate] that returns has done to the session store. *)
Definition sessions_after (now : Time) (id : string) (level : CacheLevel)
    (p : nat) (h h' : gmap nat ChatSession) : Prop :=
  match level with
  | LevelMiss =>
      h !! p = None ∧
      h' = <[p := {| ChatID := id; Messages := []; LastAccessed := now;
                     CreatedAt := now; MessageCount := 0 |}]> h
  | _ => is_Some (h !! p) ∧ h' = alter (touch now) p h
  end.

Definition state_ok (σ : State) : Prop :=
  cache_ok (λ p, is_Some (sessions σ !! p)) (cache σ) ∧
  stats_ok (stats (cache σ)) ∧
  sessions_ok (sessions σ).

End Cache.

(** ** Package server: construction of the backend's cache *)

Module Server.

(** [type ServerConfig struct] *)
Record ServerConfig := mkServerConfig {
  ServerID : string;
  Port : Z;
  L1Capacity : Z;
  L2Capacity : Z;
}.

(** [type ChatServer struct]: the fields set by [NewChatServer], without
    the gRPC server, the start time and the shutdown channel. *)
Record ChatServer := mkChatServer {
  serverID : string;
  address : string;
  port : Z;
  cache : Cache.State;
  healthy : bool;
}.

(** [func NewChatServer(config ServerConfig) *ChatServer] *)
Definition NewChatServer (config : ServerConfig) : ChatServer :=
  let l1Capacity := if L1Capacity config <=? 0 then 5 else L1Capacity config in
  let l2Capacity := if L2Capacity config <=? 0 then 20 else L2Capacity config in
  {| serverID := ServerID config;
     port := Port config;
     address := "localhost:" +:+ pretty (Port config);
     cache := Cache.new (ServerID config) l1Capacity l2Capacity;
     healthy := true |}.

End Server.

(** ** Package client: the failover loop *)

Module Client.

(** [type ClientConfig struct]; durations in nanoseconds. *)
Record ClientConfig := mkClientConfig {
  VirtualNodes : Z;
  MaxRetries : Z;
  ConnectTimeout : Z;
  RequestTimeout : Z;
}.

(** [type ClientStats struct] *)
Record ClientStats := mkClientStats {
  TotalRequests : Z;
  SuccessRequests : Z;
  FailedRequests : Z;
  FailoverCount : Z;
  PrimaryHits : Z;
}.

(** [type serverConnection struct].  [conn] and [client] are nil or the
    handle of an established gRPC connection. *)
Record serverConnection := mkServerConnection {
  address : string;
  conn : option nat;
  client : option nat;
  healthy : bool;
}.

(** [type SmartClient struct] (without the mutex).  The map holds
    pointers; an entry is only ever reached through the map, so the
    object is stored in place. *)
Record SmartClient := mkSmartClient {
  ring : Ring.HashRing;
  connections : gmap string serverConnection;
  config : ClientConfig;
  stats : ClientStats;
}.

(** [pb.ChatRequest] and [pb.ChatResponse] *)
Record ChatRequest := mkChatRequest {
  ChatId : string;
  Message : string;
  SenderId : string;
  Timestamp : Z;
}.

Record ChatResponse := mkChatResponse {
  Success : bool;
  ServerId : string;
  CacheLocation : Z;
  MessageCount : Z;
  ErrorMessage : string;
}.

(** The errors of one attempt: built by [sendToServer] and
    [connectToServer] ([fmt.Errorf]) or handed up by the RPC. *)
Inductive error :=
  | ErrNoConnection (address : string)             (* no connection to ... *)
  | ErrMarkedDown (address : string)               (* server ... is marked as down *)
  | ErrConnect (address : string) (cause : string) (* failed to connect to ... *)
  | ErrTransport (cause : string).                 (* returned by the RPC *)

(** The errors returned by [SendMessage]; [lastErr] is nil when the last
    attempt was answered with [success=false]. *)
Inductive sendError :=
  | ErrNoServers                                   (* no servers available *)
  | ErrAllExhausted (lastErr : option error).      (* all servers exhausted: ... *)

(** The network, as seen by one [SendMessage]: what [grpc.DialContext]
    and the [PostMessage] RPC return at attempt [i] for an address. *)
Inductive dialed := Connected (conn : nat) | DialError (cause : string).
Inductive reply := Response (resp : ChatResponse) | TransportError (cause : string).

Record Network := mkNetwork {
  DialContext : nat → string → dialed;
  PostMessage : nat → string → ChatRequest → reply;
}.

Definition set_connections (m : gmap string serverConnection) (c : SmartClient)
    : SmartClient :=
  {| ring := ring c; connections := m; config := config c; stats := stats c |}.

Definition set_stats (s : ClientStats) (c : SmartClient) : SmartClient :=
  {| ring := ring c; connections := connections c; config := config c; stats := s |}.

Definition set_ring (r : Ring.HashRing) (c : SmartClient) : SmartClient :=
  {| ring := r; connections := connections c; config := config c; stats := stats c |}.

Definition set_healthy (b : bool) (sc : serverConnection) : serverConnection :=
  {| address := address sc; conn := conn sc; client := client sc; healthy := b |}.

(** [func DefaultClientConfig() ClientConfig] *)
Definition DefaultClientConfig : ClientConfig :=
  {| VirtualNodes := 100; MaxRetries := 3;
     ConnectTimeout := 5 * 10 ^ 9; RequestTimeout := 10 * 10 ^ 9 |}.

(** [func NewSmartClient(config ClientConfig) *SmartClient] *)
Definition NewSmartClient (config : ClientConfig) : SmartClient :=
  let config :=
    {| VirtualNodes := if VirtualNodes config <=? 0 then 100 else VirtualNodes config;
       MaxRetries := if MaxRetries config <=? 0 then 3 else MaxRetries config;
       ConnectTimeout :=
         if ConnectTimeout config <=? 0 then 5 * 10 ^ 9 else ConnectTimeout config;
       RequestTimeout :=
         if RequestTimeout config <=? 0 then 10 * 10 ^ 9 else RequestTimeout config |} in
  {| ring := Ring.NewHashRing (VirtualNodes config);
     connections := ∅;
     config := config;
     stats := mkClientStats 0 0 0 0 0 |}.

(** [func (c *SmartClient) connectToServer(address string) ( *grpc.ClientConn, error)] *)
Definition connectToServer (net : Network) (i : nat) (address : string) : nat + error :=
  match DialContext net i address with
  | Connected g => inl g
  | DialError cause => inr (ErrConnect address cause)
  end.

Section client.
Context `{Ring.SliceSort}.

(** [func (c *SmartClient) AddServer(serverID string, address string, capacity int) error];
    the error returned is always nil. *)
Definition AddServer (net : Network) (serverID address : string) (capacity : Z)
    (c : SmartClient) : SmartClient :=
  let c := set_ring (Ring.AddNode serverID capacity address (ring c)) c in
  match connectToServer net 0 address with
  | inr _ =>
      set_connections
        (<[address := {| address := address; conn := None; client := None;
                         healthy := false |}]> (connections c)) c
  | inl g =>
      set_connections
        (<[address := {| address := address; conn := Some g; client := Some g;
                         healthy := true |}]> (connections c)) c
  end.

(** [func (c *SmartClient) RemoveServer(serverID string)] *)
Definition RemoveServer (serverID : string) (c : SmartClient) : SmartClient :=
  let c :=
    match Ring.GetNodeAddress serverID (ring c) with
    | Some addr => set_connections (delete addr (connections c)) c
    | None => c
    end in
  set_ring (Ring.RemoveNode serverID (ring c)) c.

End client.

(** [func (c *SmartClient) MarkServerDown(serverID string)] *)
Definition MarkServerDown (serverID : string) (c : SmartClient) : SmartClient :=
  match Ring.GetNodeAddress serverID (ring c) with
  | None => c
  | Some addr => set_connections (alter (set_healthy false) addr (connections c)) c
  end.

(** [func (c *SmartClient) MarkServerUp(serverID string)] *)
Definition MarkServerUp (serverID : string) (c : SmartClient) : SmartClient :=
  match Ring.GetNodeAddress serverID (ring c) with
  | None => c
  | Some addr => set_connections (alter (set_healthy true) addr (connections c)) c
  end.

(** [func (c *SmartClient) markConnectionUnhealthy(address string)] *)
Definition markConnectionUnhealthy (address : string) (c : SmartClient) : SmartClient :=
  set_connections (alter (set_healthy false) address (connections c)) c.

(** [func (c *SmartClient) sendToServer(address string, req *pb.ChatRequest) ( *pb.ChatResponse, error)],
    at attempt [i] of the enclosing [SendMessage]. *)
Definition sendToServer (net : Network) (i : nat) (address : string)
    (req : ChatRequest) (c : SmartClient) : SmartClient * (ChatResponse + error) :=
  match connections c !! address with
  | None => (c, inr (ErrNoConnection address))
  | Some sc =>
      if negb (healthy sc) then (c, inr (ErrMarkedDown address))
      else
        let reconnected :=
          match client sc with
          | Some _ => inl c
          | None =>
              match connectToServer net i address with
              | inr err => inr err
              | inl g =>
                  inl (set_connections
                         (<[address := {| address := Client.address sc;
                                          conn := Some g; client := Some g;
                                          healthy := true |}]> (connections c)) c)
              end
          end in
        match reconnected with
        | inr err => (c, inr err)
        | inl c =>
            match PostMessage net i address req with
            | Response resp => (c, inl resp)
            | TransportError cause => (c, inr (ErrTransport cause))
            end
        end
  end.

(** One iteration of the loop of [SendMessage] over the successors. *)
Inductive attempted :=
  | Succeeded (resp : ChatResponse)     (* [return resp, nil] *)
  | Failed (lastErr : option error).    (* next iteration, with [lastErr = err] *)

Definition attempt (net : Network) (i : nat) (node : Ring.NodeInfo)
    (req : ChatRequest) (c : SmartClient) : SmartClient * attempted :=
  let '(c, r) := sendToServer net i (Ring.InfoAddress node) req c in
  match r with
  | inl resp =>
      if Success resp then
        let s := stats c in
        let s :=
          {| TotalRequests := TotalRequests s;
             SuccessRequests := incr64 (SuccessRequests s);
             FailedRequests := FailedRequests s;
             FailoverCount :=
               if (i =? 0)%nat then FailoverCount s else incr64 (FailoverCount s);
             PrimaryHits :=
               if (i =? 0)%nat then incr64 (PrimaryHits s) else PrimaryHits s |} in
        (set_stats s c, Succeeded resp)
      else (markConnectionUnhealthy (Ring.InfoAddress node) c, Failed None)
  | inr err => (markConnectionUnhealthy (Ring.InfoAddress node) c, Failed (Some err))
  end.

Definition incrFailedRequests (c : SmartClient) : SmartClient :=
  let s := stats c in
  set_stats {| TotalRequests := TotalRequests s;
               SuccessRequests := SuccessRequests s;
               FailedRequests := incr64 (FailedRequests s);
               FailoverCount := FailoverCount s;
               PrimaryHits := PrimaryHits s |} c.

Definition incrTotalRequests (c : SmartClient) : SmartClient :=
  let s := stats c in
  set_stats {| TotalRequests := incr64 (TotalRequests s);
               SuccessRequests := SuccessRequests s;
               FailedRequests := FailedRequests s;
               FailoverCount := FailoverCount s;
               PrimaryHits := PrimaryHits s |} c.

(** The loop [for i, node := range nodes] and what follows it. *)
Fixpoint sendLoop (net : Network) (req : ChatRequest) (i : nat)
    (nodes : list Ring.NodeInfo) (lastErr : option error) (c : SmartClient)
    : SmartClient * (ChatResponse + sendError) :=
  match nodes with
  | [] => (incrFailedRequests c, inr (ErrAllExhausted lastErr))
  | node :: nodes =>
      match attempt net i node req c with
      | (c, Succeeded resp) => (c, inl resp)
      | (c, Failed lastErr) => sendLoop net req (S i) nodes lastErr c
      end
  end.

(** [func (c *SmartClient) SendMessage(chatID, senderID, message string) ( *pb.ChatResponse, error)];
    [now] is [time.Now().Unix()]. *)
Definition SendMessage {alloc : Ring.Allocator} (net : Network) (now : Z)
    (chatID senderID message : string) (c : SmartClient)
    : result (SmartClient * (ChatResponse + sendError)) :=
  let c := incrTotalRequests c in
  nodes ← Ring.GetNodes chatID (MaxRetries (config c)) (ring c);
  if (length nodes =? 0)%nat then Ok (incrFailedRequests c, inr ErrNoServers)
  else
    let req := {| ChatId := chatID; Message := message; SenderId := senderID;
                  Timestamp := now |} in
    Ok (sendLoop net req 0 nodes None c).

(** A network whose backends answer every request with [success=false]
    (a server that is shutting down), and one that answers with
    [success=true]. *)
Definition rejecting : Network :=
  {| DialContext := λ _ _, Connected 1;
     PostMessage := λ _ _ _,
       Response (mkChatResponse false "server-a" 0 0 "server is shutting down") |}.

Definition accepting : Network :=
  {| DialContext := λ _ _, Connected 1;
     PostMessage := λ _ _ _, Response (mkChatResponse true "server-a" 3 1 "") |}.

Section examples.
Context `{Ring.SliceSort}.

(** A client with one registered backend, connected and healthy. *)
Definition client1 : SmartClient :=
  AddServer rejecting "server-a" "localhost:50051" 10
    (NewSmartClient DefaultClientConfig).

End examples.


Definition request1 : ChatRequest :=
  {| ChatId := "chat-1"; Message := "hello"; SenderId := "user-1"; Timestamp := 0 |}.

(** [func (c *SmartClient) GetStats() ClientStats] *)
Definition GetStats (c : SmartClient) : ClientStats := stats c.

(** [func (c *SmartClient) GetTargetServer(chatID string) (string, string, bool)] *)
Definition GetTargetServer (chatID : string) (c : SmartClient)
    : string * string * bool :=
  Ring.GetNode chatID (ring c).

(** [func (c *SmartClient) GetServerCount() int] *)
Definition GetServerCount (c : SmartClient) : nat := Ring.GetNodeCount (ring c).

(** [func (c *SmartClient) Close()]: the connections are closed and the
    map is replaced by an empty one; the ring is left as it is. *)
Definition Close (c : SmartClient) : SmartClient := set_connections ∅ c.

(** The errors of [HealthCheck]. *)
Inductive healthError :=
  | ErrNotFound (serverID : string)     (* server ... not found *)
  | ErrHealthRPC (cause : string).      (* returned by the RPC *)

(** [func (c *SmartClient) HealthCheck(serverID string) (bool, error)];
    [rpc] is what the [HealthCheck] RPC of an address returns: the
    [Healthy] field of the response, or an error. *)
Definition HealthCheck (rpc : string → bool + string) (serverID : string)
    (c : SmartClient) : bool * option healthError :=
  match Ring.GetNodeAddress serverID (ring c) with
  | None => (false, Some (ErrNotFound serverID))
  | Some addr =>
      match connections c !! addr with
      | None => (false, None)
      | Some sc =>
          match client sc with
          | None => (false, None)
          | Some _ =>
              if negb (healthy sc) then (false, None)
              else
                match rpc addr with
                | inr cause => (false, Some (ErrHealthRPC cause))
                | inl h => (h, None)
                end
          end
      end
  end.

(** The counters add up, in 64-bit arithmetic. *)
Definition stats_ok (s : ClientStats) : Prop :=
  TotalRequests s = add64 (SuccessRequests s) (FailedRequests s) ∧
  SuccessRequests s = add64 (PrimaryHits s) (FailoverCount s).

Section reach.
Context `{Ring.SliceSort}.
Context {alloc : Ring.Allocator}.

(** The clients a program can build, as they are between two calls:
    [NewSmartClient] followed by any sequence of the exported methods
    that change the client, over any network.  A [SendMessage] that
    panics (in [GetNodes]) has counted the request before, with the lock
    released again: a caller that recovers goes on with that client. *)
Inductive reachable : SmartClient → Prop :=
  | reachable_new config : reachable (NewSmartClient config)
  | reachable_add net serverID address capacity c :
      reachable c → reachable (AddServer net serverID address capacity c)
  | reachable_remove serverID c :
      reachable c → reachable (RemoveServer serverID c)
  | reachable_down serverID c :
      reachable c → reachable (MarkServerDown serverID c)
  | reachable_up serverID c :
      reachable c → reachable (MarkServerUp serverID c)
  | reachable_send net now chatID senderID message c c' r :
      reachable c →
      SendMessage net now chatID senderID message c = Ok (c', r) →
      reachable c'
  | reachable_send_panic net now chatID senderID message c :
      reachable c →
      SendMessage net now chatID senderID message c = Panic →
      reachable (incrTotalRequests c)
  | reachable_close c :
      reachable c → reachable (Close c).

(** What holds of every reachable client. *)
Definition client_ok (c : SmartClient) : Prop :=
  1 ≤ MaxRetries (config c) ∧ Ring.reachable (ring c) ∧
  SuccessRequests (stats c) = add64 (PrimaryHits (stats c)) (FailoverCount (stats c)) ∧
  (MaxRetries (config c) ≤ Ring.slice_limit → stats_ok (stats c)).

End reach.

(** No request can be sent to [address]: there is no connection for it,
    or the connection is marked unhealthy. *)
Definition down (c : SmartClient) (address : string) : Prop :=
  ∀ sc, connections c !! address = Some sc → healthy sc = false.

(** The error of an attempt at an address that is [down]. *)
Definition refusal (c : SmartClient) (address : string) : error :=
  match connections c !! address with
  | Some _ => ErrMarkedDown address
  | None => ErrNoConnection address
  end.

(** A network that refuses every connection and every request. *)
Definition unreachable : Network :=
  {| DialContext := λ _ _, DialError "connection refused";
     PostMessage := λ _ _ _, TransportError "unavailable" |}.

(** A network on which the first attempt of a request fails in transit
    and the later ones are answered with [success=true]. *)
Definition flaky : Network :=
  {| DialContext := λ _ _, Connected 1;
     PostMessage := λ i _ _,
       if (i =? 0)%nat then TransportError "unavailable"
       else Response (mkChatResponse true "server-a" 3 1 "") |}.

Section examples2.
Context `{Ring.SliceSort}.

(** A client with two registered backends, both connected. *)
Definition client2 : SmartClient :=
  AddServer accepting "server-b" "localhost:50052" 2
    (AddServer accepting "server-a" "localhost:50051" 2
       (NewSmartClient (mkClientConfig 0 (-1) 0 0))).

(** [client2] after a request that the first successor failed and the
    second answered. *)
Definition client2_after : SmartClient :=
  match SendMessage flaky 0 "chat-1" "user-1" "hello" client2 with
  | Ok (c, _) => c
  | _ => client2
  end.


End examples2.

End Client.

(** ** Package server: the handlers *)

Module ServerRPC.

(** [int32(x)] of an [int]. *)
Definition wrap32 (x : Z) : Z := (x + 2 ^ 31) mod 2 ^ 32 - 2 ^ 31.

(** Modelled from the spec: the tier of a response is the enumeration
    UNKNOWN, L1, L2, MISS, numbered from 0 in that order (the generated
    [pb.CacheLocation] is not among the sources). *)
Definition CacheLocation_CACHE_UNKNOWN : Z := 0.
Definition CacheLocation_CACHE_L1 : Z := 1.
Definition CacheLocation_CACHE_L2 : Z := 2.
Definition CacheLocation_CACHE_MISS : Z := 3.

(** The [switch level] of [PostMessage]. *)
Definition cacheLocation (level : Cache.CacheLevel) : Z :=
  match level with
  | Cache.LevelL1 => CacheLocation_CACHE_L1
  | Cache.LevelL2 => CacheLocation_CACHE_L2
  | Cache.LevelMiss => CacheLocation_CACHE_MISS
  | _ => CacheLocation_CACHE_UNKNOWN
  end.

(** A server together with its shutdown channel: [shutdownClosed] is
    whether [shutdownCh] has been closed. *)
Record ServerState := mkServerState {
  chatServer : Server.ChatServer;
  shutdownClosed : bool;
}.

Definition set_cache (σ : Cache.State) (s : ServerState) : ServerState :=
  {| chatServer :=
       {| Server.serverID := Server.serverID (chatServer s);
          Server.address := Server.address (chatServer s);
          Server.port := Server.port (chatServer s);
          Server.cache := σ;
          Server.healthy := Server.healthy (chatServer s) |};
     shutdownClosed := shutdownClosed s |}.

(** [NewChatServer], with [shutdownCh: make(chan struct{})]. *)
Definition NewChatServer (config : Server.ServerConfig) : ServerState :=
  {| chatServer := Server.NewChatServer config; shutdownClosed := false |}.

(** [func (s *ChatServer) Stop()]: [close(s.shutdownCh)] panics when the
    channel is closed already.  The gRPC server that is stopped in
    between is not part of the state. *)
Definition Stop (s : ServerState) : result ServerState :=
  if shutdownClosed s then Panic
  else
    Ok {| chatServer :=
            {| Server.serverID := Server.serverID (chatServer s);
               Server.address := Server.address (chatServer s);
               Server.port := Server.port (chatServer s);
               Server.cache := Server.cache (chatServer s);
               Server.healthy := false |};
          shutdownClosed := true |}.

(** [func (s *ChatServer) IsHealthy() bool] *)
Definition IsHealthy (s : ServerState) : bool := Server.healthy (chatServer s).

(** [func (s *ChatServer) GetServerID() string] *)
Definition GetServerID (s : ServerState) : string := Server.serverID (chatServer s).

(** [func (s *ChatServer) PostMessage(ctx context.Context, req *pb.ChatRequest) ( *pb.ChatResponse, error)];
    the error returned is always nil, and so is the error of
    [AddMessage], whose branch is left out.  [now] is the [time.Now()] of
    the cache; [time.Unix(req.Timestamp, 0)] is the instant [req.Timestamp].
    The session returned by [AddMessage] is read through its pointer. *)
Definition PostMessage (fuel : nat) (now : Cache.Time) (req : Client.ChatRequest)
    (s : ServerState) : result (ServerState * Client.ChatResponse) :=
  if negb (Server.healthy (chatServer s)) then
    Ok (s, {| Client.Success := false;
              Client.ServerId := Server.serverID (chatServer s);
              Client.CacheLocation := 0;
              Client.MessageCount := 0;
              Client.ErrorMessage := "server is shutting down" |})
  else
    let msg := {| Cache.Content := Client.Message req;
                  Cache.SenderID := Client.SenderId req;
                  Cache.Timestamp := Client.Timestamp req |} in
    '(σ, session, level) ←
      Cache.AddMessage fuel now (Client.ChatId req) msg (Server.cache (chatServer s));
    match Cache.sessions σ !! session with
    | None => Panic
    | Some sess =>
        Ok (set_cache σ s,
            {| Client.Success := true;
               Client.ServerId := Server.serverID (chatServer s);
               Client.CacheLocation := cacheLocation level;
               Client.MessageCount := wrap32 (Cache.MessageCount sess);
               Client.ErrorMessage := "" |})
    end.

(** The states of a server: after [NewChatServer], and after every
    [PostMessage] and [Stop] that returns. *)
Inductive reachable : ServerState → Prop :=
  | reachable_new config : reachable (NewChatServer config)
  | reachable_post fuel now req s s' resp :
      reachable s → PostMessage fuel now req s = Ok (s', resp) → reachable s'
  | reachable_stop s s' :
      reachable s → Stop s = Ok s' → reachable s'.

(** The messages stored for a chat, when it is resident. *)
Definition stored (chatID : string) (σ : Cache.State) : list Cache.Message :=
  match Cache.GetSession chatID σ with
  | (Some p, _, _) => from_option Cache.Messages [] (Cache.sessions σ !! p)
  | _ => []
  end.

(** What holds of every reachable server. *)
Definition server_ok (s : ServerState) : Prop :=
  Server.healthy (chatServer s) = negb (shutdownClosed s) ∧
  ∃ cap1 cap2, 1 ≤ cap1 ∧ 1 ≤ cap2 ∧
    Cache.reachable cap1 cap2 (Server.cache (chatServer s)).

(** A server with room for two hot and three warm chats, after one
    message of the chat [chat-1]. *)
Definition server1 : ServerState :=
  match PostMessage 3 1 Client.request1
          (NewChatServer (Server.mkServerConfig "server-a" 50051 2 3)) with
  | Ok (s, _) => s
  | _ => NewChatServer (Server.mkServerConfig "server-a" 50051 2 3)
  end.

End ServerRPC.

(** * Properties *)

(** ** The ring *)

Module RingFacts.
Import Ring.

(** *** Insertion sort is a [SliceSort] *)

Lemma insert_by_hash_perm v l : insert_by_hash v l ≡ₚ v :: l.
Proof.
  induction l as [|w l IH]; simpl; [done|].
  case_match; [done|]. rewrite IH. apply Permutation_swap.
Qed.

Lemma insertion_sort_perm l : insertion_sort l ≡ₚ l.
Proof.
  induction l as [|v l IH]; simpl; [done|].
  rewrite insert_by_hash_perm. by f_equiv.
Qed.

Lemma insert_by_hash_hd v w l :
  hash_le w v → HdRel hash_le w l → HdRel hash_le w (insert_by_hash v l).
Proof.
  intros Hwv Hhd. destruct l as [|x l]; simpl; [by constructor|].
  case_match; constructor; [done|]. by inversion Hhd.
Qed.

Lemma insert_by_hash_sorted v l :
  Sorted hash_le l → Sorted hash_le (insert_by_hash v l).
Proof.
  induction 1 as [|w l Hs IH Hhd]; simpl.
  - repeat constructor.
  - case_match eqn:Hcmp.
    + apply Z.leb_le in Hcmp. repeat constructor; done.
    + apply Z.leb_gt in Hcmp. constructor; [done|].
      apply insert_by_hash_hd; [|done]. unfold hash_le. lia.
Qed.

Lemma insertion_sort_sorted l : Sorted hash_le (insertion_sort l).
Proof.
  induction l as [|v l IH]; simpl; [constructor|].
  by apply insert_by_hash_sorted.
Qed.

#[global] Instance insertion_SliceSort : SliceSort :=
  {| sort_slice := insertion_sort;
     sort_slice_perm := insertion_sort_perm;
     sort_slice_sorted := insertion_sort_sorted |}.

Section facts.
Context `{SliceSort}.
Context {alloc : Allocator}.

(** *** The binary search stays within [0, n] *)

Lemma midpoint_bounds i j : (i < j → i ≤ (i + j) / 2 < j)%nat.
Proof.
  intros Hlt. split.
  - apply Nat.div_le_lower_bound; lia.
  - apply Nat.Div0.div_lt_upper_bound; lia.
Qed.

Lemma search_loop_bounds fuel f i j :
  (i ≤ j)%nat → (i ≤ search_loop fuel f i j ≤ j)%nat.
Proof.
  revert i j. induction fuel as [|fuel IH]; intros i j Hij; cbn [search_loop]; [lia|].
  destruct (Nat.ltb_spec i j) as [Hlt|Hge]; [|lia].
  pose proof (midpoint_bounds i j Hlt) as Hh.
  destruct (f _); cbn [negb].
  - specialize (IH i ((i + j) / 2)%nat). lia.
  - specialize (IH ((i + j) / 2 + 1)%nat j). lia.
Qed.

(** More fuel than the width of the interval changes nothing: the fuel
    of [Search] never runs out. *)
Lemma search_loop_fuel fuel fuel' f i j :
  (j - i ≤ fuel)%nat → (j - i ≤ fuel')%nat →
  search_loop fuel f i j = search_loop fuel' f i j.
Proof.
  revert fuel' i j. induction fuel as [|fuel IH]; intros fuel' i j Hf Hf'.
  - destruct fuel'; cbn [search_loop]; [done|].
    destruct (Nat.ltb_spec i j); [lia|done].
  - destruct fuel' as [|fuel']; cbn [search_loop].
    + destruct (Nat.ltb_spec i j); [lia|done].
    + destruct (Nat.ltb_spec i j) as [Hlt|Hge]; [|done].
      pose proof (midpoint_bounds i j Hlt) as Hh.
      destruct (f _); cbn [negb]; apply IH; lia.
Qed.

Lemma Search_bounds n f : (Search n f ≤ n)%nat.
Proof. unfold Search. pose proof (search_loop_bounds n f 0 n). lia. Qed.

Lemma startIndex_lt key hr :
  nodes hr ≠ [] → (startIndex key hr < length (nodes hr))%nat.
Proof.
  intros Hne. unfold startIndex.
  assert (0 < length (nodes hr))%nat by (destruct (nodes hr); simpl; [done|lia]).
  destruct (Nat.leb_spec (length (nodes hr)) (Search (length (nodes hr))
    (λ i, bool_decide (hashKey key ≤ Hash (nodes hr !!! i))))); lia.
Qed.

(** *** Invariant of the reachable rings *)

Lemma newVirtualNodes_ids nodeID capacity :
  1 ≤ capacity →
  list_to_set (NodeID <$> newVirtualNodes nodeID capacity) =@{gset string} {[nodeID]}.
Proof.
  intros Hc. unfold newVirtualNodes. rewrite <-list_fmap_compose.
  apply set_eq. intros id. rewrite elem_of_list_to_set, list_elem_of_fmap.
  rewrite elem_of_singleton. split.
  - by intros (i & -> & _).
  - intros ->. exists 0. split; [done|]. apply elem_of_seqZ. lia.
Qed.

Lemma AddNode_ok nodeID capacity address hr :
  ring_ok hr → ring_ok (AddNode nodeID capacity address hr).
Proof.
  intros [Hrep Hdom]. unfold AddNode. case_match; [done|].
  split; simpl; [done|].
  rewrite dom_insert_L, Hdom.
  rewrite (list_to_set_perm_L (NodeID <$> sort_slice _)
             (NodeID <$> (nodes hr ++ newVirtualNodes nodeID
                (if capacity <? 1 then replicas hr else capacity))))
    by (by rewrite sort_slice_perm).
  rewrite fmap_app, list_to_set_app_L, newVirtualNodes_ids; [set_solver|].
  destruct (Z.ltb_spec capacity 1); lia.
Qed.

Lemma RemoveNode_ok nodeID hr : ring_ok hr → ring_ok (RemoveNode nodeID hr).
Proof.
  intros [Hrep Hdom]. unfold RemoveNode. case_match; [|done].
  split; simpl; [done|].
  rewrite dom_delete_L, Hdom. apply set_eq. intros id.
  rewrite elem_of_difference, !elem_of_list_to_set, !list_elem_of_fmap.
  rewrite elem_of_singleton. split.
  - intros [(v & -> & Hv) Hne]. exists v. split; [done|].
    by apply list_elem_of_filter.
  - intros (v & -> & [Hne Hv]%list_elem_of_filter). eauto.
Qed.

Lemma reachable_ring_ok hr : reachable hr → ring_ok hr.
Proof.
  induction 1 as [r| |].
  - split; simpl; [|set_solver]. destruct (Z.ltb_spec r 1); lia.
  - by apply AddNode_ok.
  - by apply RemoveNode_ok.
Qed.

Lemma ring_ok_count hr :
  ring_ok hr →
  GetNodeCount hr = size (list_to_set (NodeID <$> nodes hr) : gset string).
Proof. intros [_ Hdom]. unfold GetNodeCount. by rewrite <-Hdom, size_dom. Qed.

(** *** The loop of [GetNodes] *)


Lemma GetNodes_loop_spec hr s count idxs seen result :
  (∀ id, default false (seen !! id) = true ↔ id ∈ InfoNodeID <$> result) →
  NoDup (InfoNodeID <$> result) →
  Z.of_nat (length result) ≤ count →
  NoDup (InfoNodeID <$> GetNodes_loop hr s count idxs seen result) ∧
  result `prefix_of` GetNodes_loop hr s count idxs seen result ∧
  Z.of_nat (length (GetNodes_loop hr s count idxs seen result)) =
    Z.min count
      (Z.of_nat (size (list_to_set ((InfoNodeID <$> result) ++ (visit hr s <$> idxs))
                       : gset string))).
Proof.
  revert seen result. induction idxs as [|i idxs IH]; intros seen result Hseen Hnd Hlen.
  - simpl. split_and!; [done|done|].
    rewrite app_nil_r, size_list_to_set, length_fmap by done. lia.
  - cbn [GetNodes_loop]. fold (visit hr s i).
    destruct (Z.ltb_spec (Z.of_nat (length result)) count) as [Hlt|Hge].
    + destruct (default false (seen !! visit hr s i)) eqn:Hs; cbn [negb].
      * apply Hseen in Hs.
        destruct (IH seen result) as (IH1 & IH2 & IH3); [done..|].
        split_and!; [done|done|]. rewrite IH3. do 3 f_equal.
        rewrite fmap_cons. set_solver.
      * assert (visit hr s i ∉ InfoNodeID <$> result) as Hnew.
        { intros Hin%Hseen. congruence. }
        edestruct (IH (<[visit hr s i := true]> seen)) as (IH1 & IH2 & IH3);
          [| | |split_and!; [exact IH1| |rewrite IH3]].
        -- intros id. rewrite fmap_app, elem_of_app, <-Hseen. simpl.
           rewrite list_elem_of_singleton.
           destruct (decide (visit hr s i = id)) as [<-|Hne].
           ++ rewrite lookup_insert_eq. naive_solver.
           ++ rewrite lookup_insert_ne by done. naive_solver.
        -- rewrite fmap_app. simpl. apply NoDup_app. split_and!; [done| |].
           ++ intros id Hid ->%list_elem_of_singleton. done.
           ++ apply NoDup_singleton.
        -- rewrite length_app. simpl. lia.
        -- etrans; [|exact IH2]. by apply prefix_app_r.
        -- do 3 f_equal. rewrite fmap_app, fmap_cons. simpl. set_solver.
    + split_and!; [done|done|].
      assert (length result ≤ size (list_to_set ((InfoNodeID <$> result) ++
                (visit hr s <$> i :: idxs)) : gset string))%nat.
      { rewrite <-(length_fmap InfoNodeID), <-(size_list_to_set (C:=gset string)) by done.
        apply subseteq_size. set_solver. }
      lia.
Qed.


(** C9.  Adding a node id that is present, with whatever weight and
    address, leaves the ring as it is, so that a second [AddNode] of an id
    leaves the ring in the state after the first; removing a node id
    that is absent leaves the ring as it is, so that a second
    [RemoveNode] is a no-op. *)
Theorem AddNode_RemoveNode_idempotent nodeID w a w' a' hr :
  (is_Some (nodeCapacity hr !! nodeID) → AddNode nodeID w' a' hr = hr) ∧
  AddNode nodeID w' a' (AddNode nodeID w a hr) = AddNode nodeID w a hr ∧
  (nodeCapacity hr !! nodeID = None → RemoveNode nodeID hr = hr) ∧
  RemoveNode nodeID (RemoveNode nodeID hr) = RemoveNode nodeID hr.
Proof.
  assert (∀ w a hr, is_Some (nodeCapacity hr !! nodeID) →
            AddNode nodeID w a hr = hr) as Hadd.
  { intros ??? [c Hc]. unfold AddNode. by rewrite Hc. }
  assert (∀ hr, nodeCapacity hr !! nodeID = None → RemoveNode nodeID hr = hr)
    as Hrem.
  { intros ? Hc. unfold RemoveNode. by rewrite Hc. }
  split_and!.
  - apply Hadd.
  - apply Hadd. unfold AddNode. destruct (nodeCapacity hr !! nodeID) eqn:Hc.
    + by rewrite Hc.
    + simpl. by rewrite lookup_insert_eq.
  - apply Hrem.
  - apply Hrem. unfold RemoveNode. destruct (nodeCapacity hr !! nodeID) eqn:Hc.
    + simpl. by rewrite lookup_delete_eq.
    + done.
Qed.

End facts.

Lemma ring3_reachable : reachable ring3.
Proof. repeat constructor. Qed.



Lemma AddNode_RemoveNode_idempotent_witness :
  AddNode "server-a" 7 "elsewhere:1" ring3 = ring3 ∧
  RemoveNode "server-z" ring3 = ring3.
Proof.
  destruct (AddNode_RemoveNode_idempotent "server-a" 10 "localhost:50051"
              7 "elsewhere:1" ring3) as (Hadd & _ & _ & _).
  destruct (AddNode_RemoveNode_idempotent "server-z" 10 "localhost:50051"
              7 "elsewhere:1" ring3) as (_ & _ & Hrem & _).
  split.
  - apply Hadd. vm_compute. eauto.
  - apply Hrem. vm_compute. reflexivity.
Defined.

End RingFacts.

(** ** Machine arithmetic *)

Lemma wrap64_idemp_l x y : wrap64 (wrap64 x + y) = wrap64 (x + y).
Proof.
  unfold wrap64. f_equal.
  replace ((x + 2 ^ 63) mod 2 ^ 64 - 2 ^ 63 + y + 2 ^ 63)
    with ((x + 2 ^ 63) mod 2 ^ 64 + y) by lia.
  rewrite Zplus_mod_idemp_l. f_equal. lia.
Qed.

Lemma wrap64_idemp_r x y : wrap64 (x + wrap64 y) = wrap64 (x + y).
Proof. rewrite (Z.add_comm x), wrap64_idemp_l. f_equal. lia. Qed.

Lemma wrap64_small x : - 2 ^ 63 ≤ x < 2 ^ 63 → wrap64 x = x.
Proof. intros Hx. unfold wrap64. rewrite Z.mod_small; lia. Qed.

Lemma wrap64_range x : - 2 ^ 63 ≤ wrap64 x < 2 ^ 63.
Proof.
  unfold wrap64. pose proof (Z.mod_pos_bound (x + 2 ^ 63) (2 ^ 64)). lia.
Qed.

Lemma incr64_add64_l x y : add64 (incr64 x) y = incr64 (add64 x y).
Proof.
  unfold incr64, add64. rewrite !wrap64_idemp_l. f_equal. lia.
Qed.

Lemma incr64_add64_r x y : add64 x (incr64 y) = incr64 (add64 x y).
Proof.
  unfold incr64, add64. rewrite wrap64_idemp_l, wrap64_idemp_r. f_equal. lia.
Qed.

Lemma incr64_small x : - 2 ^ 63 ≤ x < 2 ^ 63 - 1 → incr64 x = x + 1.
Proof. intros Hx. unfold incr64, add64. apply wrap64_small. lia. Qed.

(** ** The cache *)

Module CacheFacts.
Import Cache.

(** *** Lists of elements *)

Lemma NoDup_fmap_eq {A B} (f : A → B) (l : list A) x y :
  NoDup (f <$> l) → x ∈ l → y ∈ l → f x = f y → x = y.
Proof.
  induction l as [|z l IH]; simpl; [by intros _ ?%elem_of_nil|].
  intros [Hz Hnd]%NoDup_cons [->|Hx]%elem_of_cons [->|Hy]%elem_of_cons Hf.
  - done.
  - destruct Hz. rewrite Hf. by apply list_elem_of_fmap_2.
  - destruct Hz. rewrite <-Hf. by apply list_elem_of_fmap_2.
  - by apply IH.
Qed.

Lemma NoDup_fmap_Remove {B} (f : Element → B) e l :
  NoDup (f <$> l) → NoDup (f <$> Remove e l).
Proof.
  intros Hnd. eapply sublist_NoDup; [done|].
  apply fmap_sublist, sublist_filter.
Qed.

Lemma Remove_notin e l : e ∉ eid <$> l → Remove e l = l.
Proof.
  unfold Remove. induction l as [|x l IH]; simpl; [done|].
  intros [Hx Hl]%not_elem_of_cons.
  rewrite filter_cons_True by done. f_equal. by apply IH.
Qed.

Lemma Remove_elem_of e l x : x ∈ Remove e l ↔ eid x ≠ e ∧ x ∈ l.
Proof. unfold Remove. apply (list_elem_of_filter (λ x, eid x ≠ e)). Qed.

Lemma Remove_perm l x :
  NoDup (eid <$> l) → x ∈ l → x :: Remove (eid x) l ≡ₚ l.
Proof.
  induction l as [|y l IH]; simpl; [by intros _ ?%elem_of_nil|].
  intros [Hy Hnd]%NoDup_cons [->|Hx]%elem_of_cons.
  - unfold Remove. rewrite filter_cons_False by naive_solver.
    fold (Remove (eid y) l). by rewrite Remove_notin.
  - assert (eid y ≠ eid x) as Hne.
    { intros Heq. apply Hy. rewrite Heq. by apply list_elem_of_fmap_2. }
    unfold Remove. rewrite filter_cons_True by done.
    fold (Remove (eid x) l). rewrite Permutation_swap. f_equiv. by apply IH.
Qed.

Lemma Remove_length l x :
  NoDup (eid <$> l) → x ∈ l → length l = S (length (Remove (eid x) l)).
Proof. intros Hnd Hx. by rewrite <-(Remove_perm l x) at 1. Qed.

Lemma MoveToFront_perm e l : NoDup (eid <$> l) → MoveToFront e l ≡ₚ l.
Proof.
  intros Hnd. unfold MoveToFront.
  destruct (list_find _ l) as [[i x]|] eqn:Hfind; [|done].
  apply list_find_Some in Hfind as (Hi & <- & _).
  apply Remove_perm; [done|]. by eapply list_elem_of_lookup_2.
Qed.

(** *** Consistency of a tier *)

Lemma tier_ok_perm m l l' : l ≡ₚ l' → tier_ok m l → tier_ok m l'.
Proof.
  intros Hp (Hn1 & Hn2 & Hm). split_and!.
  - by rewrite <-Hp.
  - by rewrite <-Hp.
  - intros k e. by rewrite <-Hp.
Qed.

Lemma tier_ok_dom m l : tier_ok m l → dom m = list_to_set (Value <$> l).
Proof.
  intros (_ & _ & Hm). apply set_eq. intros k.
  rewrite elem_of_dom, elem_of_list_to_set, list_elem_of_fmap. split.
  - intros [[s e] Hk]. exists {| eid := e; Value := k |}. split; [done|].
    apply Hm. eauto.
  - intros ([e k'] & -> & Hx). apply Hm in Hx as [s Hs]. eauto.
Qed.

Lemma tier_ok_size m l : tier_ok m l → size m = length l.
Proof.
  intros Hok. rewrite <-size_dom, (tier_ok_dom m l Hok).
  destruct Hok as (_ & Hnd & _).
  by rewrite size_list_to_set, length_fmap.
Qed.

Lemma tier_ok_len m l : tier_ok m l → len m = Z.of_nat (length l).
Proof. intros Hok. unfold len. by rewrite (tier_ok_size m l). Qed.

Lemma tier_ok_empty : tier_ok ∅ [].
Proof.
  split_and!; [constructor..|]. intros k e. split.
  - intros [s Hs]. by rewrite lookup_empty in Hs.
  - by intros ?%elem_of_nil.
Qed.

Lemma tier_ok_back m l back :
  tier_ok m l → Back l = Some back →
  ∃ s, m !! Value back = Some {| session := s; element := eid back |}.
Proof.
  intros (_ & _ & Hm) Hlast. apply Hm. destruct back as [e k]. simpl.
  unfold Back in Hlast. apply last_Some in Hlast as [l' ->].
  apply elem_of_app. right. by apply list_elem_of_singleton.
Qed.

Lemma tier_ok_remove m l k s e :
  tier_ok m l → m !! k = Some {| session := s; element := e |} →
  tier_ok (delete k m) (Remove e l).
Proof.
  intros (Hn1 & Hn2 & Hm) Hk.
  assert ({| eid := e; Value := k |} ∈ l) as Hin by (apply Hm; eauto).
  split_and!.
  - by apply NoDup_fmap_Remove.
  - by apply NoDup_fmap_Remove.
  - intros k' e'. rewrite Remove_elem_of. simpl. split.
    + intros [s' Hs']. apply lookup_delete_Some in Hs' as [Hne Hs'].
      assert ({| eid := e'; Value := k' |} ∈ l) as Hin' by (apply Hm; eauto).
      split; [|done]. intros ->.
      pose proof (NoDup_fmap_eq eid l _ _ Hn1 Hin Hin' eq_refl). congruence.
    + intros [Hne Hin']. apply Hm in Hin' as Hs'. destruct Hs' as [s' Hs'].
      exists s'. rewrite lookup_delete_ne; [done|]. intros ->.
      pose proof (NoDup_fmap_eq Value l _ _ Hn2 Hin Hin' eq_refl). congruence.
Qed.

Lemma tier_ok_push m l k s e :
  tier_ok m l → m !! k = None → e ∉ eid <$> l →
  tier_ok (<[k := {| session := s; element := e |}]> m)
          ({| eid := e; Value := k |} :: l).
Proof.
  intros (Hn1 & Hn2 & Hm) Hk He.
  assert (k ∉ Value <$> l) as Hkl.
  { intros ([e' k'] & Heq & Hin)%list_elem_of_fmap. simpl in Heq. subst k'.
    apply Hm in Hin as [s' Hs']. congruence. }
  split_and!.
  - simpl. by constructor.
  - simpl. by constructor.
  - intros k' e'. rewrite elem_of_cons. destruct (decide (k = k')) as [<-|Hne].
    + rewrite lookup_insert_eq. split.
      * intros [s' [= -> ->]]. by left.
      * intros [[= -> ]|Hin]; [eauto|].
        destruct Hkl. by apply (list_elem_of_fmap_2 Value) in Hin.
    + rewrite lookup_insert_ne by done. rewrite Hm. split; [by right|].
      intros [[= -> ->]|Hin]; done.
Qed.

Lemma tier_ok_move_front m l e :
  tier_ok m l → tier_ok m (MoveToFront e l).
Proof.
  intros Hok. eapply tier_ok_perm; [|done].
  symmetry. apply MoveToFront_perm. by destruct Hok.
Qed.

(** *** The moves between the tiers keep the cache consistent *)

Lemma evolves_refl c : evolves c c.
Proof. unfold evolves, same_requests. by split_and!. Qed.

Lemma evolves_trans c1 c2 c3 : evolves c1 c2 → evolves c2 c3 → evolves c1 c3.
Proof.
  intros (?&?&?&(?&?&?&?&?)&?) (?&?&?&(?&?&?&?&?)&?).
  repeat split; try congruence; naive_solver.
Qed.

Lemma cache_ok_mono (P Q : nat → Prop) c :
  (∀ p, P p → Q p) → cache_ok P c → cache_ok Q c.
Proof.
  intros HPQ (?&?&?&?&?&Hin). split_and!; try done.
  intros k e He. by eapply HPQ, Hin.
Qed.

Lemma newElement_fresh1 c : newElement c ∉ eid <$> l1List c.
Proof.
  intros Hin. apply (is_fresh (list_to_set (eid <$> (l1List c ++ l2List c)) : gset nat)).
  fold (newElement c). rewrite elem_of_list_to_set, fmap_app, elem_of_app. by left.
Qed.

Lemma newElement_fresh2 c : newElement c ∉ eid <$> l2List c.
Proof.
  intros Hin. apply (is_fresh (list_to_set (eid <$> (l1List c ++ l2List c)) : gset nat)).
  fold (newElement c). rewrite elem_of_list_to_set, fmap_app, elem_of_app. by right.
Qed.

Section moves.
Context (P : nat → Prop).

Lemma evictFromL2_ok c :
  cache_ok P c →
  cache_ok P (evictFromL2 c) ∧ evolves c (evictFromL2 c) ∧
  l1Cache (evictFromL2 c) = l1Cache c ∧ l1List (evictFromL2 c) = l1List c ∧
  (l2List c ≠ [] → len (l2Cache (evictFromL2 c)) = len (l2Cache c) - 1).
Proof.
  intros Hok. pose proof Hok as (H1 & H2 & Hd & Hl1 & Hl2 & Hin).
  unfold evictFromL2.
  destruct (Back (l2List c)) as [back|] eqn:Hback.
  - destruct (tier_ok_back _ _ _ H2 Hback) as [s Hs].
    assert (len (delete (Value back) (l2Cache c)) = len (l2Cache c) - 1) as Hlen.
    { unfold len. rewrite map_size_delete_Some by eauto.
      assert (size (l2Cache c) ≠ 0)%nat; [|lia].
      intros Hz%map_size_empty_iff. by rewrite Hz, lookup_empty in Hs. }
    unfold cache_ok, evolves, same_requests, tiers_disjoint, entries_in, absent in *.
    simpl. split_and!; try done.
    + by eapply tier_ok_remove.
    + intros k Hk1 [e He]. apply lookup_delete_Some in He as [_ He].
      eapply Hd; eauto.
    + lia.
    + intros k e [He|He]; [by eapply Hin; left|].
      apply lookup_delete_Some in He as [_ He]. eapply Hin; eauto.
    + intros id [? ?]. split; [done|]. rewrite lookup_delete_None. by right.
  - split_and!; [done|apply evolves_refl|done|done|].
    intros Hne. apply last_is_Some in Hne. unfold Back in Hback.
    rewrite Hback in Hne. by destruct Hne.
Qed.

Lemma evictLoop_ok fuel c c' :
  cache_ok P c → evictLoop fuel c = Ok c' →
  cache_ok P c' ∧ evolves c c' ∧
  l1Cache c' = l1Cache c ∧ l1List c' = l1List c ∧
  len (l2Cache c') < l2Capacity c'.
Proof.
  revert c. induction fuel as [|fuel IH]; intros c Hok; simpl; [done|].
  destruct (Z.leb_spec (l2Capacity c) (len (l2Cache c))) as [Hfull|Hfree].
  - intros Hrun. destruct (evictFromL2_ok c Hok) as (Hok1 & Hev1 & Hm & Hl & _).
    destruct (IH _ Hok1 Hrun) as (? & ? & ? & ? & ?).
    split_and!; [done| |congruence|congruence|done].
    by eapply evolves_trans.
  - intros [= <-]. split_and!; [done|apply evolves_refl|done..].
Qed.

Lemma evictLoop_exit fuel c :
  len (l2Cache c) < l2Capacity c → evictLoop (S fuel) c = Ok c.
Proof.
  intros Hfree. simpl.
  by destruct (Z.leb_spec (l2Capacity c) (len (l2Cache c))); [lia|].
Qed.

Lemma evictLoop_free fuel c c' :
  len (l2Cache c) < l2Capacity c → evictLoop fuel c = Ok c' → c' = c.
Proof.
  intros Hfree. destruct fuel; [done|]. rewrite evictLoop_exit by done. congruence.
Qed.

Lemma addToL2_ok fuel id s c c' :
  cache_ok P c → absent id c → P s → addToL2 fuel id s c = Ok c' →
  cache_ok P c' ∧
  l1Cache c' = l1Cache c ∧ l1List c' = l1List c ∧
  l1Capacity c' = l1Capacity c ∧ l2Capacity c' = l2Capacity c ∧
  serverID c' = serverID c ∧ same_requests (stats c) (stats c') ∧
  (∀ id', id' ≠ id → absent id' c → absent id' c').
Proof.
  intros Hok Habs HP. unfold addToL2.
  destruct (evictLoop fuel c) as [c1| |] eqn:Hloop; simpl; [|done..].
  intros [= <-].
  destruct (evictLoop_ok _ _ _ Hok Hloop)
    as ((H1 & H2 & Hd & Hl1 & Hl2 & Hin) & (?&?&?&?&Hkeep) & Hm & Hl & Hfree).
  destruct (Hkeep _ Habs) as [Ha1 Ha2].
  unfold cache_ok, tiers_disjoint, entries_in, absent in *.
  simpl. split_and!; try done; try congruence.
  - apply tier_ok_push; [done..|]. apply newElement_fresh2.
  - intros k Hk1 [e He]. destruct (decide (id = k)) as [<-|Hne].
    + rewrite Ha1 in Hk1. by destruct Hk1.
    + rewrite lookup_insert_ne in He by done. eapply Hd; eauto.
  - unfold len in *. rewrite map_size_insert_None by done. lia.
  - intros k e [He|He]; [by eapply Hin; left|].
    destruct (decide (id = k)) as [<-|Hne].
    + rewrite lookup_insert_eq in He. by injection He as <-.
    + rewrite lookup_insert_ne in He by done. eapply Hin; eauto.
  - intros id' Hne Habs'. destruct (Hkeep _ Habs') as [??].
    split; [done|]. by rewrite lookup_insert_ne.
Qed.

(** The state in the middle of [demoteFromL1]: the back of L1 is out of
    L1 and not yet in L2. *)
Lemma demote_removed_ok c back s :
  cache_ok P c → Back (l1List c) = Some back →
  l1Cache c !! Value back = Some {| session := s; element := eid back |} →
  let c1 := set_stats (incrDemotions (stats c))
              (set_l1 (delete (Value back) (l1Cache c))
                      (Remove (eid back) (l1List c)) c) in
  cache_ok P c1 ∧ absent (Value back) c1 ∧ P s ∧
  len (l1Cache c1) = len (l1Cache c) - 1 ∧
  (∀ id, absent id c → absent id c1).
Proof.
  intros (H1 & H2 & Hd & Hl1 & Hl2 & Hin) Hback Hs.
  assert (len (delete (Value back) (l1Cache c)) = len (l1Cache c) - 1) as Hlen.
  { unfold len. rewrite map_size_delete_Some by eauto.
    assert (size (l1Cache c) ≠ 0)%nat; [|lia].
    intros Hz%map_size_empty_iff. by rewrite Hz, lookup_empty in Hs. }
  unfold cache_ok, tiers_disjoint, entries_in, absent in *.
  simpl. split_and!; try done.
  - by eapply tier_ok_remove.
  - intros k [e He] Hk2. apply lookup_delete_Some in He as [_ He].
    eapply Hd; eauto.
  - lia.
  - intros k e [He|He]; [|by eapply Hin; right].
    apply lookup_delete_Some in He as [_ He]. eapply Hin; eauto.
  - apply lookup_delete_eq.
  - destruct (l2Cache c !! Value back) eqn:Hk2; [|done].
    destruct (Hd (Value back)); eauto.
  - by apply (Hin (Value back) {| session := s; element := eid back |}); left.
  - intros id [? ?]. split; [|done]. rewrite lookup_delete_None. by right.
Qed.

Lemma demoteFromL1_ok fuel c c' :
  cache_ok P c → demoteFromL1 fuel c = Ok c' →
  cache_ok P c' ∧ evolves c c' ∧
  (l1List c ≠ [] → len (l1Cache c') = len (l1Cache c) - 1).
Proof.
  intros Hok. unfold demoteFromL1.
  destruct (Back (l1List c)) as [back|] eqn:Hback.
  - pose proof Hok as (H1 & _).
    destruct (tier_ok_back _ _ _ H1 Hback) as [s Hs]. rewrite Hs.
    destruct (demote_removed_ok c back s Hok Hback Hs)
      as (Hok1 & Habs1 & HP & Hlen1 & Hkeep1).
    intros Hadd.
    destruct (addToL2_ok _ _ _ _ _ Hok1 Habs1 HP Hadd)
      as (Hok' & Hm & Hl & Hc1 & Hc2 & Hsid & Hreq & Hkeep).
    split_and!; [done| |].
    + unfold evolves. split_and!; [done..|].
      intros id Hid. apply Hkeep; [|by apply Hkeep1].
      intros ->. destruct Hid as [Hid _]. congruence.
    + intros _. by rewrite Hm.
  - intros [= <-]. split_and!; [done|apply evolves_refl|].
    intros Hne%last_is_Some. unfold Back in Hback. rewrite Hback in Hne.
    by destruct Hne.
Qed.

Lemma demoteLoop_ok fuel c c' :
  cache_ok P c → demoteLoop fuel c = Ok c' →
  cache_ok P c' ∧ evolves c c' ∧ len (l1Cache c') < l1Capacity c'.
Proof.
  revert c. induction fuel as [|fuel IH]; intros c Hok; simpl; [done|].
  destruct (Z.leb_spec (l1Capacity c) (len (l1Cache c))) as [Hfull|Hfree].
  - destruct (demoteFromL1 fuel c) as [c1| |] eqn:Hdem; simpl; [|done..].
    intros Hrun. destruct (demoteFromL1_ok _ _ _ Hok Hdem) as (Hok1 & Hev1 & _).
    destruct (IH _ Hok1 Hrun) as (? & ? & ?).
    split_and!; [done| |done]. by eapply evolves_trans.
  - intros [= <-]. split_and!; [done|apply evolves_refl|done].
Qed.

Lemma addToL1_ok fuel id s c c' :
  cache_ok P c → absent id c → P s → addToL1 fuel id s c = Ok c' →
  cache_ok P c' ∧
  l1Capacity c' = l1Capacity c ∧ l2Capacity c' = l2Capacity c ∧
  serverID c' = serverID c ∧ same_requests (stats c) (stats c') ∧
  (∃ e, l1Cache c' !! id = Some {| session := s; element := e |} ∧
        head (l1List c') = Some {| eid := e; Value := id |}).
Proof.
  intros Hok Habs HP. unfold addToL1.
  destruct (demoteLoop fuel c) as [c1| |] eqn:Hloop; simpl; [|done..].
  intros [= <-].
  destruct (demoteLoop_ok _ _ _ Hok Hloop)
    as ((H1 & H2 & Hd & Hl1 & Hl2 & Hin) & (?&?&?&?&Hkeep) & Hfree).
  destruct (Hkeep _ Habs) as [Ha1 Ha2].
  unfold cache_ok, tiers_disjoint, entries_in, absent in *.
  simpl. split_and!; try done; try congruence.
  - apply tier_ok_push; [done..|]. apply newElement_fresh1.
  - intros k [e He] Hk2. destruct (decide (id = k)) as [<-|Hne].
    + rewrite Ha2 in Hk2. by destruct Hk2.
    + rewrite lookup_insert_ne in He by done. eapply Hd; eauto.
  - unfold len in *. rewrite map_size_insert_None by done. lia.
  - intros k e [He|He]; [|by eapply Hin; right].
    destruct (decide (id = k)) as [<-|Hne].
    + rewrite lookup_insert_eq in He. by injection He as <-.
    + rewrite lookup_insert_ne in He by done. eapply Hin; eauto.
  - eexists. by rewrite lookup_insert_eq.
Qed.

(** The state in the middle of [promoteToL1]. *)
Lemma promote_removed_ok id entry c :
  cache_ok P c → l2Cache c !! id = Some entry →
  let c1 := set_l2 (delete id (l2Cache c)) (Remove (element entry) (l2List c)) c in
  cache_ok P c1 ∧ absent id c1 ∧ P (session entry) ∧
  len (l2Cache c1) = len (l2Cache c) - 1.
Proof.
  intros (H1 & H2 & Hd & Hl1 & Hl2 & Hin) Hs.
  assert (len (delete id (l2Cache c)) = len (l2Cache c) - 1) as Hlen.
  { unfold len. rewrite map_size_delete_Some by eauto.
    assert (size (l2Cache c) ≠ 0)%nat; [|lia].
    intros Hz%map_size_empty_iff. by rewrite Hz, lookup_empty in Hs. }
  unfold cache_ok, tiers_disjoint, entries_in, absent in *.
  simpl. split_and!; try done.
  - destruct entry as [s e]. by eapply tier_ok_remove.
  - intros k Hk1 [e He]. apply lookup_delete_Some in He as [_ He].
    eapply Hd; eauto.
  - lia.
  - intros k e [He|He]; [by eapply Hin; left|].
    apply lookup_delete_Some in He as [_ He]. eapply Hin; eauto.
  - destruct (l1Cache c !! id) eqn:Hk1; [|done].
    destruct (Hd id); eauto.
  - apply lookup_delete_eq.
  - eapply Hin; eauto.
Qed.

Lemma promoteToL1_ok fuel id entry c c' :
  cache_ok P c → l2Cache c !! id = Some entry →
  promoteToL1 fuel id entry c = Ok c' →
  cache_ok P c' ∧
  l1Capacity c' = l1Capacity c ∧ l2Capacity c' = l2Capacity c ∧
  serverID c' = serverID c ∧ same_requests (stats c) (stats c').
Proof.
  intros Hok Hs Hrun. unfold promoteToL1 in Hrun.
  destruct (promote_removed_ok id entry c Hok Hs) as (Hok1 & Habs1 & HP & _).
  destruct (addToL1_ok _ _ _ _ _ Hok1 Habs1 HP Hrun) as (?&?&?&?&?&_).
  done.
Qed.

End moves.

(** *** Termination and divergence of the loops *)

Section loops.
Context (P : nat → Prop).

Lemma tier_nonempty m l : tier_ok m l → 1 ≤ len m → l ≠ [].
Proof.
  intros Hok Hlen ->. rewrite (tier_ok_len _ _ Hok) in Hlen. simpl in Hlen. lia.
Qed.

Lemma evictLoop_S fuel c :
  evictLoop (S fuel) c =
  if l2Capacity c <=? len (l2Cache c) then evictLoop fuel (evictFromL2 c) else Ok c.
Proof. done. Qed.

Lemma demoteLoop_S fuel c :
  demoteLoop (S fuel) c =
  if l1Capacity c <=? len (l1Cache c)
  then c ← demoteFromL1 fuel c; demoteLoop fuel c else Ok c.
Proof. done. Qed.

Lemma evictLoop_terminates fuel c :
  cache_ok P c → 1 ≤ l2Capacity c → (2 ≤ fuel)%nat →
  ∃ c', evictLoop fuel c = Ok c'.
Proof.
  intros Hok Hcap Hfuel. destruct fuel as [|[|fuel]]; [lia..|].
  rewrite evictLoop_S.
  destruct (Z.leb_spec (l2Capacity c) (len (l2Cache c))) as [Hfull|Hfree]; [|eauto].
  pose proof Hok as (_ & H2 & _ & _ & Hl2 & _).
  destruct (evictFromL2_ok P c Hok) as (_ & (_ & Hc2 & _) & _ & _ & Hlen).
  rewrite evictLoop_exit; [eauto|].
  rewrite Hc2, Hlen; [lia|]. eapply tier_nonempty; [done|lia].
Qed.

Lemma demoteFromL1_terminates fuel c :
  cache_ok P c → 1 ≤ l2Capacity c → (2 ≤ fuel)%nat →
  ∃ c', demoteFromL1 fuel c = Ok c'.
Proof.
  intros Hok Hcap Hfuel. unfold demoteFromL1.
  destruct (Back (l1List c)) as [back|] eqn:Hback; [|eauto].
  pose proof Hok as (H1 & _).
  destruct (tier_ok_back _ _ _ H1 Hback) as [s Hs]. rewrite Hs.
  destruct (demote_removed_ok P c back s Hok Hback Hs) as (Hok1 & _).
  unfold addToL2.
  edestruct (evictLoop_terminates fuel) as [c2 ->]; [exact Hok1|done|done|].
  simpl. eauto.
Qed.

Lemma demoteLoop_terminates fuel c :
  cache_ok P c → 1 ≤ l1Capacity c → 1 ≤ l2Capacity c → (3 ≤ fuel)%nat →
  ∃ c', demoteLoop fuel c = Ok c'.
Proof.
  intros Hok Hcap1 Hcap2 Hfuel. destruct fuel as [|[|[|fuel]]]; [lia..|].
  rewrite demoteLoop_S.
  destruct (Z.leb_spec (l1Capacity c) (len (l1Cache c))) as [Hfull|Hfree]; [|eauto].
  destruct (demoteFromL1_terminates (S (S fuel)) c) as [c1 Hdem]; [done|done|lia|].
  rewrite Hdem. cbn [mbind result_bind]. rewrite demoteLoop_S.
  pose proof Hok as (H1 & _ & _ & Hl1 & _).
  destruct (demoteFromL1_ok P _ _ _ Hok Hdem) as (_ & (Hc1 & _) & Hlen).
  destruct (Z.leb_spec (l1Capacity c1) (len (l1Cache c1))) as [Hfull1|Hfree1]; [|eauto].
  rewrite Hc1, Hlen in Hfull1; [lia|]. eapply tier_nonempty; [done|lia].
Qed.

Lemma addToL1_terminates fuel id s c :
  cache_ok P c → 1 ≤ l1Capacity c → 1 ≤ l2Capacity c → (3 ≤ fuel)%nat →
  ∃ c', addToL1 fuel id s c = Ok c'.
Proof.
  intros Hok Hcap1 Hcap2 Hfuel. unfold addToL1.
  destruct (demoteLoop_terminates fuel c) as [c1 ->]; [done..|].
  simpl. eauto.
Qed.

Lemma evictLoop_diverges fuel c :
  l2List c = [] → l2Capacity c ≤ len (l2Cache c) → evictLoop fuel c = OutOfFuel.
Proof.
  intros Hl Hcap. induction fuel as [|fuel IH]; simpl; [done|].
  destruct (Z.leb_spec (l2Capacity c) (len (l2Cache c))); [|lia].
  unfold evictFromL2. by rewrite Hl.
Qed.

Lemma demoteLoop_diverges_empty fuel c :
  l1List c = [] → l1Capacity c ≤ len (l1Cache c) → demoteLoop fuel c = OutOfFuel.
Proof.
  intros Hl Hcap. induction fuel as [|fuel IH]; simpl; [done|].
  destruct (Z.leb_spec (l1Capacity c) (len (l1Cache c))); [|lia].
  unfold demoteFromL1. by rewrite Hl.
Qed.

Lemma demoteLoop_diverges_full fuel c :
  cache_ok P c → l2Capacity c ≤ 0 →
  1 ≤ l1Capacity c → l1Capacity c ≤ len (l1Cache c) →
  demoteLoop fuel c = OutOfFuel.
Proof.
  intros Hok Hcap2 Hcap1 Hfull. destruct fuel as [|fuel]; simpl; [done|].
  destruct (Z.leb_spec (l1Capacity c) (len (l1Cache c))); [|lia].
  pose proof Hok as (H1 & H2 & _ & _ & Hl2 & _).
  assert (l1List c ≠ []) as Hne by (eapply tier_nonempty; [done|lia]).
  apply last_is_Some in Hne as [back Hback].
  unfold demoteFromL1, Back. rewrite Hback.
  destruct (tier_ok_back _ _ _ H1 Hback) as [s Hs]. rewrite Hs.
  unfold addToL2. rewrite evictLoop_diverges; [done| |].
  - simpl. destruct (l2List c) as [|x l] eqn:Hl; [done|].
    rewrite (tier_ok_len _ _ H2) in Hl2. rewrite ?Hl in Hl2. simpl in Hl2. lia.
  - simpl. unfold len. lia.
Qed.

End loops.

Lemma GetOrCreate_terminates fuel now id σ :
  state_ok σ → 1 ≤ l1Capacity (cache σ) → 1 ≤ l2Capacity (cache σ) →
  (3 ≤ fuel)%nat → ∃ r, GetOrCreate fuel now id σ = Ok r.
Proof.
  intros (Hok & _) Hcap1 Hcap2 Hfuel. unfold GetOrCreate.
  set (c0 := set_stats (incrTotalRequests (stats (cache σ))) (cache σ)).
  change (l1Cache c0) with (l1Cache (cache σ)).
  change (l2Cache c0) with (l2Cache (cache σ)).
  destruct (l1Cache (cache σ) !! id) as [entry|] eqn:H1; [eauto|].
  destruct (l2Cache (cache σ) !! id) as [entry|] eqn:H2.
  - set (c1 := set_stats (incrL2Hit (stats c0)) c0).
    assert (cache_ok (λ p, is_Some (sessions σ !! p)) c1) as Hok1 by exact Hok.
    destruct (promote_removed_ok _ id entry c1 Hok1 H2) as (Hokr & _).
    unfold promoteToL1.
    edestruct (addToL1_terminates (λ p, is_Some (sessions σ !! p)) fuel id
                 (session entry)) as [c2 ->];
      [exact Hokr|done..|].
    simpl. eauto.
  - set (c1 := set_stats (incrCacheMisses (stats c0)) c0).
    assert (cache_ok (λ p, is_Some (sessions σ !! p)) c1) as Hok1 by exact Hok.
    edestruct (addToL1_terminates (λ p, is_Some (sessions σ !! p)) fuel id
                 (fresh (dom (sessions σ)))) as [c2 ->];
      [exact Hok1|done..|].
    simpl. eauto.
Qed.

Lemma AddMessage_terminates fuel now id msg σ :
  state_ok σ → 1 ≤ l1Capacity (cache σ) → 1 ≤ l2Capacity (cache σ) →
  (3 ≤ fuel)%nat → ∃ r, AddMessage fuel now id msg σ = Ok r.
Proof.
  intros Hok Hcap1 Hcap2 Hfuel. unfold AddMessage.
  destruct (GetOrCreate_terminates fuel now id σ) as [[[σ1 p] lvl] ->]; [done..|].
  simpl. eauto.
Qed.

Lemma exec_terminates fuel o σ :
  state_ok σ → 1 ≤ l1Capacity (cache σ) → 1 ≤ l2Capacity (cache σ) →
  (3 ≤ fuel)%nat → ∃ σ', exec fuel o σ = Ok σ'.
Proof.
  intros Hok Hcap1 Hcap2 Hfuel. destruct o as [now id|now id msg|id|]; simpl.
  - destruct (GetOrCreate_terminates fuel now id σ) as [[[σ1 p] lvl] ->]; [done..|].
    simpl. eauto.
  - destruct (AddMessage_terminates fuel now id msg σ) as [[[σ1 p] lvl] ->]; [done..|].
    simpl. eauto.
  - eauto.
  - eauto.
Qed.

(** With no room in L1 at all, every [GetOrCreate] spins in the loop of
    [addToL1]. *)
Lemma GetOrCreate_diverges_cap1 fuel now id σ :
  state_ok σ → l1Capacity (cache σ) ≤ 0 →
  GetOrCreate fuel now id σ = OutOfFuel.
Proof.
  intros (Hok & _) Hcap1.
  pose proof Hok as (H1 & _ & _ & Hl1 & _).
  assert (l1List (cache σ) = []) as Hl.
  { destruct (l1List (cache σ)) as [|x l] eqn:Hl; [done|].
    rewrite (tier_ok_len _ _ H1) in Hl1. rewrite ?Hl in Hl1. simpl in Hl1. lia. }
  assert (l1Cache (cache σ) !! id = None) as Hid.
  { destruct (l1Cache (cache σ) !! id) as [[s e]|] eqn:Hid; [|done].
    destruct H1 as (_ & _ & Hm).
    assert ({| eid := e; Value := id |} ∈ l1List (cache σ)) as Hin
      by (apply Hm; eauto).
    rewrite Hl in Hin. by apply elem_of_nil in Hin. }
  unfold GetOrCreate. simpl. rewrite Hid.
  destruct (l2Cache (cache σ) !! id) as [entry|] eqn:H2.
  - unfold promoteToL1, addToL1.
    rewrite demoteLoop_diverges_empty; [done|done|]. simpl. unfold len. lia.
  - unfold addToL1.
    rewrite demoteLoop_diverges_empty; [done|done|]. simpl. unfold len. lia.
Qed.

(** With no room in L2, the first insertion into a full L1 spins in the
    loop of [addToL2]. *)
Lemma GetOrCreate_diverges_cap2 fuel now id σ :
  state_ok σ → 1 ≤ l1Capacity (cache σ) → l2Capacity (cache σ) ≤ 0 →
  l1Capacity (cache σ) ≤ len (l1Cache (cache σ)) →
  l1Cache (cache σ) !! id = None →
  GetOrCreate fuel now id σ = OutOfFuel.
Proof.
  intros (Hok & _) Hcap1 Hcap2 Hfull Hid.
  pose proof Hok as (_ & H2 & _ & _ & Hl2 & _).
  assert (l2Cache (cache σ) !! id = None) as Hid2.
  { destruct (l2Cache (cache σ) !! id) as [e|] eqn:Hid2; [|done].
    assert (size (l2Cache (cache σ)) ≠ 0)%nat; [|unfold len in Hl2; lia].
    intros Hz%map_size_empty_iff. by rewrite Hz, lookup_empty in Hid2. }
  unfold GetOrCreate. simpl. rewrite Hid, Hid2. unfold addToL1.
  rewrite (demoteLoop_diverges_full (λ p, is_Some (sessions σ !! p))); done.
Qed.

(** *** The public operations keep the state consistent *)

Lemma stats_ok_same s s' : same_requests s s' → stats_ok s → stats_ok s'.
Proof.
  intros (Ht & Hh & Hm & H1 & H2) [? ?]. unfold stats_ok.
  rewrite Ht, Hh, Hm, H1, H2. by split.
Qed.

Lemma stats_ok_l1_hit s : stats_ok s → stats_ok (incrL1Hit (incrTotalRequests s)).
Proof.
  intros [Hh Ht]. split; simpl.
  - by rewrite incr64_add64_l, Hh.
  - by rewrite incr64_add64_l, Ht.
Qed.

Lemma stats_ok_l2_hit s : stats_ok s → stats_ok (incrL2Hit (incrTotalRequests s)).
Proof.
  intros [Hh Ht]. split; simpl.
  - by rewrite incr64_add64_r, Hh.
  - by rewrite incr64_add64_l, Ht.
Qed.

Lemma stats_ok_miss s : stats_ok s → stats_ok (incrCacheMisses (incrTotalRequests s)).
Proof.
  intros [Hh Ht]. split; simpl; [done|].
  by rewrite incr64_add64_r, Ht.
Qed.

Lemma sessions_ok_touch now p h : sessions_ok h → sessions_ok (alter (touch now) p h).
Proof.
  intros Hok q s. rewrite lookup_alter. case_decide as Hq; [|apply Hok].
  subst q. destruct (h !! p) as [s0|] eqn:Hp; simpl; [|done].
  intros [= <-]. simpl. by apply (Hok p).
Qed.

Lemma sessions_ok_append msg now p h :
  sessions_ok h → sessions_ok (alter (appendMessage msg now) p h).
Proof.
  intros Hok q s. rewrite lookup_alter. case_decide as Hq; [|apply Hok].
  subst q. destruct (h !! p) as [s0|] eqn:Hp; simpl; [|done].
  intros [= <-]. simpl. rewrite (Hok p s0 Hp), length_app. simpl.
  unfold incr64, add64. rewrite wrap64_idemp_l. f_equal. lia.
Qed.

Lemma sessions_ok_new p s h :
  Messages s = [] → MessageCount s = 0 →
  sessions_ok h → sessions_ok (<[p := s]> h).
Proof.
  intros Hm Hc Hok q s'. destruct (decide (p = q)) as [<-|Hne].
  - rewrite lookup_insert_eq. intros [= <-]. by rewrite Hm, Hc.
  - rewrite lookup_insert_ne by done. apply Hok.
Qed.

Lemma is_Some_alter {A} (f : A → A) (h : gmap nat A) p q :
  is_Some (h !! q) → is_Some (alter f p h !! q).
Proof.
  intros [s Hs]. rewrite lookup_alter. case_decide; [subst|]; rewrite Hs; eauto.
Qed.

Lemma GetOrCreate_ok fuel now id σ σ' p level :
  state_ok σ → GetOrCreate fuel now id σ = Ok (σ', p, level) →
  state_ok σ' ∧
  l1Capacity (cache σ') = l1Capacity (cache σ) ∧
  l2Capacity (cache σ') = l2Capacity (cache σ) ∧
  TotalRequests (stats (cache σ')) = incr64 (TotalRequests (stats (cache σ))) ∧
  sessions_after now id level p (sessions σ) (sessions σ') ∧
  (∃ e, l1Cache (cache σ') !! id = Some {| session := p; element := e |}).
Proof.
  intros (Hok & Hst & Hse). unfold GetOrCreate.
  set (c0 := set_stats (incrTotalRequests (stats (cache σ))) (cache σ)).
  assert (cache_ok (λ p, is_Some (sessions σ !! p)) c0) as Hok0 by exact Hok.
  change (l1Cache c0) with (l1Cache (cache σ)).
  change (l2Cache c0) with (l2Cache (cache σ)).
  destruct (l1Cache (cache σ) !! id) as [entry|] eqn:H1.
  - (* L1 hit *)
    intros [= <- <- <-]. destruct Hok as (Ht1 & Ht2 & Hd & Hl1 & Hl2 & Hin).
    split; [|split; [|split; [|split; [|split]]]]; simpl; try done.
    + split_and!; simpl.
      * unfold cache_ok, tiers_disjoint, entries_in in *. simpl.
        split_and!; try done.
        -- by apply tier_ok_move_front.
        -- intros k e He. by apply is_Some_alter, (Hin k).
      * by apply stats_ok_l1_hit.
      * by apply sessions_ok_touch.
    + split; [|done]. eapply (Hin id); eauto.
    + destruct entry as [s e]. eauto.
  - destruct (l2Cache (cache σ) !! id) as [entry|] eqn:H2.
    + (* L2 hit *)
      set (c1 := set_stats (incrL2Hit (stats c0)) c0).
      assert (cache_ok (λ p, is_Some (sessions σ !! p)) c1) as Hok1 by exact Hok.
      destruct (promoteToL1 fuel id entry c1) as [c2| |] eqn:Hprom; simpl; [|done..].
      intros [= <- <- <-].
      pose proof Hprom as Hprom'. unfold promoteToL1 in Hprom'.
      destruct (promote_removed_ok _ id entry c1 Hok1 H2) as (Hokr & Habsr & HPr & _).
      destruct (addToL1_ok _ _ _ _ _ _ Hokr Habsr HPr Hprom')
        as (Hok2 & Hc1 & Hc2 & _ & Hreq & Hfront).
      split; [|split; [|split; [|split; [|split]]]]; simpl; try done.
      * split_and!; simpl.
        -- eapply cache_ok_mono; [|done]. intros q. apply is_Some_alter.
        -- eapply stats_ok_same; [done|]. by apply stats_ok_l2_hit.
        -- by apply sessions_ok_touch.
      * by destruct Hreq as (-> & _).
      * destruct Hfront as (e & He & _). eauto.
    + (* miss *)
      set (c1 := set_stats (incrCacheMisses (stats c0)) c0).
      set (p0 := fresh (dom (sessions σ))).
      set (s0 := {| ChatID := id; Messages := []; LastAccessed := now;
                    CreatedAt := now; MessageCount := 0 |}).
      assert (sessions σ !! p0 = None) as Hfresh.
      { apply not_elem_of_dom, is_fresh. }
      assert (cache_ok (λ p, is_Some (<[p0 := s0]> (sessions σ) !! p)) c1) as Hok1.
      { eapply cache_ok_mono; [|exact Hok]. intros q [s Hs]. simpl.
        rewrite lookup_insert_ne; [eauto|]. intros ->. congruence. }
      destruct (addToL1 fuel id p0 c1) as [c2| |] eqn:Hadd; simpl; [|done..].
      intros [= <- <- <-].
      assert (is_Some (<[p0 := s0]> (sessions σ) !! p0)) as HP0
        by (by rewrite lookup_insert_eq).
      destruct (addToL1_ok _ _ _ _ _ _ Hok1 (conj H1 H2) HP0 Hadd)
        as (Hok2 & Hc1 & Hc2 & _ & Hreq & Hfront).
      split; [|split; [|split; [|split; [|split]]]]; simpl; try done.
      * split_and!; simpl; [done| |].
        -- eapply stats_ok_same; [done|]. by apply stats_ok_miss.
        -- by apply sessions_ok_new.
      * by destruct Hreq as (-> & _).
      * destruct Hfront as (e & He & _). eauto.
Qed.

Lemma AddMessage_ok fuel now id msg σ σ' p level :
  state_ok σ → AddMessage fuel now id msg σ = Ok (σ', p, level) →
  ∃ σ1, GetOrCreate fuel now id σ = Ok (σ1, p, level) ∧
    cache σ' = cache σ1 ∧
    sessions σ' = alter (appendMessage msg now) p (sessions σ1) ∧
    state_ok σ'.
Proof.
  intros Hok. unfold AddMessage.
  destruct (GetOrCreate fuel now id σ) as [[[σ1 p1] lvl1]| |] eqn:Hget; simpl; [|done..].
  intros [= <- <- <-]. exists σ1. split_and!; simpl; try done.
  destruct (GetOrCreate_ok _ _ _ _ _ _ _ Hok Hget) as ((Hc & Hs & Hh) & _).
  split_and!; simpl; [|done|by apply sessions_ok_append].
  eapply cache_ok_mono; [|done]. intros q. apply is_Some_alter.
Qed.

Lemma Clear_ok σ : state_ok σ → state_ok (Clear σ).
Proof.
  intros (Hok & Hst & Hse). split_and!; simpl; [|done..].
  destruct Hok as (_ & _ & _ & Hl1 & Hl2 & _).
  unfold cache_ok, tiers_disjoint, entries_in. simpl.
  split_and!; try apply tier_ok_empty.
  - intros k [e He]. by rewrite lookup_empty in He.
  - unfold len. rewrite map_size_empty. lia.
  - unfold len. rewrite map_size_empty. lia.
  - intros k e [He|He]; by rewrite lookup_empty in He.
Qed.

Lemma new_ok serverID cap1 cap2 : state_ok (new serverID cap1 cap2).
Proof.
  split_and!; simpl.
  - unfold cache_ok, tiers_disjoint, entries_in. simpl.
    split_and!; try apply tier_ok_empty.
    + intros k [e He]. by rewrite lookup_empty in He.
    + unfold len. rewrite map_size_empty. lia.
    + unfold len. rewrite map_size_empty. lia.
    + intros k e [He|He]; by rewrite lookup_empty in He.
  - by split.
  - intros p s Hp. by rewrite lookup_empty in Hp.
Qed.

Lemma exec_ok fuel o σ σ' :
  state_ok σ → exec fuel o σ = Ok σ' →
  state_ok σ' ∧
  l1Capacity (cache σ') = l1Capacity (cache σ) ∧
  l2Capacity (cache σ') = l2Capacity (cache σ).
Proof.
  intros Hok. destruct o as [now id|now id msg|id|]; simpl.
  - destruct (GetOrCreate fuel now id σ) as [[[σ1 p] lvl]| |] eqn:Hget; simpl; [|done..].
    intros [= <-]. destruct (GetOrCreate_ok _ _ _ _ _ _ _ Hok Hget) as (?&?&?&_).
    done.
  - destruct (AddMessage fuel now id msg σ) as [[[σ1 p] lvl]| |] eqn:Hadd; simpl; [|done..].
    intros [= <-].
    destruct (AddMessage_ok _ _ _ _ _ _ _ _ Hok Hadd) as (σ0 & Hget & Hc & _ & Hok').
    destruct (GetOrCreate_ok _ _ _ _ _ _ _ Hok Hget) as (_&?&?&_).
    rewrite Hc. done.
  - intros [= <-]. done.
  - intros [= <-]. split_and!; [by apply Clear_ok|done..].
Qed.

Lemma reachable_state_ok cap1 cap2 σ :
  reachable cap1 cap2 σ →
  state_ok σ ∧ l1Capacity (cache σ) = cap1 ∧ l2Capacity (cache σ) = cap2.
Proof.
  induction 1 as [sid|σ fuel o σ' _ (Hok & Hc1 & Hc2) Hexec].
  - split_and!; [apply new_ok|done..].
  - destruct (exec_ok _ _ _ _ Hok Hexec) as (? & ? & ?).
    split_and!; [done|congruence..].
Qed.

Lemma run_reachable cap1 cap2 fuel ops σ σ' :
  reachable cap1 cap2 σ → run fuel ops σ = Ok σ' → reachable cap1 cap2 σ'.
Proof.
  revert σ. induction ops as [|o ops IH]; intros σ Hr; simpl.
  - by intros [= <-].
  - destruct (exec fuel o σ) as [σ1| |] eqn:Hexec; simpl; [|done..].
    apply IH. by eapply reachable_exec.
Qed.

Lemma scenario_ab_reachable : reachable 2 3 scenario_ab.
Proof.
  apply (run_reachable 2 3 3 [OpGetOrCreate 1 "a"; OpGetOrCreate 2 "b"]
           (new "srv" 2 3)); [apply reachable_new|].
  vm_compute. reflexivity.
Qed.

Lemma scenario_abc_reachable : reachable 2 3 scenario_abc.
Proof.
  apply (run_reachable 2 3 3
           [OpGetOrCreate 1 "a"; OpGetOrCreate 2 "b"; OpGetOrCreate 3 "c"]
           (new "srv" 2 3)); [apply reachable_new|].
  vm_compute. reflexivity.
Qed.

Lemma scenario_messages_reachable : reachable 2 3 scenario_messages.
Proof.
  apply (run_reachable 2 3 3
           [OpAddMessage 1 "a" (mkMessage "hello" "user-1" 1);
            OpAddMessage 2 "a" (mkMessage "again" "user-1" 2)]
           (new "srv" 2 3)); [apply reachable_new|].
  vm_compute. reflexivity.
Qed.

Lemma scenario_no_l2_reachable : reachable 1 0 scenario_no_l2.
Proof.
  apply (run_reachable 1 0 3 [OpGetOrCreate 1 "a"] (new "srv" 1 0));
    [apply reachable_new|].
  vm_compute. reflexivity.
Qed.

(** *** Fuel: more of it changes no result, and no reachable state panics *)

Lemma evictLoop_mono fuel fuel' c c' :
  evictLoop fuel c = Ok c' → (fuel ≤ fuel')%nat → evictLoop fuel' c = Ok c'.
Proof.
  revert fuel' c. induction fuel as [|fuel IH]; intros fuel' c; [done|].
  destruct fuel' as [|fuel']; [lia|]. rewrite !evictLoop_S.
  destruct (l2Capacity c <=? len (l2Cache c)); [|done].
  intros Hrun Hle. apply IH; [done|lia].
Qed.

Lemma addToL2_mono fuel fuel' id s c c' :
  addToL2 fuel id s c = Ok c' → (fuel ≤ fuel')%nat → addToL2 fuel' id s c = Ok c'.
Proof.
  unfold addToL2. intros Hrun Hle.
  destruct (evictLoop fuel c) as [c1| |] eqn:Hloop; [|done..].
  by rewrite (evictLoop_mono _ _ _ _ Hloop Hle).
Qed.

Lemma demoteFromL1_mono fuel fuel' c c' :
  demoteFromL1 fuel c = Ok c' → (fuel ≤ fuel')%nat → demoteFromL1 fuel' c = Ok c'.
Proof.
  unfold demoteFromL1. intros Hrun Hle.
  destruct (Back (l1List c)) as [back|]; [|done].
  destruct (l1Cache c !! Value back) as [entry|]; [|done].
  by eapply addToL2_mono.
Qed.

Lemma demoteLoop_mono fuel fuel' c c' :
  demoteLoop fuel c = Ok c' → (fuel ≤ fuel')%nat → demoteLoop fuel' c = Ok c'.
Proof.
  revert fuel' c. induction fuel as [|fuel IH]; intros fuel' c; [done|].
  destruct fuel' as [|fuel']; [lia|]. rewrite !demoteLoop_S.
  destruct (l1Capacity c <=? len (l1Cache c)); [|done].
  intros Hrun Hle.
  destruct (demoteFromL1 fuel c) as [c1| |] eqn:Hdem; [|done..].
  rewrite (demoteFromL1_mono fuel fuel' _ _ Hdem) by lia.
  simpl in *. apply IH; [done|lia].
Qed.

Lemma addToL1_mono fuel fuel' id s c c' :
  addToL1 fuel id s c = Ok c' → (fuel ≤ fuel')%nat → addToL1 fuel' id s c = Ok c'.
Proof.
  unfold addToL1. intros Hrun Hle.
  destruct (demoteLoop fuel c) as [c1| |] eqn:Hloop; [|done..].
  by rewrite (demoteLoop_mono _ _ _ _ Hloop Hle).
Qed.

Lemma GetOrCreate_mono fuel fuel' now id σ r :
  GetOrCreate fuel now id σ = Ok r → (fuel ≤ fuel')%nat →
  GetOrCreate fuel' now id σ = Ok r.
Proof.
  unfold GetOrCreate, promoteToL1. intros Hrun Hle.
  destruct (l1Cache _ !! id) as [entry|]; [done|].
  destruct (l2Cache _ !! id) as [entry|].
  - destruct (addToL1 fuel _ _ _) as [c1| |] eqn:Hadd; [|done..].
    by rewrite (addToL1_mono _ _ _ _ _ _ Hadd Hle).
  - destruct (addToL1 fuel _ _ _) as [c1| |] eqn:Hadd; [|done..].
    by rewrite (addToL1_mono _ _ _ _ _ _ Hadd Hle).
Qed.

Lemma AddMessage_mono fuel fuel' now id msg σ r :
  AddMessage fuel now id msg σ = Ok r → (fuel ≤ fuel')%nat →
  AddMessage fuel' now id msg σ = Ok r.
Proof.
  unfold AddMessage. intros Hrun Hle.
  destruct (GetOrCreate fuel now id σ) as [r1| |] eqn:Hget; [|done..].
  by rewrite (GetOrCreate_mono _ _ _ _ _ _ Hget Hle).
Qed.

(** The result of a call that returns does not depend on the fuel. *)
Lemma GetOrCreate_deterministic fuel fuel' now id σ r r' :
  GetOrCreate fuel now id σ = Ok r → GetOrCreate fuel' now id σ = Ok r' → r = r'.
Proof.
  intros Hr Hr'.
  apply (GetOrCreate_mono _ (fuel `max` fuel')%nat) in Hr; [|lia].
  apply (GetOrCreate_mono _ (fuel `max` fuel')%nat) in Hr'; [|lia].
  congruence.
Qed.

Lemma evictLoop_no_panic fuel c : evictLoop fuel c ≠ Panic.
Proof.
  revert c. induction fuel as [|fuel IH]; intros c; [done|].
  rewrite evictLoop_S. destruct (l2Capacity c <=? len (l2Cache c)); [apply IH|done].
Qed.

Lemma demoteFromL1_no_panic (P : nat → Prop) fuel c :
  cache_ok P c → demoteFromL1 fuel c ≠ Panic.
Proof.
  intros Hok. unfold demoteFromL1.
  destruct (Back (l1List c)) as [back|] eqn:Hback; [|done].
  pose proof Hok as (H1 & _).
  destruct (tier_ok_back _ _ _ H1 Hback) as [s Hs]. rewrite Hs.
  unfold addToL2.
  destruct (evictLoop fuel _) as [c1| |] eqn:Hloop; simpl; [done| |done].
  by apply evictLoop_no_panic in Hloop.
Qed.

Lemma demoteLoop_no_panic (P : nat → Prop) fuel c :
  cache_ok P c → demoteLoop fuel c ≠ Panic.
Proof.
  revert c. induction fuel as [|fuel IH]; intros c Hok; [done|].
  rewrite demoteLoop_S. destruct (l1Capacity c <=? len (l1Cache c)); [|done].
  destruct (demoteFromL1 fuel c) as [c1| |] eqn:Hdem; simpl; [| |done].
  - apply IH. by destruct (demoteFromL1_ok P _ _ _ Hok Hdem).
  - by apply (demoteFromL1_no_panic P) in Hdem.
Qed.

Lemma GetOrCreate_no_panic fuel now id σ :
  state_ok σ → GetOrCreate fuel now id σ ≠ Panic.
Proof.
  intros (Hok & _). unfold GetOrCreate.
  set (c0 := set_stats (incrTotalRequests (stats (cache σ))) (cache σ)).
  change (l1Cache c0) with (l1Cache (cache σ)).
  change (l2Cache c0) with (l2Cache (cache σ)).
  destruct (l1Cache (cache σ) !! id) as [entry|] eqn:H1; [done|].
  destruct (l2Cache (cache σ) !! id) as [entry|] eqn:H2.
  - set (c1 := set_stats (incrL2Hit (stats c0)) c0).
    assert (cache_ok (λ p, is_Some (sessions σ !! p)) c1) as Hok1 by exact Hok.
    destruct (promote_removed_ok _ id entry c1 Hok1 H2) as (Hokr & _).
    unfold promoteToL1, addToL1.
    destruct (demoteLoop fuel _) as [c2| |] eqn:Hloop; simpl; [done| |done].
    by eapply demoteLoop_no_panic in Hloop.
  - set (c1 := set_stats (incrCacheMisses (stats c0)) c0).
    assert (cache_ok (λ p, is_Some (sessions σ !! p)) c1) as Hok1 by exact Hok.
    unfold addToL1.
    destruct (demoteLoop fuel _) as [c2| |] eqn:Hloop; simpl; [done| |done].
    by eapply demoteLoop_no_panic in Hloop.
Qed.

(** *** The snapshot *)

Lemma collectKeys_order order : collectKeys order = order.
Proof.
  unfold collectKeys.
  assert (∀ acc : list string,
            foldl (λ chats chatID, chats ++ [chatID]) acc order = acc ++ order)
    as Hgen; [|apply Hgen].
  induction order as [|k order IH]; intros acc; simpl.
  - by rewrite app_nil_r.
  - by rewrite IH, <-app_assoc.
Qed.

Lemma tier_ok_keys m l : tier_ok m l → (map_to_list m).*1 ≡ₚ listIDs l.
Proof.
  intros Hok. apply NoDup_Permutation.
  - apply NoDup_fst_map_to_list.
  - by destruct Hok as (_ & ? & _).
  - intros k. unfold listIDs.
    assert (k ∈ Value <$> l ↔ k ∈ dom m) as ->.
    { by rewrite (tier_ok_dom m l Hok), elem_of_list_to_set. }
    rewrite elem_of_dom, list_elem_of_fmap. split.
    + intros ([k' v] & -> & Hin%elem_of_map_to_list). eauto.
    + intros [v Hv]. exists (k, v). split; [done|]. by apply elem_of_map_to_list.
Qed.

(** C1, as the code has it.  In every reachable state, the id lists
    returned by [GetCacheInfo] hold exactly the ids of each tier, each
    once: they are permutations of the tier's LRU list, in the order in
    which the runtime happens to iterate over the map, and the sizes are
    the lengths of the lists. *)
Theorem GetCacheInfo_lists_tier_ids cap1 cap2 σ info :
  reachable cap1 cap2 σ → GetCacheInfo_returns σ info →
  L1Chats info ≡ₚ listIDs (l1List (cache σ)) ∧
  L2Chats info ≡ₚ listIDs (l2List (cache σ)) ∧
  L1Size info = Z.of_nat (length (l1List (cache σ))) ∧
  L2Size info = Z.of_nat (length (l2List (cache σ))).
Proof.
  intros (((H1 & H2 & _) & _) & _)%reachable_state_ok (order1 & order2 & Ho1 & Ho2 & ->).
  simpl. rewrite !collectKeys_order. unfold range_order in *.
  split_and!.
  - by rewrite Ho1, (tier_ok_keys _ _ H1).
  - by rewrite Ho2, (tier_ok_keys _ _ H2).
  - by apply tier_ok_len.
  - by apply tier_ok_len.
Qed.

Lemma scenario_ab_snapshot :
  GetCacheInfo_returns scenario_ab (GetCacheInfo ["a"; "b"] [] scenario_ab) ∧
  listIDs (l1List (cache scenario_ab)) = ["b"; "a"].
Proof.
  pose proof (reachable_state_ok _ _ _ scenario_ab_reachable) as (((H1 & H2 & _) & _) & _).
  assert (listIDs (l1List (cache scenario_ab)) = ["b"; "a"]) as Hl1
    by (vm_compute; reflexivity).
  assert (listIDs (l2List (cache scenario_ab)) = []) as Hl2
    by (vm_compute; reflexivity).
  split; [|done]. exists ["a"; "b"], []. split_and!; [| |done].
  - unfold range_order. rewrite (tier_ok_keys _ _ H1), Hl1.
    apply Permutation_swap.
  - unfold range_order. by rewrite (tier_ok_keys _ _ H2), Hl2.
Qed.

(** C1, as stated, fails: after touching [a] then [b] the LRU list of L1
    is [b; a], and [GetCacheInfo] may return the ids as [a; b]. *)
Lemma GetCacheInfo_order_counterexample :
  reachable 2 3 scenario_ab ∧
  GetCacheInfo_returns scenario_ab (GetCacheInfo ["a"; "b"] [] scenario_ab) ∧
  listIDs (l1List (cache scenario_ab)) = ["b"; "a"] ∧
  L1Chats (GetCacheInfo ["a"; "b"] [] scenario_ab) = ["a"; "b"] ∧
  L1Chats (GetCacheInfo ["a"; "b"] [] scenario_ab)
    ≠ listIDs (l1List (cache scenario_ab)).
Proof.
  destruct scenario_ab_snapshot as [Hret Hl1].
  split_and!; [apply scenario_ab_reachable|done|done|done|].
  rewrite Hl1. discriminate.
Qed.

Lemma GetCacheInfo_lists_tier_ids_witness :
  L1Chats (GetCacheInfo ["a"; "b"] [] scenario_ab)
    ≡ₚ listIDs (l1List (cache scenario_ab)).
Proof.
  apply (GetCacheInfo_lists_tier_ids 2 3 scenario_ab
           (GetCacheInfo ["a"; "b"] [] scenario_ab)).
  - exact scenario_ab_reachable.
  - exact (proj1 scenario_ab_snapshot).
Defined.

(** *** Construction *)

(** C3, as the code has it.  [NewHierarchicalCache] validates nothing:
    it returns a cache whatever the capacities are, and in every state
    that cache goes through its capacities are the arguments, as
    [GetCacheInfo] reports them.  The guard is in [NewChatServer], which
    replaces a non-positive L1 capacity by 5 and a non-positive L2
    capacity by 20 and keeps a positive one, so that the cache of a
    server always has capacities of at least 1. *)
Theorem NewHierarchicalCache_keeps_capacities serverID cap1 cap2 config :
  reachable cap1 cap2 (new serverID cap1 cap2) ∧
  (∀ σ, reachable cap1 cap2 σ →
     l1Capacity (cache σ) = cap1 ∧ l2Capacity (cache σ) = cap2 ∧
     ∀ l1Chats l2Chats,
       L1Capacity (GetCacheInfo l1Chats l2Chats σ) = cap1 ∧
       L2Capacity (GetCacheInfo l1Chats l2Chats σ) = cap2) ∧
  let c := cache (Server.cache (Server.NewChatServer config)) in
  (Server.L1Capacity config ≤ 0 → l1Capacity c = 5) ∧
  (1 ≤ Server.L1Capacity config → l1Capacity c = Server.L1Capacity config) ∧
  (Server.L2Capacity config ≤ 0 → l2Capacity c = 20) ∧
  (1 ≤ Server.L2Capacity config → l2Capacity c = Server.L2Capacity config) ∧
  1 ≤ l1Capacity c ∧ 1 ≤ l2Capacity c ∧
  reachable (l1Capacity c) (l2Capacity c)
    (Server.cache (Server.NewChatServer config)).
Proof.
  split; [constructor|]. split.
  - intros σ (_ & Hc1 & Hc2)%reachable_state_ok.
    split; [done|]. split; [done|]. intros l1Chats l2Chats. done.
  - simpl.
    destruct (Z.leb_spec (Server.L1Capacity config) 0);
      destruct (Z.leb_spec (Server.L2Capacity config) 0);
      split_and!; try lia; constructor.
Qed.

(** C3, as stated, fails: constructing a cache with L1 capacity 0
    returns a cache, with L1 capacity 0. *)
Lemma NewHierarchicalCache_zero_counterexample :
  l1Capacity (NewHierarchicalCache "srv" 0 3) = 0 ∧
  GetCacheInfo [] [] (new "srv" 0 3) =
    mkCacheInfo 0 0 0 3 [] [] (mkCacheStats 0 0 0 0 0 0 0) ∧
  ¬ 1 ≤ l1Capacity (cache (new "srv" 0 3)).
Proof. split_and!; [done|done|]. simpl. lia. Qed.

Lemma NewHierarchicalCache_keeps_capacities_witness :
  l1Capacity (cache (Clear (new "srv" 0 3))) = 0 ∧
  l1Capacity (cache (Server.cache (Server.NewChatServer
                (Server.mkServerConfig "server-a" 50051 0 (-4))))) = 5 ∧
  l2Capacity (cache (Server.cache (Server.NewChatServer
                (Server.mkServerConfig "server-a" 50051 0 (-4))))) = 20.
Proof.
  destruct (NewHierarchicalCache_keeps_capacities "srv" 0 3
              (Server.mkServerConfig "server-a" 50051 0 (-4)))
    as (Hnew & Hkeep & H1 & _ & H2 & _).
  split; [|split].
  - apply (Hkeep (Clear (new "srv" 0 3))).
    apply (reachable_exec 0 3 (new "srv" 0 3) 0 OpClear); [exact Hnew|reflexivity].
  - apply H1. simpl. lia.
  - apply H2. simpl. lia.
Defined.

(** *** Capacity and disjointness *)

(** C4.  For a cache constructed with [cap1 >= 1] and [cap2 >= 0], in
    every state reached by the public operations L1 holds at most [cap1]
    ids, L2 at most [cap2], and no id is in both maps.  When moreover
    [cap2 >= 1] every public operation returns. *)
Theorem tiers_bounded_and_disjoint cap1 cap2 σ :
  1 ≤ cap1 → 0 ≤ cap2 → reachable cap1 cap2 σ →
  len (l1Cache (cache σ)) ≤ cap1 ∧
  len (l2Cache (cache σ)) ≤ cap2 ∧
  (∀ id, ¬ (is_Some (l1Cache (cache σ) !! id) ∧
            is_Some (l2Cache (cache σ) !! id))) ∧
  (1 ≤ cap2 → ∀ o, ∃ σ', exec 3 o σ = Ok σ').
Proof.
  intros Hcap1 Hcap2 (Hok & Hc1 & Hc2)%reachable_state_ok.
  pose proof Hok as ((_ & _ & Hd & Hl1 & Hl2 & _) & _).
  rewrite Hc1 in Hl1. rewrite Hc2 in Hl2.
  split_and!; [lia|lia| |].
  - intros id [? ?]. by eapply Hd.
  - intros Hcap2' o. apply exec_terminates; [done|lia|lia|lia].
Qed.

Lemma tiers_bounded_and_disjoint_witness :
  len (l1Cache (cache scenario_abc)) ≤ 2 ∧
  len (l2Cache (cache scenario_abc)) ≤ 3.
Proof.
  destruct (tiers_bounded_and_disjoint 2 3 scenario_abc) as (H1 & H2 & _).
  - lia.
  - lia.
  - exact scenario_abc_reachable.
  - split; [exact H1|exact H2].
Defined.

(** *** Promotion *)

Lemma demoteFromL1_no_evict (P : nat → Prop) fuel c c' :
  cache_ok P c → len (l2Cache c) < l2Capacity c →
  demoteFromL1 fuel c = Ok c' →
  Evictions (stats c') = Evictions (stats c) ∧
  (Demotions (stats c') = Demotions (stats c) ∨
   Demotions (stats c') = incr64 (Demotions (stats c))).
Proof.
  intros Hok Hfree. unfold demoteFromL1.
  destruct (Back (l1List c)) as [back|] eqn:Hback.
  - pose proof Hok as (H1 & _).
    destruct (tier_ok_back _ _ _ H1 Hback) as [s Hs]. rewrite Hs.
    unfold addToL2.
    destruct (evictLoop fuel _) as [c1| |] eqn:Hloop; simpl; [|done..].
    intros [= <-]. apply evictLoop_free in Hloop; [|done]. subst c1.
    simpl. auto.
  - intros [= <-]. auto.
Qed.

Lemma demoteLoop_no_evict (P : nat → Prop) fuel c c' :
  cache_ok P c → 1 ≤ l1Capacity c → len (l2Cache c) < l2Capacity c →
  demoteLoop fuel c = Ok c' →
  Evictions (stats c') = Evictions (stats c) ∧
  (Demotions (stats c') = Demotions (stats c) ∨
   Demotions (stats c') = incr64 (Demotions (stats c))).
Proof.
  intros Hok Hcap1 Hfree. destruct fuel as [|fuel]; [done|].
  rewrite demoteLoop_S.
  destruct (Z.leb_spec (l1Capacity c) (len (l1Cache c))) as [Hfull|Hfree1].
  - destruct (demoteFromL1 fuel c) as [c1| |] eqn:Hdem; simpl; [|done..].
    destruct (demoteFromL1_ok P _ _ _ Hok Hdem) as (_ & (Hc1 & _) & Hlen).
    pose proof Hok as (H1 & _ & _ & Hl1 & _).
    destruct fuel as [|fuel]; [done|]. rewrite demoteLoop_S.
    destruct (Z.leb_spec (l1Capacity c1) (len (l1Cache c1))) as [Hfull1|_].
    + rewrite Hc1, Hlen in Hfull1; [lia|]. eapply tier_nonempty; [done|lia].
    + intros [= <-]. by eapply demoteFromL1_no_evict.
  - intros [= <-]. auto.
Qed.

(** C5.  In every reachable state of a cache with [cap1 >= 1], a
    [GetOrCreate] of an id that is in L2 returns, reports [LevelL2], and
    leaves the evictions counter as it was; it demotes at most one
    session. *)
Theorem promotion_never_evicts cap1 cap2 σ now id :
  1 ≤ cap1 → reachable cap1 cap2 σ →
  is_Some (l2Cache (cache σ) !! id) →
  (∃ σ' p, GetOrCreate 3 now id σ = Ok (σ', p, LevelL2)) ∧
  ∀ fuel σ' p level, GetOrCreate fuel now id σ = Ok (σ', p, level) →
    level = LevelL2 ∧
    Evictions (stats (cache σ')) = Evictions (stats (cache σ)) ∧
    (Demotions (stats (cache σ')) = Demotions (stats (cache σ)) ∨
     Demotions (stats (cache σ')) = incr64 (Demotions (stats (cache σ)))).
Proof.
  intros Hcap1 (Hst & Hc1 & Hc2)%reachable_state_ok [entry H2].
  pose proof Hst as (Hok & _).
  pose proof Hok as (_ & _ & Hd & _ & Hl2 & _).
  assert (l1Cache (cache σ) !! id = None) as H1.
  { destruct (l1Cache (cache σ) !! id) eqn:H1; [|done]. destruct (Hd id); eauto. }
  assert (1 ≤ len (l2Cache (cache σ))) as Hsize.
  { assert (size (l2Cache (cache σ)) ≠ 0)%nat; [|unfold len; lia].
    intros Hz%map_size_empty_iff. by rewrite Hz, lookup_empty in H2. }
  assert (∀ fuel σ' p level, GetOrCreate fuel now id σ = Ok (σ', p, level) →
    level = LevelL2 ∧
    Evictions (stats (cache σ')) = Evictions (stats (cache σ)) ∧
    (Demotions (stats (cache σ')) = Demotions (stats (cache σ)) ∨
     Demotions (stats (cache σ')) = incr64 (Demotions (stats (cache σ)))))
    as Hany.
  { intros fuel σ' p level. unfold GetOrCreate.
    set (c0 := set_stats (incrTotalRequests (stats (cache σ))) (cache σ)).
    change (l1Cache c0) with (l1Cache (cache σ)).
    change (l2Cache c0) with (l2Cache (cache σ)).
    rewrite H1, H2.
    set (c1 := set_stats (incrL2Hit (stats c0)) c0).
    assert (cache_ok (λ p, is_Some (sessions σ !! p)) c1) as Hok1 by exact Hok.
    destruct (promote_removed_ok _ id entry c1 Hok1 H2) as (Hokr & _ & _ & Hlen).
    unfold promoteToL1, addToL1.
    destruct (demoteLoop fuel _) as [c2| |] eqn:Hloop; simpl; [|done..].
    intros [= <- <- <-]. split; [done|]. simpl.
    eapply demoteLoop_no_evict in Hloop; [exact Hloop|exact Hokr|simpl; lia|].
    simpl. change (l2Cache c1) with (l2Cache (cache σ)) in Hlen.
    change (len (delete id (l2Cache (cache σ))) = len (l2Cache (cache σ)) - 1) in Hlen.
    lia. }
  split; [|exact Hany].
  destruct (GetOrCreate_terminates 3 now id σ) as [[[σ' p] level] Hget];
    [done|lia|lia|lia|].
  destruct (Hany _ _ _ _ Hget) as (-> & _). eauto.
Qed.

Lemma promotion_never_evicts_witness :
  ∃ σ' p, GetOrCreate 3 4 "a" scenario_abc = Ok (σ', p, LevelL2).
Proof.
  destruct (promotion_never_evicts 2 3 scenario_abc 4 "a") as [Hret _].
  - lia.
  - exact scenario_abc_reachable.
  - vm_compute. eauto.
  - exact Hret.
Defined.

(** *** Counters *)

(** C6.  In every state reached from a fresh cache, with [+] the addition
    of Go on [int64], [CacheHits = L1Hits + L2Hits] and
    [TotalRequests = CacheHits + CacheMisses]; an [AddMessage] that
    returns has incremented [TotalRequests] exactly once, and it does
    return when both capacities are positive. *)
Theorem counters_consistent cap1 cap2 σ :
  reachable cap1 cap2 σ →
  CacheHits (GetStats σ) = add64 (L1Hits (GetStats σ)) (L2Hits (GetStats σ)) ∧
  TotalRequests (GetStats σ)
    = add64 (CacheHits (GetStats σ)) (CacheMisses (GetStats σ)) ∧
  (∀ fuel now id msg σ' p level,
     AddMessage fuel now id msg σ = Ok (σ', p, level) →
     TotalRequests (GetStats σ') = incr64 (TotalRequests (GetStats σ))) ∧
  (1 ≤ cap1 → 1 ≤ cap2 →
   ∀ now id msg, ∃ r, AddMessage 3 now id msg σ = Ok r).
Proof.
  intros (Hok & Hc1 & Hc2)%reachable_state_ok.
  pose proof Hok as (_ & [Hh Ht] & _).
  split_and!; [done|done| |].
  - intros fuel now id msg σ' p level Hadd.
    destruct (AddMessage_ok _ _ _ _ _ _ _ _ Hok Hadd) as (σ1 & Hget & Hc & _).
    destruct (GetOrCreate_ok _ _ _ _ _ _ _ Hok Hget) as (_ & _ & _ & Hreq & _).
    unfold GetStats. by rewrite Hc.
  - intros Hcap1 Hcap2 now id msg.
    apply AddMessage_terminates; [done|lia|lia|lia].
Qed.

Lemma counters_consistent_witness :
  CacheHits (GetStats scenario_abc)
    = add64 (L1Hits (GetStats scenario_abc)) (L2Hits (GetStats scenario_abc)) ∧
  ∃ r, AddMessage 3 4 "a" (mkMessage "hello" "user-1" 4) scenario_abc = Ok r.
Proof.
  destruct (counters_consistent 2 3 scenario_abc) as (Hh & _ & _ & Hret).
  - exact scenario_abc_reachable.
  - split; [exact Hh|]. apply Hret; lia.
Defined.

(** *** Sessions *)

(** C8.  In every reachable state, every session object that was ever
    handed out has its [MessageCount] equal to the length of its
    [Messages], as Go's [int] (and as a number as long as the length is
    below [2^63], which it is for every slice); a session created by a
    miss has no message and count 0; an [AddMessage] that returns has
    appended its message at the end and incremented the count once. *)
Theorem message_count_is_length cap1 cap2 σ :
  reachable cap1 cap2 σ →
  (∀ p s, sessions σ !! p = Some s →
     MessageCount s = wrap64 (Z.of_nat (length (Messages s))) ∧
     (Z.of_nat (length (Messages s)) < 2 ^ 63 →
      MessageCount s = Z.of_nat (length (Messages s)))) ∧
  (∀ fuel now id σ' p, GetOrCreate fuel now id σ = Ok (σ', p, LevelMiss) →
     ∃ s, sessions σ' !! p = Some s ∧ Messages s = [] ∧ MessageCount s = 0) ∧
  (∀ fuel now id msg σ' p level,
     AddMessage fuel now id msg σ = Ok (σ', p, level) →
     ∃ s', sessions σ' !! p = Some s' ∧
       Messages s' = default [] (Messages <$> sessions σ !! p) ++ [msg] ∧
       MessageCount s' = incr64 (default 0 (MessageCount <$> sessions σ !! p)) ∧
       MessageCount s' = wrap64 (Z.of_nat (length (Messages s')))).
Proof.
  intros (Hok & _)%reachable_state_ok. pose proof Hok as (_ & _ & Hse).
  split_and!.
  - intros p s Hp. split; [by eapply Hse|].
    intros Hlen. rewrite (Hse p s Hp). apply wrap64_small. lia.
  - intros fuel now id σ' p Hget.
    destruct (GetOrCreate_ok _ _ _ _ _ _ _ Hok Hget)
      as (_ & _ & _ & _ & [_ ->] & _).
    eexists. by rewrite lookup_insert_eq.
  - intros fuel now id msg σ' p level Hadd.
    destruct (AddMessage_ok _ _ _ _ _ _ _ _ Hok Hadd)
      as (σ1 & Hget & Hc & Hs & (_ & _ & Hse')).
    destruct (GetOrCreate_ok _ _ _ _ _ _ _ Hok Hget)
      as (_ & _ & _ & _ & Hafter & _).
    assert (∃ s1, sessions σ1 !! p = Some s1 ∧
              Messages s1 = default [] (Messages <$> sessions σ !! p) ∧
              MessageCount s1 = default 0 (MessageCount <$> sessions σ !! p))
      as (s1 & Hs1 & Hm1 & Hn1).
    { destruct level; simpl in Hafter; destruct Hafter as [Hp ->].
      - destruct Hp as [s0 Hp]. exists (touch now s0).
        rewrite lookup_alter_eq, Hp. done.
      - destruct Hp as [s0 Hp]. exists (touch now s0).
        rewrite lookup_alter_eq, Hp. done.
      - destruct Hp as [s0 Hp]. exists (touch now s0).
        rewrite lookup_alter_eq, Hp. done.
      - eexists. rewrite lookup_insert_eq, Hp. done. }
    exists (appendMessage msg now s1). split_and!.
    + by rewrite Hs, lookup_alter_eq, Hs1.
    + simpl. by rewrite Hm1.
    + simpl. by rewrite Hn1.
    + apply (Hse' p). by rewrite Hs, lookup_alter_eq, Hs1.
Qed.

Lemma message_count_is_length_witness :
  ∃ s, sessions scenario_messages !! 0%nat = Some s ∧
       length (Messages s) = 2%nat ∧
       MessageCount s = Z.of_nat (length (Messages s)).
Proof.
  destruct (message_count_is_length 2 3 scenario_messages
              scenario_messages_reachable) as (Hall & _).
  destruct (sessions scenario_messages !! 0%nat) as [s|] eqn:Hs;
    [|vm_compute in Hs; discriminate].
  exists s. split; [done|].
  assert (length (Messages s) = 2%nat) as Hlen.
  { vm_compute in Hs. injection Hs as <-. reflexivity. }
  split; [done|].
  apply (Hall 0%nat s Hs). rewrite Hlen. reflexivity.
Defined.

(** *** Termination *)

(** C10, as the code has it.  In every reachable state [GetOrCreate]
    and [AddMessage] return when both capacities are at least 1.  With
    an L1 capacity of 0 or less they never return: the loop of [addToL1]
    never sees [len(L1) < l1Capacity].  With an L1 capacity of at least 1
    and an L2 capacity of 0 or less, the first insertion into a full L1
    never returns either: the loop of [addToL2] never sees
    [len(L2) < l2Capacity]. *)
Theorem GetOrCreate_termination cap1 cap2 σ now id :
  reachable cap1 cap2 σ →
  (1 ≤ cap1 → 1 ≤ cap2 →
   (∃ r, GetOrCreate 3 now id σ = Ok r) ∧
   (∀ msg, ∃ r, AddMessage 3 now id msg σ = Ok r)) ∧
  (cap1 ≤ 0 → ∀ fuel,
   GetOrCreate fuel now id σ = OutOfFuel ∧
   (∀ msg, AddMessage fuel now id msg σ = OutOfFuel)) ∧
  (1 ≤ cap1 → cap2 ≤ 0 →
   cap1 ≤ len (l1Cache (cache σ)) → l1Cache (cache σ) !! id = None →
   ∀ fuel,
   GetOrCreate fuel now id σ = OutOfFuel ∧
   (∀ msg, AddMessage fuel now id msg σ = OutOfFuel)).
Proof.
  intros (Hok & Hc1 & Hc2)%reachable_state_ok. split_and!.
  - intros Hcap1 Hcap2. split.
    + apply GetOrCreate_terminates; [done|lia|lia|lia].
    + intros msg. apply AddMessage_terminates; [done|lia|lia|lia].
  - intros Hcap1 fuel.
    assert (GetOrCreate fuel now id σ = OutOfFuel) as Hdiv
      by (apply GetOrCreate_diverges_cap1; [done|lia]).
    split; [done|]. intros msg. unfold AddMessage. by rewrite Hdiv.
  - intros Hcap1 Hcap2 Hfull Hid fuel.
    assert (GetOrCreate fuel now id σ = OutOfFuel) as Hdiv
      by (apply GetOrCreate_diverges_cap2; [done|lia|lia|lia|done]).
    split; [done|]. intros msg. unfold AddMessage. by rewrite Hdiv.
Qed.

(** C10, as stated, fails: with L1 capacity 1 and L2 capacity 0, after
    [a] was inserted the insertion of [b] never returns. *)
Lemma GetOrCreate_diverges_counterexample :
  1 ≤ 1 ∧ reachable 1 0 scenario_no_l2 ∧
  ∀ fuel, GetOrCreate fuel 2 "b" scenario_no_l2 = OutOfFuel.
Proof.
  split_and!; [lia|exact scenario_no_l2_reachable|].
  intros fuel.
  destruct (reachable_state_ok _ _ _ scenario_no_l2_reachable) as (Hok & Hc1 & Hc2).
  apply GetOrCreate_diverges_cap2; [done|lia|lia| |].
  - rewrite Hc1. vm_compute. discriminate.
  - vm_compute. reflexivity.
Qed.

Lemma GetOrCreate_termination_witness :
  (∃ r, GetOrCreate 3 4 "d" scenario_abc = Ok r) ∧
  (∀ fuel, GetOrCreate fuel 2 "b" scenario_no_l2 = OutOfFuel).
Proof.
  split.
  - destruct (GetOrCreate_termination 2 3 scenario_abc 4 "d"
                scenario_abc_reachable) as (Hret & _ & _).
    apply Hret; lia.
  - intros fuel.
    destruct (GetOrCreate_termination 1 0 scenario_no_l2 2 "b"
                scenario_no_l2_reachable) as (_ & _ & Hdiv).
    apply Hdiv; [lia|lia|vm_compute; discriminate|vm_compute; reflexivity].
Defined.

End CacheFacts.

(** ** The client *)

Module ClientFacts.
Import Client.

Lemma markConnectionUnhealthy_down address c sc :
  connections (markConnectionUnhealthy address c) !! address = Some sc →
  healthy sc = false.
Proof.
  unfold markConnectionUnhealthy. simpl. rewrite lookup_alter_eq.
  destruct (connections c !! address) as [sc0|]; simpl; [|done].
  by intros [= <-].
Qed.

Lemma markConnectionUnhealthy_other address address' c :
  address ≠ address' →
  connections (markConnectionUnhealthy address c) !! address'
  = connections c !! address'.
Proof. intros Hne. unfold markConnectionUnhealthy. simpl. by rewrite lookup_alter_ne. Qed.





End ClientFacts.

(** * Further properties *)

(** ** The ring: order, weights, lookup *)

Module RingMore.
Import Ring RingFacts.

#[local] Instance hash_le_trans : Transitive hash_le.
Proof. intros a b c. unfold hash_le. lia. Qed.

Section more.
Context `{SliceSort}.
Context {alloc : Allocator}.

Lemma Sorted_filter_hash (P : VirtualNode → Prop) `{∀ v, Decision (P v)} l :
  Sorted hash_le l → Sorted hash_le (filter P l).
Proof.
  intros Hs. apply StronglySorted_Sorted.
  apply Sorted_StronglySorted in Hs; [|apply _].
  induction Hs as [|v l Hs IH Hall]; [constructor|].
  rewrite filter_cons. case_decide; [|done].
  constructor; [done|]. apply Forall_forall. intros w [_ Hw]%list_elem_of_filter.
  rewrite Forall_forall in Hall. by apply Hall.
Qed.

Lemma nodes_sorted hr : reachable hr → Sorted hash_le (nodes hr).
Proof.
  induction 1 as [r|hr id w a _ IH|hr id _ IH].
  - constructor.
  - unfold AddNode. case_match; [done|]. simpl. apply sort_slice_sorted.
  - unfold RemoveNode. case_match; [|done]. simpl. by apply Sorted_filter_hash.
Qed.

(** X1.  The virtual nodes of every reachable ring are sorted by hash,
    ascending. *)
Theorem reachable_ring_sorted hr : reachable hr → Sorted hash_le (nodes hr).
Proof.
  induction 1 as [r|hr id w a _ IH|hr id _ IH].
  - constructor.
  - unfold AddNode. case_match; [done|]. simpl. apply sort_slice_sorted.
  - unfold RemoveNode. case_match; [|done]. simpl. by apply Sorted_filter_hash.
Qed.

(** *** Weights *)

Lemma filter_newVirtualNodes_same id cap :
  filter (λ v, NodeID v = id) (newVirtualNodes id cap) = newVirtualNodes id cap.
Proof.
  unfold newVirtualNodes. induction (seqZ 0 cap) as [|i l IH]; [done|].
  rewrite fmap_cons, filter_cons_True by done. by rewrite IH.
Qed.

Lemma filter_newVirtualNodes_other id id' cap :
  id' ≠ id → filter (λ v, NodeID v = id) (newVirtualNodes id' cap) = [].
Proof.
  intros Hne. unfold newVirtualNodes. induction (seqZ 0 cap) as [|i l IH]; [done|].
  rewrite fmap_cons, filter_cons_False by done. by rewrite IH.
Qed.

Lemma filter_removed_same id (l : list VirtualNode) :
  filter (λ v, NodeID v = id) (filter (λ v, NodeID v ≠ id) l) = [].
Proof.
  induction l as [|v l IH]; [done|].
  destruct (decide (NodeID v = id)) as [Heq|Hne].
  - by rewrite (filter_cons_False (λ v, NodeID v ≠ id)) by naive_solver.
  - rewrite (filter_cons_True (λ v, NodeID v ≠ id)) by done.
    by rewrite filter_cons_False.
Qed.

Lemma filter_removed_other id id0 (l : list VirtualNode) :
  id0 ≠ id →
  filter (λ v, NodeID v = id) (filter (λ v, NodeID v ≠ id0) l)
  = filter (λ v, NodeID v = id) l.
Proof.
  intros Hne. induction l as [|v l IH]; [done|].
  destruct (decide (NodeID v = id0)) as [Heq|Hne0].
  - rewrite (filter_cons_False (λ v, NodeID v ≠ id0)) by naive_solver.
    rewrite (filter_cons_False (λ v, NodeID v = id)) by congruence. done.
  - rewrite (filter_cons_True (λ v, NodeID v ≠ id0)) by done.
    destruct (decide (NodeID v = id)).
    + rewrite !(filter_cons_True (λ v, NodeID v = id)) by done. by rewrite IH.
    + rewrite !(filter_cons_False (λ v, NodeID v = id)) by done. done.
Qed.

Lemma reachable_weights_ok hr : reachable hr → weights_ok hr.
Proof.
  induction 1 as [r|hr id0 w a Hr IH|hr id0 Hr IH].
  - intros id. simpl. rewrite !lookup_empty. split_and!; [done|done|done].
  - unfold AddNode. destruct (nodeCapacity hr !! id0) eqn:Hid0; [done|].
    pose proof (reachable_ring_ok _ Hr) as [Hrep _].
    intros id. destruct (IH id) as (Hperm & Hpos & Haddr). simpl.
    rewrite sort_slice_perm, filter_app.
    destruct (decide (id0 = id)) as [<-|Hne].
    + rewrite !lookup_insert_eq. rewrite Hid0 in Hperm.
      split_and!.
      * by rewrite Hperm, filter_newVirtualNodes_same.
      * intros cap [= <-]. destruct (Z.ltb_spec w 1); lia.
      * done.
    + rewrite !lookup_insert_ne by done.
      rewrite filter_newVirtualNodes_other, app_nil_r by done. done.
  - unfold RemoveNode. destruct (nodeCapacity hr !! id0) eqn:Hid0; [|done].
    intros id. destruct (IH id) as (Hperm & Hpos & Haddr). simpl.
    destruct (decide (id0 = id)) as [<-|Hne].
    + rewrite !lookup_delete_eq. split_and!; [|done|done].
      by rewrite filter_removed_same.
    + rewrite !lookup_delete_ne by done. split_and!; [|done|done].
      by rewrite filter_removed_other.
Qed.

(** X2.  In every reachable ring a registered node of capacity [cap]
    has [cap >= 1] and owns exactly the [cap] virtual nodes
    [hashKey(id#0) .. hashKey(id#cap-1)]; an unregistered id owns none. *)
Theorem virtual_nodes_match_capacity hr id :
  reachable hr →
  match GetNodeCapacity id hr with
  | (cap, true) =>
      1 ≤ cap ∧
      filter (λ v, NodeID v = id) (nodes hr) ≡ₚ newVirtualNodes id cap ∧
      length (filter (λ v, NodeID v = id) (nodes hr)) = Z.to_nat cap
  | (_, false) => ∀ v, v ∈ nodes hr → NodeID v ≠ id
  end.
Proof.
  intros Hr. destruct (reachable_weights_ok hr Hr id) as (Hperm & Hpos & _).
  unfold GetNodeCapacity. destruct (nodeCapacity hr !! id) as [cap|] eqn:Hcap.
  - split_and!; [by apply Hpos|done|].
    rewrite Hperm. unfold newVirtualNodes. by rewrite length_fmap, length_seqZ.
  - intros v Hv Hid. apply Permutation_nil_r in Hperm.
    assert (v ∈ filter (λ v, NodeID v = id) (nodes hr)) as Hin
      by (by apply list_elem_of_filter).
    rewrite Hperm in Hin. by apply elem_of_nil in Hin.
Qed.

(** *** Lookup *)

Lemma Sorted_lookup_le (l : list VirtualNode) k k' v v' :
  Sorted hash_le l → (k ≤ k')%nat → l !! k = Some v → l !! k' = Some v' →
  Hash v ≤ Hash v'.
Proof.
  intros Hs. apply Sorted_StronglySorted in Hs; [|apply _].
  revert k k'. induction Hs as [|w l Hs IH Hall]; intros k k' Hle Hk Hk'.
  - by rewrite lookup_nil in Hk.
  - destruct k as [|k]; simpl in Hk.
    + injection Hk as ->. destruct k' as [|k']; simpl in Hk'.
      * injection Hk' as ->. lia.
      * rewrite Forall_forall in Hall. apply Hall.
        by eapply list_elem_of_lookup_2.
    + destruct k' as [|k']; [lia|]. simpl in Hk'.
      apply (IH k k'); [lia|done..].
Qed.

(** The binary search returns the least index at which a monotone
    predicate holds, and [n] when it holds nowhere. *)
Lemma search_loop_least fuel f i j n :
  (j - i ≤ fuel)%nat → (i ≤ j ≤ n)%nat →
  (∀ k k', (k ≤ k' < n)%nat → f k = true → f k' = true) →
  (∀ k, (k < i)%nat → f k = false) →
  (∀ k, (j ≤ k < n)%nat → f k = true) →
  (search_loop fuel f i j ≤ n)%nat ∧
  (∀ k, (k < search_loop fuel f i j)%nat → f k = false) ∧
  (∀ k, (search_loop fuel f i j ≤ k < n)%nat → f k = true).
Proof.
  revert i j. induction fuel as [|fuel IH]; intros i j Hfuel Hij Hmono Hlo Hhi;
    cbn [search_loop].
  - assert (i = j) as -> by lia. split_and!; [lia|done|done].
  - destruct (Nat.ltb_spec i j) as [Hlt|Hge].
    + pose proof (midpoint_bounds i j Hlt) as Hh.
      destruct (f ((i + j) / 2)%nat) eqn:Hf; cbn [negb].
      * apply IH; [lia|lia|done|done|].
        intros k Hk. apply (Hmono ((i + j) / 2)%nat); [lia|done].
      * apply IH; [lia|lia|done| |done].
        intros k Hk. destruct (f k) eqn:Hfk; [|done].
        rewrite (Hmono k ((i + j) / 2)%nat) in Hf; [done|lia|done].
    + assert (i = j) as -> by lia. split_and!; [lia|done|done].
Qed.

Lemma startIndex_find key hr :
  Sorted hash_le (nodes hr) →
  match list_find (λ v, hashKey key ≤ Hash v) (nodes hr) with
  | Some (i, _) => startIndex key hr = i
  | None => startIndex key hr = 0%nat
  end.
Proof.
  intros Hs. unfold startIndex.
  set (l := nodes hr) in *. set (h := hashKey key).
  set (f := λ i : nat, bool_decide (h ≤ Hash (l !!! i))).
  destruct (search_loop_least (length l) f 0 (length l) (length l))
    as (Hr & Hlo & Hhi); [lia|lia| |lia|lia|].
  { intros k k' Hk Hfk. unfold f in *. apply bool_decide_eq_true.
    apply bool_decide_eq_true in Hfk.
    pose proof (Sorted_lookup_le l k k' (l !!! k) (l !!! k') Hs) as Hle.
    etrans; [exact Hfk|]. apply Hle; [lia|..];
      apply list_lookup_lookup_total_lt; lia. }
  fold (Search (length l) f) in Hr, Hlo, Hhi.
  destruct (list_find _ l) as [[i v]|] eqn:Hfind.
  - apply list_find_Some in Hfind as (Hi & Hv & Hbefore).
    pose proof (lookup_lt_Some _ _ _ Hi) as Hilt.
    assert (f i = true) as Hfi.
    { unfold f. apply bool_decide_eq_true.
      by rewrite (list_lookup_total_correct _ _ _ Hi). }
    assert (Search (length l) f ≤ i)%nat as Hle.
    { destruct (decide (Search (length l) f ≤ i)%nat); [done|].
      rewrite Hlo in Hfi; [done|lia]. }
    destruct (Nat.leb_spec (length l) (Search (length l) f)); [lia|].
    destruct (decide (Search (length l) f = i)) as [|Hne]; [done|].
    exfalso. apply (Hbefore (Search (length l) f) (l !!! Search (length l) f)).
    + apply list_lookup_lookup_total_lt. lia.
    + lia.
    + assert (f (Search (length l) f) = true) as Hfs by (apply Hhi; lia).
      unfold f in Hfs at 1. by apply bool_decide_eq_true in Hfs.
  - destruct (Nat.leb_spec (length l) (Search (length l) f)) as [|Hlt]; [done|].
    exfalso. apply list_find_None in Hfind. rewrite Forall_forall in Hfind.
    apply (Hfind (l !!! Search (length l) f)).
    + by apply list_elem_of_lookup_total_2.
    + assert (f (Search (length l) f) = true) as Hfs by (apply Hhi; lia).
      unfold f in Hfs at 1. by apply bool_decide_eq_true in Hfs.
Qed.

Lemma GetNode_find key hr :
  reachable hr →
  match list_find (λ v, hashKey key ≤ Hash v) (nodes hr) with
  | Some (_, v) =>
      GetNode key hr = (NodeID v, default "" (nodeAddress hr !! NodeID v), true)
  | None =>
      match head (nodes hr) with
      | Some v =>
          GetNode key hr
          = (NodeID v, default "" (nodeAddress hr !! NodeID v), true)
      | None => GetNode key hr = ("", "", false)
      end
  end.
Proof.
  intros Hs%nodes_sorted. pose proof (startIndex_find key hr Hs) as Hidx.
  unfold GetNode.
  destruct (list_find _ (nodes hr)) as [[i v]|] eqn:Hfind.
  - apply list_find_Some in Hfind as (Hi & _).
    destruct (nodes hr) as [|w l] eqn:Hn; [by rewrite lookup_nil in Hi|].
    cbn [length Nat.eqb]. rewrite <-Hn in *. rewrite Hidx.
    by rewrite (list_lookup_total_correct _ _ _ Hi).
  - destruct (nodes hr) as [|w l] eqn:Hn; [done|].
    cbn [length Nat.eqb head]. rewrite <-Hn in *. rewrite Hidx.
    by rewrite Hn.
Qed.

(** X3.  In every reachable ring, [GetNode key] returns the owner (and
    its address) of the first virtual node, in ring order, whose hash is
    at least [hashKey key]; when there is none it wraps around to the
    first virtual node of the ring; on an empty ring it returns
    [ok = false]. *)
Theorem GetNode_first_at_or_after key hr :
  reachable hr →
  match list_find (λ v, hashKey key ≤ Hash v) (nodes hr) with
  | Some (_, v) =>
      GetNode key hr = (NodeID v, default "" (nodeAddress hr !! NodeID v), true)
  | None =>
      match head (nodes hr) with
      | Some v =>
          GetNode key hr
          = (NodeID v, default "" (nodeAddress hr !! NodeID v), true)
      | None => GetNode key hr = ("", "", false)
      end
  end.
Proof.
  intros Hs%nodes_sorted. pose proof (startIndex_find key hr Hs) as Hidx.
  unfold GetNode.
  destruct (list_find _ (nodes hr)) as [[i v]|] eqn:Hfind.
  - apply list_find_Some in Hfind as (Hi & _).
    destruct (nodes hr) as [|w l] eqn:Hn; [by rewrite lookup_nil in Hi|].
    cbn [length Nat.eqb]. rewrite <-Hn in *. rewrite Hidx.
    by rewrite (list_lookup_total_correct _ _ _ Hi).
  - destruct (nodes hr) as [|w l] eqn:Hn; [done|].
    cbn [length Nat.eqb head]. rewrite <-Hn in *. rewrite Hidx.
    by rewrite Hn.
Qed.

Lemma GetNode_owner_in_ring key hr :
  nodes hr ≠ [] →
  ∃ v, v ∈ nodes hr ∧
    GetNode key hr = (NodeID v, default "" (nodeAddress hr !! NodeID v), true).
Proof.
  intros Hne. pose proof (startIndex_lt key hr Hne) as Hlt.
  exists (nodes hr !!! startIndex key hr). split.
  - by apply list_elem_of_lookup_total_2.
  - unfold GetNode. destruct (nodes hr); [done|]. done.
Qed.

Lemma owner_registered hr v :
  reachable hr → v ∈ nodes hr →
  is_Some (nodeCapacity hr !! NodeID v) ∧
  ∃ addr, nodeAddress hr !! NodeID v = Some addr.
Proof.
  intros Hr Hv. pose proof (reachable_ring_ok _ Hr) as [_ Hdom].
  destruct (reachable_weights_ok hr Hr (NodeID v)) as (_ & _ & Haddr).
  assert (is_Some (nodeCapacity hr !! NodeID v)) as Hcap.
  { apply elem_of_dom. rewrite Hdom, elem_of_list_to_set.
    by apply list_elem_of_fmap_2. }
  split; [done|].
  destruct (nodeAddress hr !! NodeID v) as [addr|] eqn:Ha; [eauto|].
  destruct Hcap as [c Hc]. rewrite (proj1 Haddr eq_refl) in Hc. done.
Qed.

Lemma GetNode_registered key hr :
  reachable hr →
  ((GetNode key hr).2 = false ↔ GetNodeCount hr = 0%nat) ∧
  ∀ id addr ok, GetNode key hr = (id, addr, ok) →
    if ok then NodeExists id hr = true ∧ GetNodeAddress id hr = Some addr
    else id = "" ∧ addr = "".
Proof.
  intros Hr. rewrite (ring_ok_count hr (reachable_ring_ok _ Hr)).
  destruct (nodes hr) as [|v0 l] eqn:Hn.
  - unfold GetNode. rewrite Hn. simpl. split; [done|].
    by intros id addr ok [= <- <- <-].
  - destruct (GetNode_owner_in_ring key hr) as (v & Hv & ->); [by rewrite Hn|].
    rewrite <-Hn. split.
    + simpl. split; [done|]. intros Hz. apply size_empty_inv in Hz.
      assert (NodeID v ∈ (list_to_set (NodeID <$> nodes hr) : gset string)) as Hin
        by (rewrite elem_of_list_to_set; by apply list_elem_of_fmap_2).
      rewrite Hz in Hin. by apply not_elem_of_empty in Hin.
    + intros id addr ok [= <- <- <-].
      destruct (owner_registered hr v Hr Hv) as (Hcap & a & Ha).
      unfold NodeExists, GetNodeAddress. rewrite Ha. simpl.
      split; [by apply bool_decide_eq_true|done].
Qed.

(** X4.  In every reachable ring [GetNode] answers [ok = false] exactly
    when no node is registered, and otherwise names a registered node
    together with the address it was registered with. *)
Theorem GetNode_returns_registered key hr :
  reachable hr →
  ((GetNode key hr).2 = false ↔ GetNodeCount hr = 0%nat) ∧
  ∀ id addr ok, GetNode key hr = (id, addr, ok) →
    if ok then NodeExists id hr = true ∧ GetNodeAddress id hr = Some addr
    else id = "" ∧ addr = "".
Proof.
  intros Hr. rewrite (ring_ok_count hr (reachable_ring_ok _ Hr)).
  destruct (nodes hr) as [|v0 l] eqn:Hn.
  - unfold GetNode. rewrite Hn. simpl. split; [done|].
    by intros id addr ok [= <- <- <-].
  - destruct (GetNode_owner_in_ring key hr) as (v & Hv & ->); [by rewrite Hn|].
    rewrite <-Hn. split.
    + simpl. split; [done|]. intros Hz. apply size_empty_inv in Hz.
      assert (NodeID v ∈ (list_to_set (NodeID <$> nodes hr) : gset string)) as Hin
        by (rewrite elem_of_list_to_set; by apply list_elem_of_fmap_2).
      rewrite Hz in Hin. by apply not_elem_of_empty in Hin.
    + intros id addr ok [= <- <- <-].
      destruct (owner_registered hr v Hr Hv) as (Hcap & a & Ha).
      unfold NodeExists, GetNodeAddress. rewrite Ha. simpl.
      split; [by apply bool_decide_eq_true|done].
Qed.

Lemma list_find_filter_Some {A} (P Q : A → Prop) `{∀ x, Decision (P x)}
    `{∀ x, Decision (Q x)} (l : list A) i v :
  list_find P l = Some (i, v) → Q v →
  ∃ j, list_find P (filter Q l) = Some (j, v).
Proof.
  revert i. induction l as [|x l IH]; intros i; [done|].
  cbn [list_find]. destruct (decide (P x)) as [HPx|HPx].
  - intros [= <- <-] HQ. rewrite filter_cons_True by done.
    exists 0%nat. cbn [list_find]. by rewrite decide_True.
  - destruct (list_find P l) as [[i' v']|] eqn:Hfind; [|done].
    simpl. intros [= <- <-] HQ. destruct (IH i' eq_refl HQ) as [j Hj].
    rewrite filter_cons. destruct (decide (Q x)).
    + exists (S j). cbn [list_find]. rewrite decide_False by done.
      by rewrite Hj.
    + eauto.
Qed.

Lemma list_find_filter_None {A} (P Q : A → Prop) `{∀ x, Decision (P x)}
    `{∀ x, Decision (Q x)} (l : list A) :
  list_find P l = None → list_find P (filter Q l) = None.
Proof.
  rewrite !list_find_None, !Forall_forall.
  intros Hall x [_ Hx]%list_elem_of_filter. by apply Hall.
Qed.

(** X5.  Removing a node remaps only its own keys: in a reachable ring,
    a key owned by another node has the same owner, at the same address,
    after [RemoveNode]. *)
Theorem RemoveNode_keeps_other_owners key id hr id' addr :
  reachable hr → GetNode key hr = (id', addr, true) → id' ≠ id →
  GetNode key (RemoveNode id hr) = (id', addr, true).
Proof.
  intros Hr Hget Hne.
  pose proof (GetNode_find key hr Hr) as Hbefore.
  pose proof (GetNode_find key _ (reachable_remove hr id Hr)) as Hafter.
  unfold RemoveNode in *. destruct (nodeCapacity hr !! id) eqn:Hid; [|done].
  simpl in Hafter.
  destruct (list_find _ (nodes hr)) as [[i v]|] eqn:Hfind.
  - rewrite Hget in Hbefore. injection Hbefore as -> ->.
    destruct (list_find_filter_Some _ (λ vNode, NodeID vNode ≠ id) _ _ _ Hfind Hne)
      as [j Hj].
    rewrite Hj in Hafter. rewrite Hafter. by rewrite lookup_delete_ne.
  - rewrite (list_find_filter_None _ (λ vNode, NodeID vNode ≠ id) _ Hfind) in Hafter.
    destruct (nodes hr) as [|v l] eqn:Hn; simpl in Hbefore;
      rewrite Hget in Hbefore; [done|].
    injection Hbefore as -> ->.
    rewrite filter_cons_True in Hafter by done. simpl in Hafter.
    rewrite filter_cons_True by done.
    rewrite Hafter. by rewrite lookup_delete_ne.
Qed.

(** X6.  After [RemoveNode id] the node is gone from a reachable ring:
    [NodeExists] is false, no virtual node of it is left, and [GetNode]
    never names it. *)
Theorem RemoveNode_node_is_gone key id hr :
  reachable hr →
  NodeExists id (RemoveNode id hr) = false ∧
  (∀ v, v ∈ nodes (RemoveNode id hr) → NodeID v ≠ id) ∧
  (∀ id' addr, GetNode key (RemoveNode id hr) = (id', addr, true) → id' ≠ id).
Proof.
  intros Hr. pose proof (reachable_remove hr id Hr) as Hr'.
  assert (nodeCapacity (RemoveNode id hr) !! id = None) as Hgone.
  { unfold RemoveNode. destruct (nodeCapacity hr !! id) eqn:Hid; [|done].
    simpl. apply lookup_delete_eq. }
  split_and!.
  - unfold NodeExists. rewrite Hgone. apply bool_decide_eq_false. by intros [? ?].
  - intros v Hv Heq.
    destruct (owner_registered _ v Hr' Hv) as ([c Hc] & _). congruence.
  - intros id' addr Hget ->.
    destruct (GetNode_registered key _ Hr') as [_ Hreg].
    destruct (Hreg _ _ _ Hget) as [Hex _].
    unfold NodeExists in Hex. rewrite Hgone in Hex.
    apply bool_decide_eq_true in Hex. by destruct Hex.
Qed.

(** *** Adding a node *)

Lemma first_at_or_after_least (l : list VirtualNode) h i v w :
  Sorted hash_le l → list_find (λ v, h ≤ Hash v) l = Some (i, v) →
  w ∈ l → h ≤ Hash w → Hash v ≤ Hash w.
Proof.
  intros Hs (Hi & Hv & Hbefore)%list_find_Some
    [j Hj]%list_elem_of_lookup_1 Hw.
  destruct (decide (j < i)%nat) as [Hlt|Hge].
  - by destruct (Hbefore j w Hj Hlt).
  - apply (Sorted_lookup_le l i j); [done|lia|done..].
Qed.

Lemma head_least (l : list VirtualNode) v w :
  Sorted hash_le l → head l = Some v → w ∈ l → Hash v ≤ Hash w.
Proof.
  intros Hs Hv [j Hj]%list_elem_of_lookup_1. rewrite head_lookup in Hv.
  apply (Sorted_lookup_le l 0 j); [done|lia|done..].
Qed.

Lemma newVirtualNodes_NodeID id cap v : v ∈ newVirtualNodes id cap → NodeID v = id.
Proof. unfold newVirtualNodes. by intros (i & -> & _)%list_elem_of_fmap. Qed.

(** X7.  Adding a node moves keys only to the new node: when no two
    virtual nodes of the enlarged ring share a hash, a key that the
    enlarged ring gives to an old node was already owned by that node. *)
Theorem AddNode_moves_keys_only_to_new_node key id w a hr id' addr :
  reachable hr →
  NoDup (Hash <$> nodes (AddNode id w a hr)) →
  GetNode key (AddNode id w a hr) = (id', addr, true) → id' ≠ id →
  GetNode key hr = (id', addr, true).
Proof.
  intros Hr Hnd Hget Hne.
  pose proof (nodes_sorted hr Hr) as Hs.
  pose proof (nodes_sorted _ (reachable_add hr id w a Hr)) as Hs'.
  pose proof (GetNode_find key hr Hr) as Hbefore.
  pose proof (GetNode_find key _ (reachable_add hr id w a Hr)) as Hafter.
  unfold AddNode in *. destruct (nodeCapacity hr !! id) eqn:Hid; [done|].
  simpl in *. set (cap := if w <? 1 then replicas hr else w) in *.
  set (L' := sort_slice (nodes hr ++ newVirtualNodes id cap)) in *.
  assert (∀ v, v ∈ L' ↔ v ∈ nodes hr ∨ v ∈ newVirtualNodes id cap) as HL'.
  { intros v. unfold L'. by rewrite sort_slice_perm, elem_of_app. }
  assert (∀ v v', v ∈ L' → v' ∈ L' → Hash v ≤ Hash v' → Hash v' ≤ Hash v → v = v')
    as Huniq.
  { intros v v' Hv Hv' H1 H2. apply (CacheFacts.NoDup_fmap_eq Hash L'); [done..|lia]. }
  set (h := hashKey key) in *.
  destruct (list_find _ L') as [[i' v']|] eqn:Hfind'.
  - rewrite Hget in Hafter. injection Hafter as -> Haddr.
    rewrite lookup_insert_ne in Haddr by done.
    pose proof Hfind' as (Hi' & Hv' & _)%list_find_Some.
    assert (v' ∈ nodes hr) as Hin.
    { apply list_elem_of_lookup_2, HL' in Hi' as [?|Hnew]; [done|].
      by apply newVirtualNodes_NodeID in Hnew. }
    destruct (list_find (λ v, h ≤ Hash v) (nodes hr)) as [[i v]|] eqn:Hfind.
    + pose proof Hfind as (Hi & Hv & _)%list_find_Some.
      apply list_elem_of_lookup_2 in Hi.
      assert (v = v') as ->.
      { apply Huniq.
        - apply HL'. by left.
        - by eapply list_elem_of_lookup_2.
        - eapply first_at_or_after_least; [exact Hs|exact Hfind|exact Hin|exact Hv'].
        - eapply first_at_or_after_least; [exact Hs'|exact Hfind'| |exact Hv].
          apply HL'. by left. }
      by rewrite Hbefore, <-Haddr.
    + apply list_find_None in Hfind. rewrite Forall_forall in Hfind.
      by destruct (Hfind v' Hin).
  - destruct (head L') as [v'|] eqn:Hhead'; [|by rewrite Hget in Hafter].
    rewrite Hget in Hafter. injection Hafter as -> Haddr.
    rewrite lookup_insert_ne in Haddr by done.
    assert (v' ∈ L') as Hin'.
    { rewrite head_lookup in Hhead'. by eapply list_elem_of_lookup_2. }
    assert (v' ∈ nodes hr) as Hin.
    { apply HL' in Hin' as [?|Hnew]; [done|].
      by apply newVirtualNodes_NodeID in Hnew. }
    apply list_find_None in Hfind'. rewrite Forall_forall in Hfind'.
    destruct (list_find (λ v, h ≤ Hash v) (nodes hr)) as [[i v]|] eqn:Hfind.
    + pose proof Hfind as (Hi & Hv & _)%list_find_Some.
      apply list_elem_of_lookup_2 in Hi. destruct (Hfind' v); [|done].
      apply HL'. by left.
    + destruct (head (nodes hr)) as [v|] eqn:Hhead.
      * assert (v ∈ nodes hr) as Hvin.
        { rewrite head_lookup in Hhead. by eapply list_elem_of_lookup_2. }
        assert (v = v') as ->.
        { apply Huniq; [apply HL'; by left|done| |].
          - eapply head_least; [exact Hs|exact Hhead|exact Hin].
          - eapply head_least; [exact Hs'|exact Hhead'|]. apply HL'. by left. }
        by rewrite Hbefore, <-Haddr.
      * destruct (nodes hr); [by apply elem_of_nil in Hin|done].
Qed.

Lemma sorted_perm_unique (l1 l2 : list VirtualNode) :
  Sorted hash_le l1 → Sorted hash_le l2 → l1 ≡ₚ l2 → NoDup (Hash <$> l1) →
  l1 = l2.
Proof.
  intros Hs1 Hs2 Hp Hnd.
  apply (StronglySorted_unique_strong hash_le).
  - intros v v' Hv Hv' H1 H2. rewrite <-Hp in Hv'.
    apply (CacheFacts.NoDup_fmap_eq Hash l1); [done..|]. unfold hash_le in *. lia.
  - apply Sorted_StronglySorted; [apply _|done].
  - apply Sorted_StronglySorted; [apply _|done].
  - done.
Qed.

(** X8.  Registering a fresh node in a reachable ring adds one node and
    as many virtual nodes as its capacity (the default when the capacity
    given is below 1) and records its address; removing it again
    restores the two maps and the virtual nodes up to the order of equal
    hashes, and exactly when the hashes of the enlarged ring are
    pairwise distinct. *)
Theorem AddNode_then_RemoveNode id w a hr :
  reachable hr → NodeExists id hr = false →
  let cap := if w <? 1 then replicas hr else w in
  let hr1 := AddNode id w a hr in
  let hr2 := RemoveNode id hr1 in
  GetNodeCount hr1 = S (GetNodeCount hr) ∧
  GetVirtualNodeCount hr1 = (GetVirtualNodeCount hr + Z.to_nat cap)%nat ∧
  GetNodeCapacity id hr1 = (cap, true) ∧
  GetNodeAddress id hr1 = Some a ∧
  nodeCapacity hr2 = nodeCapacity hr ∧
  nodeAddress hr2 = nodeAddress hr ∧
  replicas hr2 = replicas hr ∧
  nodes hr2 ≡ₚ nodes hr ∧
  (NoDup (Hash <$> nodes hr1) → hr2 = hr).
Proof.
  intros Hr Hex cap hr1 hr2.
  assert (nodeCapacity hr !! id = None) as Hid.
  { unfold NodeExists in Hex. apply bool_decide_eq_false in Hex.
    destruct (nodeCapacity hr !! id); [destruct Hex; eauto|done]. }
  destruct (reachable_weights_ok hr Hr id) as (Hperm & _ & Haddr).
  rewrite Hid in Hperm. apply Permutation_nil_r in Hperm.
  assert (nodeAddress hr !! id = None) as Hida by (by apply Haddr).
  assert (hr1 = {| nodes := sort_slice (nodes hr ++ newVirtualNodes id cap);
                   nodeCapacity := <[id := cap]> (nodeCapacity hr);
                   nodeAddress := <[id := a]> (nodeAddress hr);
                   replicas := replicas hr |}) as Hhr1.
  { unfold hr1, AddNode. by rewrite Hid. }
  assert (filter (λ v, NodeID v ≠ id) (nodes hr) = nodes hr) as Hkeep.
  { clear -Hperm. induction (nodes hr) as [|v l IH]; [done|].
    destruct (decide (NodeID v = id)) as [Heq|Hne].
    - by rewrite filter_cons_True in Hperm.
    - rewrite filter_cons_False in Hperm by done.
      rewrite filter_cons_True by done. by rewrite IH. }
  assert (filter (λ v, NodeID v ≠ id) (newVirtualNodes id cap) = []) as Hdrop.
  { unfold newVirtualNodes. induction (seqZ 0 cap) as [|i l IH]; [done|].
    rewrite fmap_cons, filter_cons_False by naive_solver. done. }
  assert (hr2 = {| nodes := filter (λ v, NodeID v ≠ id) (nodes hr1);
                   nodeCapacity := nodeCapacity hr;
                   nodeAddress := nodeAddress hr;
                   replicas := replicas hr |}) as Hhr2.
  { unfold hr2, RemoveNode. rewrite Hhr1 at 1. simpl.
    rewrite lookup_insert_eq. rewrite Hhr1. simpl.
    by rewrite !delete_insert_id by done. }
  assert (nodes hr2 ≡ₚ nodes hr) as Hnodes.
  { rewrite Hhr2, Hhr1. simpl.
    by rewrite sort_slice_perm, filter_app, Hkeep, Hdrop, app_nil_r. }
  split_and!.
  - unfold GetNodeCount. rewrite Hhr1. simpl. by rewrite map_size_insert_None.
  - unfold GetVirtualNodeCount. rewrite Hhr1. simpl.
    rewrite sort_slice_perm, length_app. unfold newVirtualNodes.
    by rewrite length_fmap, length_seqZ.
  - unfold GetNodeCapacity. rewrite Hhr1. simpl. by rewrite lookup_insert_eq.
  - unfold GetNodeAddress. rewrite Hhr1. simpl. by rewrite lookup_insert_eq.
  - by rewrite Hhr2.
  - by rewrite Hhr2.
  - by rewrite Hhr2.
  - done.
  - intros Hnd. rewrite Hhr2. destruct hr as [n c ad r]. simpl in *. f_equal.
    symmetry. apply sorted_perm_unique.
    + by apply (nodes_sorted _ Hr).
    + apply Sorted_filter_hash.
      apply (nodes_sorted _ (reachable_add _ id w a Hr)).
    + rewrite Hhr2 in Hnodes. simpl in Hnodes. by symmetry.
    + rewrite Hhr2 in Hnodes. simpl in Hnodes. rewrite <-Hnodes.
      eapply sublist_NoDup; [exact Hnd|].
      apply fmap_sublist, sublist_filter.
Qed.

(** *** Successors and enumeration *)

Lemma GetNodes_loop_entries (Q : NodeInfo → Prop) hr s count idxs seen result :
  (∀ i, Q {| InfoNodeID := visit hr s i;
             InfoAddress := default "" (nodeAddress hr !! visit hr s i) |}) →
  Forall Q result → Forall Q (GetNodes_loop hr s count idxs seen result).
Proof.
  intros HQ. revert seen result.
  induction idxs as [|i idxs IH]; intros seen result Hres; [done|].
  cbn [GetNodes_loop]. fold (visit hr s i).
  destruct (Z.of_nat (length result) <? count); [|done].
  destruct (negb _); apply IH; [|done].
  apply Forall_app. split; [done|]. by apply Forall_singleton.
Qed.

(** X9.  [GetNodes] on a ring without nodes returns no successor
    whatever the count; on a ring with nodes a negative count panics;
    and every successor it returns in a reachable ring is a registered
    node paired with the address it was registered with. *)
Theorem GetNodes_edges_and_entries key count hr :
  reachable hr →
  (GetNodeCount hr = 0%nat → GetNodes key count hr = Ok []) ∧
  (GetNodeCount hr ≠ 0%nat → count < 0 → GetNodes key count hr = Panic) ∧
  (∀ successors, GetNodes key count hr = Ok successors →
     ∀ info, info ∈ successors →
       NodeExists (InfoNodeID info) hr = true ∧
       GetNodeAddress (InfoNodeID info) hr = Some (InfoAddress info)).
Proof.
  intros Hr. rewrite (ring_ok_count hr (reachable_ring_ok _ Hr)).
  unfold GetNodes. destruct (nodes hr) as [|v0 l] eqn:Hn.
  - cbn [length Nat.eqb]. split_and!; [done|done|].
    intros ? [= <-] info Hin. by apply elem_of_nil in Hin.
  - rewrite <-Hn. assert (nodes hr ≠ []) as Hne by (by rewrite Hn).
    assert ((length (nodes hr) =? 0)%nat = false) as ->
      by (apply Nat.eqb_neq; rewrite Hn; simpl; lia).
    split_and!.
    + intros Hz. apply size_empty_inv in Hz.
      assert (NodeID v0 ∈ (list_to_set (NodeID <$> nodes hr) : gset string)) as Hin.
      { rewrite elem_of_list_to_set, Hn. apply list_elem_of_fmap_2. by left. }
      rewrite Hz in Hin. by apply not_elem_of_empty in Hin.
    + intros _ Hneg. by destruct (Z.ltb_spec count 0); [|lia].
    + intros successors.
      destruct ((count <? 0) || (slice_limit <? count)); [done|]. intros [= <-].
      apply Forall_forall. apply GetNodes_loop_entries; [|constructor].
      intros i. simpl. pose proof (startIndex_lt key hr Hne) as Hlt.
      assert (nodes hr !!! ((startIndex key hr + i) mod length (nodes hr))%nat
              ∈ nodes hr) as Hv.
      { apply list_elem_of_lookup_total_2, Nat.mod_upper_bound. lia. }
      destruct (owner_registered hr _ Hr Hv) as (Hcap & a & Ha).
      unfold NodeExists, GetNodeAddress, visit. rewrite Ha. simpl.
      split; [by apply bool_decide_eq_true|done].
Qed.

(** X10.  [GetAllNodes] lists every registered node exactly once, in
    whatever order the map is iterated. *)
Theorem GetAllNodes_lists_registered hr ids :
  GetAllNodes_returns hr ids →
  NoDup ids ∧ length ids = GetNodeCount hr ∧
  ∀ id, id ∈ ids ↔ NodeExists id hr = true.
Proof.
  intros (order & Hp & ->). unfold GetAllNodes.
  assert (∀ acc : list string,
            foldl (λ nodes nodeID, nodes ++ [nodeID]) acc order = acc ++ order)
    as Hfold.
  { clear. induction order as [|k order IH]; intros acc; simpl.
    - by rewrite app_nil_r.
    - by rewrite IH, <-app_assoc. }
  rewrite Hfold. simpl. split_and!.
  - rewrite Hp. apply NoDup_fst_map_to_list.
  - unfold GetNodeCount. by rewrite Hp, length_fmap, length_map_to_list.
  - intros id. unfold NodeExists. rewrite bool_decide_eq_true.
    rewrite Hp, list_elem_of_fmap. split.
    + intros ([k c] & -> & Hin%elem_of_map_to_list). eauto.
    + intros [c Hc]. exists (id, c). split; [done|]. by apply elem_of_map_to_list.
Qed.

End more.

Lemma reachable_ring_sorted_witness : Sorted hash_le (nodes ring3).
Proof. apply reachable_ring_sorted. exact ring3_reachable. Defined.

Lemma virtual_nodes_match_capacity_witness :
  length (filter (λ v, NodeID v = "server-b") (nodes ring3)) = 10%nat.
Proof.
  pose proof (virtual_nodes_match_capacity ring3 "server-b" ring3_reachable) as Hw.
  assert (GetNodeCapacity "server-b" ring3 = (10, true)) as Hcap
    by (vm_compute; reflexivity).
  rewrite Hcap in Hw. destruct Hw as (_ & _ & ->). reflexivity.
Defined.

Lemma GetNode_first_at_or_after_witness :
  GetNode "chat-123" ring3 = ("server-a", "localhost:50051", true).
Proof.
  pose proof (GetNode_first_at_or_after "chat-123" ring3 ring3_reachable) as Hw.
  assert (list_find (λ v, hashKey "chat-123" ≤ Hash v) (nodes ring3)
          = Some (12%nat, nodes ring3 !!! 12%nat)) as Hfind
    by (vm_compute; reflexivity).
  rewrite Hfind in Hw. rewrite Hw. vm_compute. reflexivity.
Defined.

Lemma GetNode_returns_registered_witness :
  (GetNode "chat-123" ring3).2 = false ↔ GetNodeCount ring3 = 0%nat.
Proof.
  exact (proj1 (GetNode_returns_registered "chat-123" ring3 ring3_reachable)).
Defined.

Lemma RemoveNode_keeps_other_owners_witness :
  GetNode "chat-123" (RemoveNode "server-b" ring3)
  = ("server-a", "localhost:50051", true).
Proof.
  apply (RemoveNode_keeps_other_owners "chat-123" "server-b" ring3).
  - exact ring3_reachable.
  - vm_compute. reflexivity.
  - discriminate.
Defined.

Lemma RemoveNode_node_is_gone_witness :
  NodeExists "server-a" (RemoveNode "server-a" ring3) = false.
Proof.
  exact (proj1 (RemoveNode_node_is_gone "chat-123" "server-a" ring3
                  ring3_reachable)).
Defined.

Lemma ring2_reachable :
  reachable (AddNode "server-b" 10 "localhost:50052"
               (AddNode "server-a" 10 "localhost:50051" (NewHashRing 10))).
Proof. repeat constructor. Qed.

Lemma ring3_hashes_distinct : NoDup (Hash <$> nodes ring3).
Proof. apply (bool_decide_eq_true_1 _). vm_compute. reflexivity. Qed.

Lemma AddNode_moves_keys_only_to_new_node_witness :
  GetNode "chat-123"
    (AddNode "server-b" 10 "localhost:50052"
       (AddNode "server-a" 10 "localhost:50051" (NewHashRing 10)))
  = ("server-a", "localhost:50051", true).
Proof.
  apply (AddNode_moves_keys_only_to_new_node "chat-123" "server-c" 10
           "localhost:50053").
  - exact ring2_reachable.
  - exact ring3_hashes_distinct.
  - vm_compute. reflexivity.
  - discriminate.
Defined.

Lemma AddNode_then_RemoveNode_witness :
  GetVirtualNodeCount ring3 = 30%nat ∧
  RemoveNode "server-c" ring3
  = AddNode "server-b" 10 "localhost:50052"
      (AddNode "server-a" 10 "localhost:50051" (NewHashRing 10)).
Proof.
  destruct (AddNode_then_RemoveNode "server-c" 10 "localhost:50053" _
              ring2_reachable) as (_ & Hcount & _ & _ & _ & _ & _ & _ & Hback).
  - vm_compute. reflexivity.
  - split.
    + etrans; [exact Hcount|]. vm_compute. reflexivity.
    + apply Hback. exact ring3_hashes_distinct.
Defined.

Lemma GetNodes_edges_and_entries_witness :
  GetNodes "chat-123" (-1) ring3 = Panic ∧
  GetNodes "chat-123" (-1) (NewHashRing 10) = Ok [].
Proof.
  split.
  - apply (GetNodes_edges_and_entries "chat-123" (-1) ring3 ring3_reachable).
    + vm_compute. discriminate.
    + lia.
  - apply (GetNodes_edges_and_entries "chat-123" (-1) (NewHashRing 10)
             (reachable_new 10)).
    vm_compute. reflexivity.
Defined.

Lemma ring3_enumeration :
  GetAllNodes_returns ring3 ["server-a"; "server-b"; "server-c"].
Proof.
  exists ["server-a"; "server-b"; "server-c"]. split; [|done].
  apply NoDup_Permutation.
  - apply (bool_decide_eq_true_1 _). vm_compute. reflexivity.
  - apply NoDup_fst_map_to_list.
  - intros id. rewrite list_elem_of_fmap. split.
    + intros Hin. assert (is_Some (nodeCapacity ring3 !! id)) as [c Hc].
      { repeat (apply elem_of_cons in Hin as [->|Hin]);
          [vm_compute; eauto..|by apply elem_of_nil in Hin]. }
      exists (id, c). split; [done|]. by apply elem_of_map_to_list.
    + intros ([k c] & -> & Hin%elem_of_map_to_list). simpl.
      destruct (decide (k ∈ ["server-a"; "server-b"; "server-c"])) as [|Hout];
        [done|].
      exfalso. apply (elem_of_dom_2 (nodeCapacity ring3)) in Hin.
      rewrite (proj2 (reachable_ring_ok _ ring3_reachable)) in Hin.
      apply elem_of_list_to_set, list_elem_of_fmap in Hin as (v & -> & Hv).
      apply Hout. clear Hout.
      assert (Forall (λ v, NodeID v ∈ ["server-a"; "server-b"; "server-c"])
                (nodes ring3)) as Hall.
      { apply (bool_decide_eq_true_1 _). vm_compute. reflexivity. }
      rewrite Forall_forall in Hall. by apply Hall.
Qed.

Lemma GetAllNodes_lists_registered_witness :
  length ["server-a"; "server-b"; "server-c"] = GetNodeCount ring3.
Proof.
  exact (proj1 (proj2 (GetAllNodes_lists_registered ring3 _ ring3_enumeration))).
Defined.

End RingMore.


(** ** The cache: the LRU discipline *)

Module CacheMore.
Import Cache CacheFacts.

(** *** Lists *)

Lemma Remove_last l b :
  NoDup (eid <$> l) → last l = Some b → Remove (eid b) l = removelast l.
Proof.
  intros Hnd [l' ->]%last_Some. rewrite removelast_last.
  rewrite fmap_app in Hnd. apply NoDup_app in Hnd as (_ & Hdis & _).
  unfold Remove. rewrite filter_app. fold (Remove (eid b) l').
  rewrite Remove_notin.
  - rewrite filter_cons_False, filter_nil, app_nil_r by naive_solver. done.
  - intros Hin. apply (Hdis _ Hin). simpl. by left.
Qed.

Lemma fmap_removelast {A B} (f : A → B) (l : list A) :
  f <$> removelast l = removelast (f <$> l).
Proof.
  induction l as [|x [|y l] IH]; [done|done|].
  change (f <$> x :: removelast (y :: l) = f x :: removelast (f <$> y :: l)).
  rewrite fmap_cons. by f_equal.
Qed.

Lemma fmap_filter_agree {A B} (f : A → B) (P : A → Prop) (Q : B → Prop)
    `{∀ x, Decision (P x)} `{∀ y, Decision (Q y)} (l : list A) :
  (∀ x, x ∈ l → P x ↔ Q (f x)) → f <$> filter P l = filter Q (f <$> l).
Proof.
  induction l as [|x l IH]; intros Hagree; [done|].
  assert (P x ↔ Q (f x)) as Hx by (apply Hagree; by left).
  assert (f <$> filter P l = filter Q (f <$> l)) as IH'
    by (apply IH; intros y Hy; apply Hagree; by right).
  rewrite fmap_cons. destruct (decide (P x)) as [HP|HP].
  - rewrite !filter_cons_True by naive_solver. by rewrite fmap_cons, IH'.
  - rewrite !filter_cons_False by naive_solver. done.
Qed.

Lemma listIDs_Remove m l id s e :
  tier_ok m l → m !! id = Some {| session := s; element := e |} →
  listIDs (Remove e l) = filter (λ k, k ≠ id) (listIDs l).
Proof.
  intros (Hn1 & Hn2 & Hm) Hid. unfold listIDs, Remove.
  assert ({| eid := e; Value := id |} ∈ l) as Hin by (apply Hm; eauto).
  apply fmap_filter_agree. intros x Hx. split.
  - intros Hne Heq. apply Hne.
    by rewrite (NoDup_fmap_eq Value l _ _ Hn2 Hx Hin Heq).
  - intros Hne Heq. apply Hne.
    by rewrite (NoDup_fmap_eq eid l _ _ Hn1 Hx Hin Heq).
Qed.

Lemma listIDs_MoveToFront m l id s e :
  tier_ok m l → m !! id = Some {| session := s; element := e |} →
  listIDs (MoveToFront e l) = id :: filter (λ k, k ≠ id) (listIDs l).
Proof.
  intros Hok Hid. pose proof Hok as (Hn1 & Hn2 & Hm).
  assert ({| eid := e; Value := id |} ∈ l) as Hin by (apply Hm; eauto).
  unfold MoveToFront.
  destruct (list_find (λ x, eid x = e) l) as [[i x]|] eqn:Hfind.
  - apply list_find_Some in Hfind as (Hi & Hx & _).
    apply list_elem_of_lookup_2 in Hi.
    rewrite (NoDup_fmap_eq eid l _ _ Hn1 Hi Hin Hx).
    unfold listIDs at 1. rewrite fmap_cons. simpl. f_equal.
    by eapply listIDs_Remove.
  - apply list_find_None in Hfind. rewrite Forall_forall in Hfind.
    by destruct (Hfind _ Hin).
Qed.

Lemma tier_ok_ids m l id : tier_ok m l → id ∈ listIDs l ↔ is_Some (m !! id).
Proof.
  intros Hok. rewrite <-elem_of_dom, (tier_ok_dom m l Hok).
  by rewrite elem_of_list_to_set.
Qed.

Lemma tier_ok_len_ids m l : tier_ok m l → len m = Z.of_nat (length (listIDs l)).
Proof. intros Hok. unfold listIDs. by rewrite length_fmap, (tier_ok_len m l). Qed.

Lemma filter_absent (id : string) (l : list string) :
  id ∉ l → filter (λ k, k ≠ id) l = l.
Proof.
  induction l as [|k l IH]; [done|]. intros [Hk Hl]%not_elem_of_cons.
  rewrite filter_cons_True by done. by rewrite IH.
Qed.

(** *** What each move does to the two lists and to the counters *)

Section exact.
Context (P : nat → Prop).

Lemma evictFromL2_exact c :
  cache_ok P c → l2List c ≠ [] →
  listIDs (l2List (evictFromL2 c)) = removelast (listIDs (l2List c)) ∧
  stats (evictFromL2 c) = incrEvictions (stats c).
Proof.
  intros (_ & (Hn1 & _) & _) Hne. unfold evictFromL2, Back.
  apply last_is_Some in Hne as [back Hback]. rewrite Hback. simpl.
  split; [|done]. rewrite (Remove_last _ _ Hn1 Hback).
  apply fmap_removelast.
Qed.

Lemma evictLoop_exact fuel c c' :
  cache_ok P c → 1 ≤ l2Capacity c → evictLoop fuel c = Ok c' →
  c' = if len (l2Cache c) <? l2Capacity c then c else evictFromL2 c.
Proof.
  intros Hok Hcap. destruct fuel as [|fuel]; [done|]. rewrite evictLoop_S.
  destruct (Z.leb_spec (l2Capacity c) (len (l2Cache c))) as [Hfull|Hfree];
    destruct (Z.ltb_spec (len (l2Cache c)) (l2Capacity c)); try lia.
  - intros Hrun. pose proof Hok as (_ & H2 & _ & _ & Hl2 & _).
    destruct (evictFromL2_ok P c Hok) as (_ & (_ & Hc2 & _) & _ & _ & Hlen).
    apply evictLoop_free in Hrun; [done|].
    rewrite Hc2, Hlen; [lia|]. eapply tier_nonempty; [done|lia].
  - by intros [= <-].
Qed.

Lemma addToL2_exact fuel id s c c' :
  cache_ok P c → 1 ≤ l2Capacity c → addToL2 fuel id s c = Ok c' →
  listIDs (l2List c') = spec_demote (l2Capacity c) id (listIDs (l2List c)) ∧
  Evictions (stats c') =
    (if len (l2Cache c) <? l2Capacity c then Evictions (stats c)
     else incr64 (Evictions (stats c))) ∧
  Demotions (stats c') = Demotions (stats c) ∧
  l1List c' = l1List c ∧ l1Cache c' = l1Cache c.
Proof.
  intros Hok Hcap. unfold addToL2.
  destruct (evictLoop fuel c) as [c1| |] eqn:Hloop; simpl; [|done..].
  intros [= <-]. apply (evictLoop_exact _ _ _ Hok Hcap) in Hloop.
  pose proof Hok as (_ & H2 & _). unfold spec_demote.
  rewrite <-(tier_ok_len_ids _ _ H2).
  destruct (Z.ltb_spec (len (l2Cache c)) (l2Capacity c)) as [Hfree|Hfull]; subst c1.
  - simpl. done.
  - assert (l2List c ≠ []) as Hne by (eapply tier_nonempty; [done|lia]).
    destruct (evictFromL2_exact c Hok Hne) as [Hids Hst].
    destruct (evictFromL2_ok P c Hok) as (_ & _ & Hm & Hl & _).
    simpl. rewrite Hids, Hst. simpl. split_and!; done.
Qed.

Lemma demoteFromL1_exact fuel c c' :
  cache_ok P c → 1 ≤ l2Capacity c → l1List c ≠ [] →
  demoteFromL1 fuel c = Ok c' →
  ∃ x, last (listIDs (l1List c)) = Some x ∧
    listIDs (l1List c') = removelast (listIDs (l1List c)) ∧
    listIDs (l2List c') = spec_demote (l2Capacity c) x (listIDs (l2List c)) ∧
    Demotions (stats c') = incr64 (Demotions (stats c)) ∧
    Evictions (stats c') =
      (if len (l2Cache c) <? l2Capacity c then Evictions (stats c)
       else incr64 (Evictions (stats c))).
Proof.
  intros Hok Hcap Hne. unfold demoteFromL1.
  apply last_is_Some in Hne as [back Hback]. unfold Back. rewrite Hback.
  pose proof Hok as (H1 & _).
  destruct (tier_ok_back _ _ _ H1 Hback) as [s Hs]. rewrite Hs.
  destruct (demote_removed_ok P c back s Hok Hback Hs) as (Hok1 & _).
  intros Hadd. apply (addToL2_exact _ _ _ _ _ Hok1 Hcap) in Hadd.
  destruct Hadd as (Hids2 & Hev & Hdem & Hl1 & _). simpl in *.
  exists (Value back). split_and!; try done.
  - unfold listIDs. by rewrite fmap_last, Hback.
  - rewrite Hl1. destruct H1 as (Hn1 & _).
    rewrite (Remove_last _ _ Hn1 Hback). apply fmap_removelast.
Qed.

Lemma demoteLoop_exact fuel c c' :
  cache_ok P c → 1 ≤ l1Capacity c → 1 ≤ l2Capacity c →
  demoteLoop fuel c = Ok c' →
  if len (l1Cache c) <? l1Capacity c then c' = c
  else l1List c ≠ [] ∧ ∃ fuel', demoteFromL1 fuel' c = Ok c'.
Proof.
  intros Hok Hcap1 Hcap2. destruct fuel as [|fuel]; [done|].
  rewrite demoteLoop_S.
  destruct (Z.leb_spec (l1Capacity c) (len (l1Cache c))) as [Hfull|Hfree];
    destruct (Z.ltb_spec (len (l1Cache c)) (l1Capacity c)); try lia.
  - destruct (demoteFromL1 fuel c) as [c1| |] eqn:Hdem; simpl; [|done..].
    destruct (demoteFromL1_ok P _ _ _ Hok Hdem) as (_ & (Hc1 & _) & Hlen).
    pose proof Hok as (H1 & _ & _ & Hl1 & _).
    assert (l1List c ≠ []) as Hne by (eapply tier_nonempty; [done|lia]).
    destruct fuel as [|fuel']; [done|]. rewrite demoteLoop_S.
    destruct (Z.leb_spec (l1Capacity c1) (len (l1Cache c1))) as [Hfull1|_].
    + rewrite Hc1, Hlen in Hfull1; [lia|done].
    + intros [= <-]. eauto.
  - by intros [= <-].
Qed.

Lemma addToL1_exact fuel id s c c' :
  cache_ok P c → 1 ≤ l1Capacity c → 1 ≤ l2Capacity c →
  addToL1 fuel id s c = Ok c' →
  (listIDs (l1List c'), listIDs (l2List c'))
    = spec_insert (l1Capacity c) (l2Capacity c) id
        (listIDs (l1List c)) (listIDs (l2List c)) ∧
  Demotions (stats c') =
    (if len (l1Cache c) <? l1Capacity c then Demotions (stats c)
     else incr64 (Demotions (stats c))) ∧
  Evictions (stats c') =
    (if (len (l1Cache c) <? l1Capacity c) || (len (l2Cache c) <? l2Capacity c)
     then Evictions (stats c) else incr64 (Evictions (stats c))).
Proof.
  intros Hok Hcap1 Hcap2. unfold addToL1.
  destruct (demoteLoop fuel c) as [c1| |] eqn:Hloop; simpl; [|done..].
  intros [= <-]. apply (demoteLoop_exact _ _ _ Hok Hcap1 Hcap2) in Hloop.
  pose proof Hok as (H1 & _). unfold spec_insert.
  rewrite <-(tier_ok_len_ids _ _ H1).
  destruct (len (l1Cache c) <? l1Capacity c).
  - subst c1. simpl. done.
  - destruct Hloop as (Hne & fuel' & Hdem).
    destruct (demoteFromL1_exact _ _ _ Hok Hcap2 Hne Hdem)
      as (x & -> & Hids1 & Hids2 & Hd & He).
    simpl. rewrite Hids1, Hids2, Hd, He. done.
Qed.

End exact.

Lemma GetOrCreate_level fuel now id σ σ' p level :
  GetOrCreate fuel now id σ = Ok (σ', p, level) →
  match level with
  | LevelL1 => ∃ e, l1Cache (cache σ) !! id = Some {| session := p; element := e |}
  | LevelL2 =>
      l1Cache (cache σ) !! id = None ∧
      ∃ e, l2Cache (cache σ) !! id = Some {| session := p; element := e |}
  | LevelMiss =>
      l1Cache (cache σ) !! id = None ∧ l2Cache (cache σ) !! id = None
  | LevelUnknown => False
  end.
Proof.
  unfold GetOrCreate. simpl.
  destruct (l1Cache (cache σ) !! id) as [[s e]|] eqn:H1.
  - intros [= <- <- <-]. eauto.
  - destruct (l2Cache (cache σ) !! id) as [[s e]|] eqn:H2.
    + destruct (promoteToL1 _ _ _ _); simpl; [|done..].
      intros [= <- <- <-]. eauto.
    + destruct (addToL1 _ _ _ _); simpl; [|done..].
      by intros [= <- <- <-].
Qed.

(** X11.  The cache refines the two-list LRU.  For capacities of at
    least 1, in every reachable state a [GetOrCreate] that returns has
    changed the id lists of the two tiers (front first) exactly as an
    access changes the two lists of the design. *)
Theorem GetOrCreate_refines_lru cap1 cap2 σ fuel now id σ' p level :
  1 ≤ cap1 → 1 ≤ cap2 → reachable cap1 cap2 σ →
  GetOrCreate fuel now id σ = Ok (σ', p, level) →
  tiers σ' = spec_access cap1 cap2 id (tiers σ).
Proof.
  intros Hcap1 Hcap2 (Hst & Hc1 & Hc2)%reachable_state_ok Hget.
  pose proof Hst as (Hok & _). pose proof Hok as (H1 & H2 & Hd & _).
  pose proof (GetOrCreate_level _ _ _ _ _ _ _ Hget) as Hlevel.
  unfold tiers, spec_access.
  revert Hget. unfold GetOrCreate.
  set (c0 := set_stats (incrTotalRequests (stats (cache σ))) (cache σ)).
  change (l1Cache c0) with (l1Cache (cache σ)).
  change (l2Cache c0) with (l2Cache (cache σ)).
  destruct level; [done|..].
  - destruct Hlevel as [e He]. rewrite He. intros Heq. assert (Hσ := f_equal (λ r, match r with Ok (σ0, _, _) => cache σ0 | _ => cache σ end) Heq). simpl in Hσ. rewrite <-Hσ. clear Heq Hσ. simpl.
    rewrite bool_decide_eq_true_2 by (apply (tier_ok_ids _ _ _ H1); eauto).
    by rewrite (listIDs_MoveToFront _ _ _ _ _ H1 He).
  - destruct Hlevel as (Hn1 & e & He). rewrite Hn1, He.
    rewrite bool_decide_eq_false_2
      by (rewrite (tier_ok_ids _ _ _ H1), Hn1; by intros [? ?]).
    set (c1 := set_stats (incrL2Hit (stats c0)) c0).
    assert (cache_ok (λ p, is_Some (sessions σ !! p)) c1) as Hok1 by exact Hok.
    destruct (promote_removed_ok _ id _ c1 Hok1 He) as (Hokr & _).
    unfold promoteToL1.
    destruct (addToL1 fuel _ _ _) as [c2| |] eqn:Hadd; simpl; [|done..].
    intros Heq. assert (Hσ := f_equal (λ r, match r with Ok (σ0, _, _) => cache σ0 | _ => cache σ end) Heq). simpl in Hσ. rewrite <-Hσ. clear Heq Hσ. simpl.
    apply (addToL1_exact _ _ _ _ _ _ Hokr) in Hadd as (-> & _); [|simpl; lia..].
    simpl. rewrite Hc1, Hc2. f_equal.
    change (l2List c1) with (l2List (cache σ)).
    by eapply listIDs_Remove.
  - destruct Hlevel as (Hn1 & Hn2). rewrite Hn1, Hn2.
    rewrite bool_decide_eq_false_2
      by (rewrite (tier_ok_ids _ _ _ H1), Hn1; by intros [? ?]).
    set (c1 := set_stats (incrCacheMisses (stats c0)) c0).
    assert (cache_ok (λ p, is_Some (sessions σ !! p)) c1) as Hok1 by exact Hok.
    destruct (addToL1 fuel _ _ _) as [c2| |] eqn:Hadd; simpl; [|done..].
    intros Heq. assert (Hσ := f_equal (λ r, match r with Ok (σ0, _, _) => cache σ0 | _ => cache σ end) Heq). simpl in Hσ. rewrite <-Hσ. clear Heq Hσ. simpl.
    apply (addToL1_exact _ _ _ _ _ _ Hok1) in Hadd as (-> & _); [|simpl; lia..].
    simpl. rewrite Hc1, Hc2. f_equal.
    rewrite filter_absent; [done|].
    rewrite (tier_ok_ids _ _ _ H2), Hn2. by intros [? ?].
Qed.

(** X12.  For capacities of at least 1, in every reachable state a
    [GetOrCreate] that returns has counted one demotion exactly when it
    missed L1 while L1 was full, and one eviction exactly when it missed
    both tiers while both were full. *)
Theorem GetOrCreate_counts_moves cap1 cap2 σ fuel now id σ' p level :
  1 ≤ cap1 → 1 ≤ cap2 → reachable cap1 cap2 σ →
  GetOrCreate fuel now id σ = Ok (σ', p, level) →
  Demotions (stats (cache σ')) =
    (if bool_decide (level ≠ LevelL1 ∧ len (l1Cache (cache σ)) = cap1)
     then incr64 (Demotions (stats (cache σ)))
     else Demotions (stats (cache σ))) ∧
  Evictions (stats (cache σ')) =
    (if bool_decide (level = LevelMiss ∧ len (l1Cache (cache σ)) = cap1 ∧
                     len (l2Cache (cache σ)) = cap2)
     then incr64 (Evictions (stats (cache σ)))
     else Evictions (stats (cache σ))).
Proof.
  intros Hcap1 Hcap2 (Hst & Hc1 & Hc2)%reachable_state_ok Hget.
  pose proof Hst as (Hok & _).
  pose proof Hok as (H1 & H2 & Hd & Hl1 & Hl2 & _).
  rewrite Hc1 in Hl1. rewrite Hc2 in Hl2.
  pose proof (GetOrCreate_level _ _ _ _ _ _ _ Hget) as Hlevel.
  revert Hget. unfold GetOrCreate.
  set (c0 := set_stats (incrTotalRequests (stats (cache σ))) (cache σ)).
  change (l1Cache c0) with (l1Cache (cache σ)).
  change (l2Cache c0) with (l2Cache (cache σ)).
  destruct level; [done|..].
  - rewrite !bool_decide_eq_false_2 by naive_solver.
    destruct Hlevel as [e He]. rewrite He.
    intros Heq. assert (Hσ := f_equal (λ r, match r with Ok (σ0, _, _) => cache σ0 | _ => cache σ end) Heq). simpl in Hσ. rewrite <-Hσ. clear Heq Hσ.
    done.
  - rewrite (bool_decide_eq_false_2 (LevelL2 = LevelMiss ∧ _)) by naive_solver.
    destruct Hlevel as (Hn1 & e & He). rewrite Hn1, He.
    set (c1 := set_stats (incrL2Hit (stats c0)) c0).
    assert (cache_ok (λ p, is_Some (sessions σ !! p)) c1) as Hok1 by exact Hok.
    destruct (promote_removed_ok _ id _ c1 Hok1 He) as (Hokr & _ & _ & Hlen).
    unfold promoteToL1.
    destruct (addToL1 fuel _ _ _) as [c2| |] eqn:Hadd; simpl; [|done..].
    intros Heq. assert (Hσ := f_equal (λ r, match r with Ok (σ0, _, _) => cache σ0 | _ => cache σ end) Heq). simpl in Hσ. rewrite <-Hσ. clear Heq Hσ.
    apply (addToL1_exact _ _ _ _ _ _ Hokr) in Hadd as (_ & -> & ->);
      [|simpl; lia..].
    change (l2Cache c1) with (l2Cache (cache σ)) in Hlen.
    change (len (delete id (l2Cache (cache σ))) = len (l2Cache (cache σ)) - 1)
      in Hlen.
    cbn [l1Cache l2Cache l1Capacity l2Capacity stats set_l2 set_stats
         Demotions Evictions incrL2Hit incrTotalRequests c1 c0].
    rewrite Hc1, Hc2.
    assert ((len (delete id (l2Cache (cache σ))) <? cap2) = true) as ->
      by (apply Z.ltb_lt; lia).
    rewrite orb_true_r.
    destruct (Z.ltb_spec (len (l1Cache (cache σ))) cap1).
    + rewrite bool_decide_eq_false_2 by lia. done.
    + rewrite bool_decide_eq_true_2 by (split; [done|lia]). done.
  - destruct Hlevel as (Hn1 & Hn2). rewrite Hn1, Hn2.
    set (c1 := set_stats (incrCacheMisses (stats c0)) c0).
    assert (cache_ok (λ p, is_Some (sessions σ !! p)) c1) as Hok1 by exact Hok.
    destruct (addToL1 fuel _ _ _) as [c2| |] eqn:Hadd; simpl; [|done..].
    intros Heq. assert (Hσ := f_equal (λ r, match r with Ok (σ0, _, _) => cache σ0 | _ => cache σ end) Heq). simpl in Hσ. rewrite <-Hσ. clear Heq Hσ.
    apply (addToL1_exact _ _ _ _ _ _ Hok1) in Hadd as (_ & -> & ->);
      [|simpl; lia..].
    cbn [l1Cache l2Cache l1Capacity l2Capacity stats set_l2 set_stats
         Demotions Evictions incrCacheMisses incrTotalRequests c1 c0].
    rewrite Hc1, Hc2.
    destruct (Z.ltb_spec (len (l1Cache (cache σ))) cap1);
      destruct (Z.ltb_spec (len (l2Cache (cache σ))) cap2); cbn [orb].
    + rewrite !bool_decide_eq_false_2 by lia. done.
    + rewrite !bool_decide_eq_false_2 by lia. done.
    + rewrite bool_decide_eq_true_2 by (split; [done|lia]).
      rewrite bool_decide_eq_false_2 by lia. done.
    + rewrite !bool_decide_eq_true_2 by (split_and!; [done|lia..]). done.
Qed.

Lemma scenario_abc_tiers : tiers scenario_abc = (["c"; "b"], ["a"]).
Proof. vm_compute. reflexivity. Qed.

Lemma scenario_abc_promote :
  ∃ σ' p, GetOrCreate 3 4 "a" scenario_abc = Ok (σ', p, LevelL2).
Proof.
  destruct (GetOrCreate 3 4 "a" scenario_abc) as [[[σ' p] level]| |] eqn:Hget.
  - exists σ', p.
    pose proof (f_equal (λ r, match r with
                              | Ok (_, _, l) => l
                              | _ => LevelUnknown
                              end) Hget) as Hlevel.
    vm_compute in Hlevel. by rewrite <-Hlevel.
  - vm_compute in Hget. discriminate Hget.
  - vm_compute in Hget. discriminate Hget.
Qed.

Lemma GetOrCreate_refines_lru_witness :
  ∃ σ' p, GetOrCreate 3 4 "a" scenario_abc = Ok (σ', p, LevelL2) ∧
          tiers σ' = (["a"; "c"], ["b"]).
Proof.
  destruct scenario_abc_promote as (σ' & p & Hget).
  exists σ', p. split; [exact Hget|].
  rewrite (GetOrCreate_refines_lru 2 3 scenario_abc 3 4 "a" σ' p LevelL2);
    [|lia|lia|exact scenario_abc_reachable|exact Hget].
  rewrite scenario_abc_tiers. vm_compute. reflexivity.
Defined.

Lemma GetOrCreate_counts_moves_witness :
  ∃ σ' p, GetOrCreate 3 4 "a" scenario_abc = Ok (σ', p, LevelL2) ∧
          Demotions (stats (cache σ')) = 2 ∧ Evictions (stats (cache σ')) = 0.
Proof.
  destruct scenario_abc_promote as (σ' & p & Hget).
  exists σ', p. split; [exact Hget|].
  destruct (GetOrCreate_counts_moves 2 3 scenario_abc 3 4 "a" σ' p LevelL2)
    as [-> ->]; [lia|lia|exact scenario_abc_reachable|exact Hget|].
  split; vm_compute; reflexivity.
Defined.

(** *** Residency and identity *)

Lemma GetOrCreate_front fuel now id σ σ' p level :
  state_ok σ → GetOrCreate fuel now id σ = Ok (σ', p, level) →
  head (listIDs (l1List (cache σ'))) = Some id.
Proof.
  intros (Hok & _). pose proof Hok as (H1 & _).
  unfold GetOrCreate.
  set (c0 := set_stats (incrTotalRequests (stats (cache σ))) (cache σ)).
  change (l1Cache c0) with (l1Cache (cache σ)).
  change (l2Cache c0) with (l2Cache (cache σ)).
  destruct (l1Cache (cache σ) !! id) as [[s e]|] eqn:Hid1.
  - intros [= <- _ _]. simpl.
    by rewrite (listIDs_MoveToFront _ _ _ _ _ H1 Hid1).
  - destruct (l2Cache (cache σ) !! id) as [entry|] eqn:Hid2.
    + set (c1 := set_stats (incrL2Hit (stats c0)) c0).
      assert (cache_ok (λ p, is_Some (sessions σ !! p)) c1) as Hok1 by exact Hok.
      destruct (promote_removed_ok _ id entry c1 Hok1 Hid2) as (Hokr & Habsr & HPr & _).
      unfold promoteToL1.
      destruct (addToL1 fuel _ _ _) as [c2| |] eqn:Hadd; simpl; [|done..].
      intros [= <- _ _]. simpl.
      destruct (addToL1_ok _ _ _ _ _ _ Hokr Habsr HPr Hadd)
        as (_ & _ & _ & _ & _ & e & _ & Hhead).
      destruct (l1List c2); [done|]. simpl in *. by injection Hhead as ->.
    + set (c1 := set_stats (incrCacheMisses (stats c0)) c0).
      assert (cache_ok (λ _, True) c1) as Hok1
        by (eapply cache_ok_mono; [|exact Hok]; done).
      destruct (addToL1 fuel _ _ _) as [c2| |] eqn:Hadd; simpl; [|done..].
      intros [= <- _ _]. simpl.
      destruct (addToL1_ok _ _ _ _ _ _ Hok1 (conj Hid1 Hid2) I Hadd)
        as (_ & _ & _ & _ & _ & e & _ & Hhead).
      destruct (l1List c2); [done|]. simpl in *. by injection Hhead as ->.
Qed.

(** X13.  In every reachable state, after a [GetOrCreate] of an id has
    returned a session, the id is at the front of L1, [GetSession] finds
    that same session in L1, and a further [GetOrCreate] of the id
    returns, with any fuel, as an L1 hit on that same session. *)
Theorem accessed_id_is_at_front cap1 cap2 σ fuel now id σ' p level :
  reachable cap1 cap2 σ →
  GetOrCreate fuel now id σ = Ok (σ', p, level) →
  head (fst (tiers σ')) = Some id ∧
  GetSession id σ' = (Some p, LevelL1, true) ∧
  ∀ fuel' now', ∃ σ'', GetOrCreate fuel' now' id σ' = Ok (σ'', p, LevelL1).
Proof.
  intros (Hst & _)%reachable_state_ok Hget.
  destruct (GetOrCreate_ok _ _ _ _ _ _ _ Hst Hget) as (_ & _ & _ & _ & _ & e & He).
  split_and!.
  - by eapply GetOrCreate_front.
  - unfold GetSession. by rewrite He.
  - intros fuel' now'. unfold GetOrCreate. simpl. rewrite He. simpl. eauto.
Qed.

(** X14.  In every reachable state the level a [GetOrCreate] reports is
    the tier in which [GetSession] found the id just before, the session
    it returns on a hit is the one that was stored (only its
    [LastAccessed] changes), on a miss it is a new object for the id
    with no messages and a count of 0, and no other session object is
    touched. *)
Theorem GetOrCreate_reports_residency cap1 cap2 σ fuel now id σ' p level :
  reachable cap1 cap2 σ →
  GetOrCreate fuel now id σ = Ok (σ', p, level) →
  GetSession id σ =
    (match level with
     | LevelMiss => (None, LevelMiss, false)
     | _ => (Some p, level, true)
     end) ∧
  level ≠ LevelUnknown ∧
  (∀ q, q ≠ p → sessions σ' !! q = sessions σ !! q) ∧
  match level with
  | LevelMiss =>
      sessions σ !! p = None ∧
      ∃ s, sessions σ' !! p = Some s ∧
           ChatID s = id ∧ Messages s = [] ∧ MessageCount s = 0
  | _ => ∃ s, sessions σ !! p = Some s ∧ sessions σ' !! p = Some (touch now s)
  end.
Proof.
  intros (Hst & _)%reachable_state_ok Hget.
  pose proof (GetOrCreate_level _ _ _ _ _ _ _ Hget) as Hlevel.
  destruct (GetOrCreate_ok _ _ _ _ _ _ _ Hst Hget) as (_ & _ & _ & _ & Hafter & _).
  unfold GetSession.
  destruct level; [done|..]; simpl in Hafter; destruct Hafter as [Hp ->].
  - destruct Hlevel as [e ->]. destruct Hp as [s Hs].
    split_and!; [done|done| |].
    + intros q Hq. by rewrite lookup_alter_ne.
    + exists s. by rewrite lookup_alter_eq, Hs.
  - destruct Hlevel as (-> & e & ->). destruct Hp as [s Hs].
    split_and!; [done|done| |].
    + intros q Hq. by rewrite lookup_alter_ne.
    + exists s. by rewrite lookup_alter_eq, Hs.
  - destruct Hlevel as (-> & ->).
    split_and!; [done|done| |done|].
    + intros q Hq. by rewrite lookup_insert_ne.
    + eexists. by rewrite lookup_insert_eq.
Qed.

(** X15.  No public operation panics in a reachable state: the nil
    dereference of [demoteFromL1] is never reached. *)
Theorem operations_never_panic cap1 cap2 σ fuel o :
  reachable cap1 cap2 σ → exec fuel o σ ≠ Panic.
Proof.
  intros (Hst & _)%reachable_state_ok.
  destruct o as [now id|now id msg|id|]; simpl; [| |done..].
  - pose proof (GetOrCreate_no_panic fuel now id σ Hst) as Hnp.
    destruct (GetOrCreate fuel now id σ) as [[[??]?]| |]; done.
  - pose proof (GetOrCreate_no_panic fuel now id σ Hst) as Hnp.
    unfold AddMessage.
    destruct (GetOrCreate fuel now id σ) as [[[??]?]| |]; done.
Qed.

(** X16.  [Clear] empties both tiers and keeps the counters and the
    session objects; after it every id is absent, and, when the cache
    has room in L1 ([cap1 >= 1]), the next [GetOrCreate] of any id,
    resident before or not, returns as a miss with a new session
    object. *)
Theorem Clear_forgets_residency cap1 cap2 σ :
  reachable cap1 cap2 σ →
  reachable cap1 cap2 (Clear σ) ∧
  tiers (Clear σ) = ([], []) ∧
  GetStats (Clear σ) = GetStats σ ∧
  sessions (Clear σ) = sessions σ ∧
  (∀ id, GetSession id (Clear σ) = (None, LevelMiss, false)) ∧
  (1 ≤ cap1 → ∀ fuel now id, (1 ≤ fuel)%nat →
     ∃ σ' p, GetOrCreate fuel now id (Clear σ) = Ok (σ', p, LevelMiss) ∧
             sessions σ !! p = None).
Proof.
  intros Hr.
  assert (reachable cap1 cap2 (Clear σ)) as Hrc
    by (by apply (reachable_exec cap1 cap2 σ 0 OpClear)).
  split_and!; [done|done|done|done| |].
  - intros id. unfold GetSession. simpl. by rewrite !lookup_empty.
  - intros Hcap fuel now id Hfuel.
    destruct (reachable_state_ok _ _ _ Hr) as (_ & Hc1 & _).
    destruct fuel as [|fuel]; [lia|].
    unfold GetOrCreate. simpl. rewrite !lookup_empty.
    unfold addToL1. cbn [demoteLoop]. simpl.
    assert ((l1Capacity (cache σ) <=? len (∅ : gmap string cacheEntry)) = false)
      as ->.
    { apply Z.leb_gt. unfold len. rewrite map_size_empty. lia. }
    simpl. eexists _, _. split; [reflexivity|].
    apply not_elem_of_dom, is_fresh.
Qed.

Lemma accessed_id_is_at_front_witness :
  ∃ σ' p, GetOrCreate 3 4 "a" scenario_abc = Ok (σ', p, LevelL2) ∧
          head (fst (tiers σ')) = Some "a" ∧
          GetSession "a" σ' = (Some p, LevelL1, true).
Proof.
  destruct scenario_abc_promote as (σ' & p & Hget).
  exists σ', p. split; [exact Hget|].
  destruct (accessed_id_is_at_front 2 3 scenario_abc 3 4 "a" σ' p LevelL2
              scenario_abc_reachable Hget) as (Hhead & Hsess & _).
  split; [exact Hhead|exact Hsess].
Defined.

Lemma GetOrCreate_reports_residency_witness :
  ∃ p, GetSession "a" scenario_abc = (Some p, LevelL2, true).
Proof.
  destruct scenario_abc_promote as (σ' & p & Hget).
  exists p.
  exact (proj1 (GetOrCreate_reports_residency 2 3 scenario_abc 3 4 "a" σ' p
                  LevelL2 scenario_abc_reachable Hget)).
Defined.

Lemma operations_never_panic_witness :
  exec 3 (OpGetOrCreate 4 "d") scenario_abc ≠ Panic.
Proof. apply (operations_never_panic 2 3). exact scenario_abc_reachable. Defined.

Lemma Clear_forgets_residency_witness :
  tiers (Clear scenario_abc) = ([], []) ∧
  GetStats (Clear scenario_abc) = GetStats scenario_abc ∧
  ∃ σ' p, GetOrCreate 1 4 "a" (Clear scenario_abc) = Ok (σ', p, LevelMiss) ∧
          sessions scenario_abc !! p = None.
Proof.
  destruct (Clear_forgets_residency 2 3 scenario_abc scenario_abc_reachable)
    as (_ & Ht & Hs & _ & _ & Hnext).
  split; [exact Ht|]. split; [exact Hs|].
  apply Hnext; lia.
Defined.

(** *** Entries and their sessions *)

Lemma evictFromL2_resident c k p :
  resident (evictFromL2 c) k p → resident c k p.
Proof.
  unfold evictFromL2. destruct (Back (l2List c)) as [back|]; [|done].
  intros (e & [He|He] & Hp); simpl in He.
  - exists e. eauto.
  - apply lookup_delete_Some in He as [_ He]. exists e. eauto.
Qed.

Lemma evictLoop_resident fuel c c' k p :
  evictLoop fuel c = Ok c' → resident c' k p → resident c k p.
Proof.
  revert c. induction fuel as [|fuel IH]; intros c; [done|].
  rewrite evictLoop_S. destruct (l2Capacity c <=? len (l2Cache c)).
  - intros Hrun Hres. by apply evictFromL2_resident, (IH _ Hrun).
  - by intros [= <-].
Qed.

Lemma addToL2_resident fuel id s c c' k p :
  addToL2 fuel id s c = Ok c' → resident c' k p →
  (k = id ∧ p = s) ∨ resident c k p.
Proof.
  unfold addToL2. destruct (evictLoop fuel c) as [c1| |] eqn:Hloop; simpl; [|done..].
  intros [= <-] (e & [He|He] & Hp); simpl in He.
  - right. apply (evictLoop_resident _ _ _ _ _ Hloop). exists e. eauto.
  - destruct (decide (id = k)) as [<-|Hne].
    + rewrite lookup_insert_eq in He. injection He as <-. by left.
    + rewrite lookup_insert_ne in He by done. right.
      apply (evictLoop_resident _ _ _ _ _ Hloop). exists e. eauto.
Qed.

Lemma demoteFromL1_resident fuel c c' k p :
  demoteFromL1 fuel c = Ok c' → resident c' k p → resident c k p.
Proof.
  unfold demoteFromL1. destruct (Back (l1List c)) as [back|]; [|by intros [= <-]].
  destruct (l1Cache c !! Value back) as [entry|] eqn:Hentry; [|done].
  intros Hadd Hres.
  destruct (addToL2_resident _ _ _ _ _ _ _ Hadd Hres) as [[-> ->]|Hold].
  - exists entry. eauto.
  - destruct Hold as (e & [He|He] & Hp); simpl in He.
    + apply lookup_delete_Some in He as [_ He]. exists e. eauto.
    + exists e. eauto.
Qed.

Lemma demoteLoop_resident fuel c c' k p :
  demoteLoop fuel c = Ok c' → resident c' k p → resident c k p.
Proof.
  revert c. induction fuel as [|fuel IH]; intros c; [done|].
  rewrite demoteLoop_S. destruct (l1Capacity c <=? len (l1Cache c)).
  - destruct (demoteFromL1 fuel c) as [c1| |] eqn:Hdem; simpl; [|done..].
    intros Hrun Hres.
    by apply (demoteFromL1_resident _ _ _ _ _ Hdem), (IH _ Hrun).
  - by intros [= <-].
Qed.

Lemma addToL1_resident fuel id s c c' k p :
  addToL1 fuel id s c = Ok c' → resident c' k p →
  (k = id ∧ p = s) ∨ resident c k p.
Proof.
  unfold addToL1. destruct (demoteLoop fuel c) as [c1| |] eqn:Hloop; simpl; [|done..].
  intros [= <-] (e & [He|He] & Hp); simpl in He.
  - destruct (decide (id = k)) as [<-|Hne].
    + rewrite lookup_insert_eq in He. injection He as <-. by left.
    + rewrite lookup_insert_ne in He by done. right.
      apply (demoteLoop_resident _ _ _ _ _ Hloop). exists e. eauto.
  - right. apply (demoteLoop_resident _ _ _ _ _ Hloop). exists e. eauto.
Qed.

Lemma entries_keyed_resident σ :
  entries_keyed σ ↔
  ∀ k p, resident (cache σ) k p → ∃ s, sessions σ !! p = Some s ∧ ChatID s = k.
Proof.
  split.
  - intros Hk k p (e & He & <-). by apply Hk.
  - intros Hr k e He. apply Hr. exists e. eauto.
Qed.

Lemma GetOrCreate_keyed fuel now id σ σ' p level :
  state_ok σ → entries_keyed σ →
  GetOrCreate fuel now id σ = Ok (σ', p, level) → entries_keyed σ'.
Proof.
  intros Hst Hk Hget. rewrite entries_keyed_resident in Hk.
  apply entries_keyed_resident.
  destruct (GetOrCreate_ok _ _ _ _ _ _ _ Hst Hget) as (_ & _ & _ & _ & Hafter & _).
  pose proof (GetOrCreate_level _ _ _ _ _ _ _ Hget) as Hlevel.
  assert (∀ k q, resident (cache σ) k q →
            ∃ s, sessions σ' !! q = Some s ∧ ChatID s = k) as Hold.
  { intros k q Hres. destruct (Hk k q Hres) as (s & Hs & Hid).
    destruct level; [done|..]; simpl in Hafter; destruct Hafter as [Hp ->].
    - destruct (decide (p = q)) as [->|Hne].
      + exists (touch now s). by rewrite lookup_alter_eq, Hs.
      + exists s. by rewrite lookup_alter_ne.
    - destruct (decide (p = q)) as [->|Hne].
      + exists (touch now s). by rewrite lookup_alter_eq, Hs.
      + exists s. by rewrite lookup_alter_ne.
    - exists s. rewrite lookup_insert_ne; [done|]. intros ->. congruence. }
  revert Hget. unfold GetOrCreate.
  set (c0 := set_stats (incrTotalRequests (stats (cache σ))) (cache σ)).
  change (l1Cache c0) with (l1Cache (cache σ)).
  change (l2Cache c0) with (l2Cache (cache σ)).
  destruct (l1Cache (cache σ) !! id) as [entry|] eqn:H1.
  - intros [= <- _ _]. intros k q Hres. apply Hold.
    destruct Hres as (e & He & Hq). exists e. eauto.
  - destruct (l2Cache (cache σ) !! id) as [entry|] eqn:H2.
    + unfold promoteToL1.
      destruct (addToL1 fuel _ _ _) as [c2| |] eqn:Hadd; simpl; [|done..].
      intros [= <- _ _]. intros k q Hres. simpl in Hres.
      destruct (addToL1_resident _ _ _ _ _ _ _ Hadd Hres) as [[-> ->]|Hres'].
      * apply Hold. exists entry. eauto.
      * apply Hold. destruct Hres' as (e & [He|He] & Hq); simpl in He.
        -- exists e. eauto.
        -- apply lookup_delete_Some in He as [_ He]. exists e. eauto.
    + destruct (addToL1 fuel _ _ _) as [c2| |] eqn:Hadd; simpl; [|done..].
      intros [= <- Hp <-]. intros k q Hres. simpl in Hres.
      destruct (addToL1_resident _ _ _ _ _ _ _ Hadd Hres) as [[-> ->]|Hres'].
      * simpl. eexists. by rewrite lookup_insert_eq.
      * apply Hold. destruct Hres' as (e & He & Hq). exists e. eauto.
Qed.

Lemma reachable_entries_keyed cap1 cap2 σ :
  reachable cap1 cap2 σ → entries_keyed σ.
Proof.
  induction 1 as [sid|σ fuel o σ' Hr IH Hexec].
  - intros k e [He|He]; simpl in He; by rewrite lookup_empty in He.
  - pose proof (reachable_state_ok _ _ _ Hr) as (Hst & _).
    destruct o as [now id|now id msg|id|]; simpl in Hexec.
    + destruct (GetOrCreate fuel now id σ) as [[[σ1 p] lvl]| |] eqn:Hget;
        simpl in Hexec; [|done..].
      injection Hexec as <-. by eapply GetOrCreate_keyed.
    + destruct (AddMessage fuel now id msg σ) as [[[σ1 p] lvl]| |] eqn:Hadd;
        simpl in Hexec; [|done..].
      injection Hexec as <-.
      destruct (AddMessage_ok _ _ _ _ _ _ _ _ Hst Hadd) as (σ0 & Hget & Hc & Hs & _).
      pose proof (GetOrCreate_keyed _ _ _ _ _ _ _ Hst IH Hget) as Hk0.
      intros k e He. rewrite Hc in He. destruct (Hk0 k e He) as (s & Hs0 & Hid).
      rewrite Hs. destruct (decide (p = session e)) as [->|Hne].
      * exists (appendMessage msg now s). by rewrite lookup_alter_eq, Hs0.
      * exists s. by rewrite lookup_alter_ne.
    + by injection Hexec as <-.
    + injection Hexec as <-. intros k e [He|He]; simpl in He;
        by rewrite lookup_empty in He.
Qed.

(** X17.  In every reachable state the session object stored under an
    id is one that was created for that id, so that [GetSession id]
    returns a session whose [ChatID] is [id], and two different resident
    ids never share a session object. *)
Theorem resident_sessions_belong_to_their_id cap1 cap2 σ :
  reachable cap1 cap2 σ →
  (∀ id p level, GetSession id σ = (Some p, level, true) →
     ∃ s, sessions σ !! p = Some s ∧ ChatID s = id) ∧
  (∀ id1 id2 p level1 level2,
     GetSession id1 σ = (Some p, level1, true) →
     GetSession id2 σ = (Some p, level2, true) → id1 = id2).
Proof.
  intros Hk%reachable_entries_keyed.
  assert (∀ id p level, GetSession id σ = (Some p, level, true) →
            ∃ s, sessions σ !! p = Some s ∧ ChatID s = id) as Hget.
  { intros id p level. unfold GetSession.
    destruct (l1Cache (cache σ) !! id) as [e|] eqn:H1.
    - intros [= <- _]. apply (Hk id e). by left.
    - destruct (l2Cache (cache σ) !! id) as [e|] eqn:H2; [|done].
      intros [= <- _]. apply (Hk id e). by right. }
  split; [done|].
  intros id1 id2 p l1 l2 (s1 & Hs1 & <-)%Hget (s2 & Hs2 & <-)%Hget. congruence.
Qed.

Lemma resident_sessions_belong_to_their_id_witness :
  ∃ p s, GetSession "b" scenario_abc = (Some p, LevelL1, true) ∧
         sessions scenario_abc !! p = Some s ∧ ChatID s = "b".
Proof.
  destruct (resident_sessions_belong_to_their_id 2 3 scenario_abc
              scenario_abc_reachable) as [Hget _].
  assert (GetSession "b" scenario_abc = (Some 1%nat, LevelL1, true)) as Hb
    by (vm_compute; reflexivity).
  destruct (Hget "b" 1%nat LevelL1 Hb) as (s & Hs & Hid).
  exists 1%nat, s. split; [exact Hb|]. split; [exact Hs|exact Hid].
Defined.

End CacheMore.

(** ** The client: routing, failover and accounting *)

Module ClientMore.
Import Client.

Section alloc.
Context {alloc : Ring.Allocator}.

(** *** What an attempt leaves alone *)

Lemma sendToServer_frame net i a req c c' r :
  sendToServer net i a req c = (c', r) →
  ring c' = ring c ∧ config c' = config c ∧ stats c' = stats c.
Proof.
  unfold sendToServer.
  destruct (connections c !! a) as [sc|]; [|by intros [= <- _]].
  destruct (negb (healthy sc)); [by intros [= <- _]|].
  destruct (client sc).
  - destruct (PostMessage _ _ _ _); by intros [= <- _].
  - destruct (connectToServer _ _ _); [|by intros [= <- _]].
    destruct (PostMessage _ _ _ _); by intros [= <- _].
Qed.

Lemma attempt_frame net i node req c c' r :
  attempt net i node req c = (c', r) →
  ring c' = ring c ∧ config c' = config c ∧
  match r with
  | Succeeded resp =>
      Success resp = true ∧
      stats c' =
        {| TotalRequests := TotalRequests (stats c);
           SuccessRequests := incr64 (SuccessRequests (stats c));
           FailedRequests := FailedRequests (stats c);
           FailoverCount :=
             if (i =? 0)%nat then FailoverCount (stats c)
             else incr64 (FailoverCount (stats c));
           PrimaryHits :=
             if (i =? 0)%nat then incr64 (PrimaryHits (stats c))
             else PrimaryHits (stats c) |}
  | Failed _ => stats c' = stats c
  end.
Proof.
  unfold attempt.
  destruct (sendToServer net i (Ring.InfoAddress node) req c) as [c1 [resp|err]] eqn:Hsend.
  - apply sendToServer_frame in Hsend as (Hr & Hc & Hs).
    destruct (Success resp) eqn:Hsucc.
    + intros [= <- <-]. simpl. rewrite Hs. done.
    + intros [= <- <-]. done.
  - apply sendToServer_frame in Hsend as (Hr & Hc & Hs).
    intros [= <- <-]. done.
Qed.

Lemma sendLoop_frame net req i nodes e c c' r :
  sendLoop net req i nodes e c = (c', r) →
  ring c' = ring c ∧ config c' = config c ∧
  TotalRequests (stats c') = TotalRequests (stats c) ∧
  match r with
  | inl resp =>
      Success resp = true ∧
      SuccessRequests (stats c') = incr64 (SuccessRequests (stats c)) ∧
      FailedRequests (stats c') = FailedRequests (stats c) ∧
      ((PrimaryHits (stats c') = incr64 (PrimaryHits (stats c)) ∧
        FailoverCount (stats c') = FailoverCount (stats c)) ∨
       (PrimaryHits (stats c') = PrimaryHits (stats c) ∧
        FailoverCount (stats c') = incr64 (FailoverCount (stats c))))
  | inr err =>
      (∃ lastErr, err = ErrAllExhausted lastErr) ∧
      SuccessRequests (stats c') = SuccessRequests (stats c) ∧
      FailedRequests (stats c') = incr64 (FailedRequests (stats c)) ∧
      PrimaryHits (stats c') = PrimaryHits (stats c) ∧
      FailoverCount (stats c') = FailoverCount (stats c)
  end.
Proof.
  revert i e c. induction nodes as [|node nodes IH]; intros i e c; simpl.
  - intros [= <- <-]. simpl. eauto 10.
  - destruct (attempt net i node req c) as [c1 [resp|e1]] eqn:Hatt.
    + apply attempt_frame in Hatt as (Hr & Hc & Hsucc & Hs).
      intros [= <- <-]. rewrite Hs. simpl.
      split_and!; try done. destruct (i =? 0)%nat; eauto.
    + apply attempt_frame in Hatt as (Hr & Hc & Hs).
      intros Hloop. apply IH in Hloop. rewrite Hr, Hc, Hs in Hloop. exact Hloop.
Qed.

(** X18.  Whatever it returns, a [SendMessage] that does not panic has
    counted the request once in [TotalRequests] and once more either as
    a success, when it returns a response (which then has
    [success=true], and is counted as a primary hit or as a failover,
    not both), or as a failure, when it returns an error. *)
Theorem SendMessage_counts_request_once net now chatID senderID message c c' r :
  SendMessage net now chatID senderID message c = Ok (c', r) →
  let s := GetStats c in
  let s' := GetStats c' in
  TotalRequests s' = incr64 (TotalRequests s) ∧
  match r with
  | inl resp =>
      Success resp = true ∧
      SuccessRequests s' = incr64 (SuccessRequests s) ∧
      FailedRequests s' = FailedRequests s ∧
      ((PrimaryHits s' = incr64 (PrimaryHits s) ∧
        FailoverCount s' = FailoverCount s) ∨
       (PrimaryHits s' = PrimaryHits s ∧
        FailoverCount s' = incr64 (FailoverCount s)))
  | inr _ =>
      SuccessRequests s' = SuccessRequests s ∧
      FailedRequests s' = incr64 (FailedRequests s) ∧
      PrimaryHits s' = PrimaryHits s ∧
      FailoverCount s' = FailoverCount s
  end.
Proof.
  unfold SendMessage, GetStats.
  destruct (Ring.GetNodes _ _ _) as [nodes| |]; simpl; [|done..].
  destruct (length nodes =? 0)%nat.
  - intros [= <- <-]. simpl. done.
  - intros [= Hloop]. apply sendLoop_frame in Hloop as (_ & _ & Ht & Hr).
    simpl in *. split; [done|]. destruct r as [resp|err]; [done|].
    by destruct Hr as (_ & ? & ? & ? & ?).
Qed.

(** *** The first successor *)


(** With room for one successor, the first successor of a key is the
    node [GetNode] names. *)
Lemma GetNodes_primary key count hr :
  Ring.nodes hr ≠ [] → 1 ≤ count → count ≤ Ring.slice_limit →
  ∃ rest, Ring.GetNodes key count hr =
    Ok ({| Ring.InfoNodeID := (Ring.GetNode key hr).1.1;
           Ring.InfoAddress := (Ring.GetNode key hr).1.2 |} :: rest).
Proof.
  intros Hne Hcount Hlimit. unfold Ring.GetNodes, Ring.GetNode.
  assert (length (Ring.nodes hr) ≠ 0)%nat as Hlen
    by (destruct (Ring.nodes hr); simpl; [done|lia]).
  apply Nat.eqb_neq in Hlen as Hlenb. rewrite Hlenb.
  destruct (Z.ltb_spec count 0) as [?|_]; [lia|].
  destruct (Z.ltb_spec Ring.slice_limit count) as [?|_]; [lia|]. cbn [orb].
  pose proof (RingFacts.startIndex_lt key hr Hne) as Hs.
  assert (seq 0 (length (Ring.nodes hr))
          = 0%nat :: seq 1 (length (Ring.nodes hr) - 1)) as ->
    by (destruct (length (Ring.nodes hr)); [done|simpl; by rewrite Nat.sub_0_r]).
  cbn [Ring.GetNodes_loop length].
  destruct (Z.ltb_spec (Z.of_nat 0) count) as [_|?]; [|lia].
  rewrite lookup_empty. cbn [default negb app fst snd].
  rewrite Nat.add_0_r, (Nat.mod_small _ _ Hs).
  set (first := {| Ring.InfoNodeID := _; Ring.InfoAddress := _ |}).
  destruct (RingFacts.GetNodes_loop_spec hr (Ring.startIndex key hr) count
              (seq 1 (length (Ring.nodes hr) - 1))
              (<[Ring.InfoNodeID first := true]> ∅) [first]) as (_ & [k Hk] & _).
  - intros id. simpl. rewrite list_elem_of_singleton.
    destruct (decide (Ring.InfoNodeID first = id)) as [<-|Hne'].
    + by rewrite lookup_insert_eq.
    + rewrite lookup_insert_ne, lookup_empty by done. naive_solver.
  - simpl. apply NoDup_singleton.
  - simpl. lia.
  - simpl in Hk. rewrite Hk. eauto.
Qed.

(** *** Addresses that cannot be reached *)

Lemma markConnectionUnhealthy_id a c : down c a → markConnectionUnhealthy a c = c.
Proof.
  intros Hd. destruct c as [r m cfg s].
  unfold markConnectionUnhealthy, set_connections, down in *. simpl in *.
  f_equal. apply map_eq. intros k. destruct (decide (a = k)) as [<-|Hne].
  - rewrite lookup_alter_eq. destruct (m !! a) as [sc|] eqn:Hsc; [|done].
    simpl. f_equal. specialize (Hd sc eq_refl). destruct sc. simpl in *. by subst.
  - by rewrite lookup_alter_ne.
Qed.

Lemma sendToServer_down net i a req c :
  down c a → sendToServer net i a req c = (c, inr (refusal c a)).
Proof.
  intros Hd. unfold sendToServer, refusal.
  destruct (connections c !! a) as [sc|] eqn:Hsc; [|done].
  by rewrite (Hd sc Hsc).
Qed.

Lemma attempt_down net i node req c :
  down c (Ring.InfoAddress node) →
  attempt net i node req c
  = (c, Failed (Some (refusal c (Ring.InfoAddress node)))).
Proof.
  intros Hd. unfold attempt. rewrite sendToServer_down by done.
  by rewrite markConnectionUnhealthy_id.
Qed.

Lemma sendLoop_down net req i nodes e c :
  Forall (λ n, down c (Ring.InfoAddress n)) nodes →
  sendLoop net req i nodes e c
  = (incrFailedRequests c,
     inr (ErrAllExhausted
            (from_option (λ n, Some (refusal c (Ring.InfoAddress n))) e
               (last nodes)))).
Proof.
  revert i e. induction nodes as [|node nodes IH]; intros i e Hall; [done|].
  apply Forall_cons in Hall as [Hd Hall]. cbn [sendLoop].
  rewrite attempt_down by done. rewrite IH by done.
  rewrite last_cons. by destruct (last nodes).
Qed.

Lemma sendToServer_keeps_down net i a req c c' r b :
  sendToServer net i a req c = (c', r) → down c b → down c' b.
Proof.
  unfold sendToServer.
  destruct (connections c !! a) as [sc|] eqn:Hsc; [|by intros [= <- _]].
  destruct (healthy sc) eqn:Hh; simpl; [|by intros [= <- _]].
  destruct (client sc).
  - destruct (PostMessage _ _ _ _); by intros [= <- _].
  - destruct (connectToServer _ _ _); [|by intros [= <- _]].
    assert (down c b → down (set_connections
              (<[a := {| address := address sc; conn := Some n; client := Some n;
                         healthy := true |}]> (connections c)) c) b) as Hins.
    { intros Hd sc'. simpl. destruct (decide (a = b)) as [<-|Hne].
      - specialize (Hd sc Hsc). congruence.
      - rewrite lookup_insert_ne by done. apply Hd. }
    destruct (PostMessage _ _ _ _); by intros [= <- _].
Qed.

Lemma markConnectionUnhealthy_keeps_down a c b :
  down c b → down (markConnectionUnhealthy a c) b.
Proof.
  intros Hd sc. destruct (decide (a = b)) as [<-|Hne].
  - apply ClientFacts.markConnectionUnhealthy_down.
  - rewrite ClientFacts.markConnectionUnhealthy_other by done. apply Hd.
Qed.

Lemma attempt_keeps_down net i node req c c' r b :
  attempt net i node req c = (c', r) → down c b → down c' b.
Proof.
  unfold attempt.
  destruct (sendToServer net i (Ring.InfoAddress node) req c)
    as [c1 [resp|err]] eqn:Hsend; intros Hatt Hd;
    apply (sendToServer_keeps_down _ _ _ _ _ _ _ _ Hsend) in Hd.
  - destruct (Success resp); injection Hatt as <- <-; [done|].
    by apply markConnectionUnhealthy_keeps_down.
  - injection Hatt as <- <-. by apply markConnectionUnhealthy_keeps_down.
Qed.

Lemma attempt_failed_down net i node req c c' e :
  attempt net i node req c = (c', Failed e) → down c' (Ring.InfoAddress node).
Proof.
  unfold attempt.
  destruct (sendToServer net i (Ring.InfoAddress node) req c) as [c1 [resp|err]].
  - destruct (Success resp); [done|]. intros [= <- _] sc.
    apply ClientFacts.markConnectionUnhealthy_down.
  - intros [= <- _] sc. apply ClientFacts.markConnectionUnhealthy_down.
Qed.

Lemma sendLoop_keeps_down net req i nodes e c c' r b :
  sendLoop net req i nodes e c = (c', r) → down c b → down c' b.
Proof.
  revert i e c. induction nodes as [|node nodes IH]; intros i e c; cbn [sendLoop].
  - by intros [= <- _].
  - destruct (attempt net i node req c) as [c1 [resp|e1]] eqn:Hatt.
    + intros [= <- _]. by apply (attempt_keeps_down _ _ _ _ _ _ _ _ Hatt).
    + intros Hloop Hd. apply (IH _ _ _ Hloop).
      by apply (attempt_keeps_down _ _ _ _ _ _ _ _ Hatt).
Qed.

Lemma sendLoop_exhausted_down net req i nodes e c c' err :
  sendLoop net req i nodes e c = (c', inr err) →
  Forall (λ n, down c' (Ring.InfoAddress n)) nodes.
Proof.
  revert i e c. induction nodes as [|node nodes IH]; intros i e c; cbn [sendLoop].
  - intros _. constructor.
  - destruct (attempt net i node req c) as [c1 [resp|e1]] eqn:Hatt; [done|].
    intros Hloop. constructor; [|by eapply IH].
    apply (sendLoop_keeps_down _ _ _ _ _ _ _ _ _ Hloop).
    by eapply attempt_failed_down.
Qed.

(** X21.  A request that has failed on all its candidates poisons them:
    when [SendMessage] returns the error for exhausted servers, the next
    [SendMessage] for the same chat fails in the same way without a
    single dial or RPC, whatever the network does by then; it only
    counts the request and its failure, so that the connections stay as
    they are. *)
Theorem exhausted_request_stays_failed net now chatID senderID message c c' lastErr :
  SendMessage net now chatID senderID message c
    = Ok (c', inr (ErrAllExhausted lastErr)) →
  ∀ net' now' senderID' message',
  ∃ address,
    SendMessage net' now' chatID senderID' message' c'
    = Ok (incrFailedRequests (incrTotalRequests c'),
          inr (ErrAllExhausted (Some (refusal c' address)))).
Proof.
  unfold SendMessage. simpl.
  destruct (Ring.GetNodes chatID (MaxRetries (config c)) (ring c))
    as [nodes| |] eqn:Hnodes; cbn [mbind result_bind]; [|done..].
  destruct nodes as [|node nodes]; [done|]. cbn [length Nat.eqb].
  intros [= Hloop] net' now' senderID' message'.
  change (sendLoop net (mkChatRequest chatID message senderID now) 0
            (node :: nodes) None (incrTotalRequests c)
          = (c', inr (ErrAllExhausted lastErr))) in Hloop.
  pose proof (sendLoop_frame _ _ _ _ _ _ _ _ Hloop) as (Hr & Hc & _).
  simpl in Hr, Hc.
  apply sendLoop_exhausted_down in Hloop.
  rewrite Hc, Hr, Hnodes. cbn [mbind result_bind length Nat.eqb].
  rewrite sendLoop_down by exact Hloop.
  destruct (last (node :: nodes)) as [n|] eqn:Hlast.
  - exists (Ring.InfoAddress n). done.
  - by apply last_None in Hlast.
Qed.

(** X22.  [Close] forgets the connections and nothing else: the routing
    table, the targets and the counters stay, and, with a retry budget
    that the allocator grants as a capacity, a [SendMessage] after it
    fails without touching the network, for want of a server or of a
    connection, changing only the counters. *)
Theorem Close_keeps_routing net now chatID senderID message c :
  0 ≤ MaxRetries (config c) ≤ Ring.slice_limit →
  GetServerCount (Close c) = GetServerCount c ∧
  GetTargetServer chatID (Close c) = GetTargetServer chatID c ∧
  GetStats (Close c) = GetStats c ∧
  ∃ err,
    SendMessage net now chatID senderID message (Close c)
    = Ok (incrFailedRequests (incrTotalRequests (Close c)), inr err) ∧
    (err = ErrNoServers ∨
     ∃ address, err = ErrAllExhausted (Some (ErrNoConnection address))).
Proof.
  intros Hm. split_and!; [done..|].
  unfold SendMessage. simpl.
  destruct (Ring.GetNodes chatID (MaxRetries (config c)) (ring c))
    as [nodes| |] eqn:Hnodes.
  - cbn [mbind result_bind]. destruct nodes as [|node nodes]; cbn [length Nat.eqb].
    + eauto.
    + rewrite sendLoop_down.
      * destruct (last (node :: nodes)) as [n|] eqn:Hlast.
        -- eexists. split; [reflexivity|]. right. by exists (Ring.InfoAddress n).
        -- by apply last_None in Hlast.
      * apply Forall_forall. intros n _ sc. simpl. by rewrite lookup_empty.
  - unfold Ring.GetNodes in Hnodes.
    destruct (length _ =? 0)%nat; [done|].
    destruct (Z.ltb_spec (MaxRetries (config c)) 0); [lia|].
    destruct (Z.ltb_spec Ring.slice_limit (MaxRetries (config c))); [lia|done].
  - unfold Ring.GetNodes in Hnodes.
    destruct (length _ =? 0)%nat; [done|]. by destruct (_ || _).
Qed.

(** X23.  The primary is asked first and alone: with a retry budget of
    at least 1 that the allocator grants as a capacity, when the server
    that [GetTargetServer] names has a healthy, connected entry and
    answers with [success=true], [SendMessage] returns that answer,
    counts a primary hit and leaves the ring and the connections as they
    were. *)
Theorem healthy_primary_answers net now chatID senderID message c id addr sc cl resp :
  1 ≤ MaxRetries (config c) ≤ Ring.slice_limit →
  GetTargetServer chatID c = (id, addr, true) →
  connections c !! addr = Some sc → healthy sc = true → client sc = Some cl →
  PostMessage net 0 addr (mkChatRequest chatID message senderID now)
    = Response resp →
  Success resp = true →
  ∃ c', SendMessage net now chatID senderID message c = Ok (c', inl resp) ∧
    ring c' = ring c ∧ connections c' = connections c ∧
    PrimaryHits (GetStats c') = incr64 (PrimaryHits (GetStats c)) ∧
    FailoverCount (GetStats c') = FailoverCount (GetStats c).
Proof.
  intros Hm Htarget Hsc Hh Hcl Hpost Hsucc.
  unfold GetTargetServer in Htarget.
  assert (Ring.nodes (ring c) ≠ []) as Hne.
  { intros Hn. unfold Ring.GetNode in Htarget. by rewrite Hn in Htarget. }
  destruct (GetNodes_primary chatID (MaxRetries (config c)) (ring c) Hne)
    as [rest Hnodes]; [lia..|].
  rewrite Htarget in Hnodes. simpl in Hnodes.
  unfold SendMessage. simpl. rewrite Hnodes.
  cbn [mbind result_bind length Nat.eqb sendLoop].
  unfold attempt, sendToServer. simpl. rewrite Hsc, Hh, Hcl. simpl.
  rewrite Hpost, Hsucc. eexists. split; [reflexivity|]. done.
Qed.

(** X24.  Failover.  When the first successor is connected but its RPC
    fails or is answered with [success=false], and the second successor,
    at another address, has a healthy, connected entry and answers with
    [success=true], [SendMessage] returns the answer of the second,
    counts a failover and no primary hit, and the only change to the
    connections is that the entry of the first is marked unhealthy. *)
Theorem failover_to_next_successor net now chatID senderID message c
    n1 n2 rest sc1 cl1 sc2 cl2 resp :
  let req := mkChatRequest chatID message senderID now in
  Ring.GetNodes chatID (MaxRetries (config c)) (ring c) = Ok (n1 :: n2 :: rest) →
  Ring.InfoAddress n1 ≠ Ring.InfoAddress n2 →
  connections c !! Ring.InfoAddress n1 = Some sc1 → client sc1 = Some cl1 →
  match PostMessage net 0 (Ring.InfoAddress n1) req with
  | Response r => Success r = false
  | TransportError _ => True
  end →
  connections c !! Ring.InfoAddress n2 = Some sc2 →
  healthy sc2 = true → client sc2 = Some cl2 →
  PostMessage net 1 (Ring.InfoAddress n2) req = Response resp →
  Success resp = true →
  ∃ c', SendMessage net now chatID senderID message c = Ok (c', inl resp) ∧
    connections c'
      = alter (set_healthy false) (Ring.InfoAddress n1) (connections c) ∧
    FailoverCount (GetStats c') = incr64 (FailoverCount (GetStats c)) ∧
    PrimaryHits (GetStats c') = PrimaryHits (GetStats c) ∧
    SuccessRequests (GetStats c') = incr64 (SuccessRequests (GetStats c)).
Proof.
  intros req Hnodes Hne Hsc1 Hcl1 Hfirst Hsc2 Hh2 Hcl2 Hpost Hsucc.
  unfold SendMessage. simpl. rewrite Hnodes.
  cbn [mbind result_bind length Nat.eqb sendLoop]. fold req.
  assert (attempt net 0 n1 req (incrTotalRequests c)
          = (markConnectionUnhealthy (Ring.InfoAddress n1) (incrTotalRequests c),
             Failed (match healthy sc1, PostMessage net 0 (Ring.InfoAddress n1) req with
                     | false, _ => Some (ErrMarkedDown (Ring.InfoAddress n1))
                     | true, Response _ => None
                     | true, TransportError cause => Some (ErrTransport cause)
                     end))) as ->.
  { unfold attempt, sendToServer. simpl. rewrite Hsc1.
    destruct (healthy sc1); simpl; [|done]. rewrite Hcl1.
    destruct (PostMessage net 0 (Ring.InfoAddress n1) req) as [r|cause]; [|done].
    by rewrite Hfirst. }
  unfold attempt, sendToServer. simpl.
  rewrite lookup_alter_ne by done. rewrite Hsc2, Hh2, Hcl2. simpl.
  rewrite Hpost, Hsucc. eexists. split; [reflexivity|]. done.
Qed.

(** *** Marking, adding and removing servers *)

(** X25.  [MarkServerDown] of a registered server marks the connection
    of its address and no other; from then on an attempt at that address
    fails without any dial or RPC and [HealthCheck] reports the server
    as not healthy without asking it.  [MarkServerUp] undoes it.  For an
    id that is not registered both do nothing. *)
Theorem MarkServerDown_blocks_server rpc net i req serverID c :
  match Ring.GetNodeAddress serverID (ring c) with
  | Some addr =>
      let c' := MarkServerDown serverID c in
      connections c' !! addr = set_healthy false <$> connections c !! addr ∧
      (∀ a, a ≠ addr → connections c' !! a = connections c !! a) ∧
      sendToServer net i addr req c' = (c', inr (refusal c addr)) ∧
      HealthCheck rpc serverID c' = (false, None) ∧
      MarkServerUp serverID c' = MarkServerUp serverID c ∧
      (¬ down c addr → MarkServerUp serverID c' = c)
  | None =>
      MarkServerDown serverID c = c ∧ MarkServerUp serverID c = c ∧
      HealthCheck rpc serverID c = (false, Some (ErrNotFound serverID))
  end.
Proof.
  destruct (Ring.GetNodeAddress serverID (ring c)) as [addr|] eqn:Haddr.
  - assert (ring (MarkServerDown serverID c) = ring c) as Hring
      by (unfold MarkServerDown; by rewrite Haddr).
    assert (connections (MarkServerDown serverID c)
            = alter (set_healthy false) addr (connections c)) as Hconn
      by (unfold MarkServerDown; by rewrite Haddr).
    assert (down (MarkServerDown serverID c) addr) as Hdown.
    { intros sc. rewrite Hconn, lookup_alter_eq.
      destruct (connections c !! addr); simpl; [|done]. by intros [= <-]. }
    assert (MarkServerUp serverID (MarkServerDown serverID c)
            = MarkServerUp serverID c) as Hup.
    { unfold MarkServerUp. rewrite Hring, Haddr, Hconn.
      unfold MarkServerDown. rewrite Haddr.
      destruct c as [r m cfg s]. unfold set_connections. simpl. f_equal.
      apply map_eq. intros k. destruct (decide (addr = k)) as [<-|Hne].
      - rewrite !lookup_alter_eq. by destruct (m !! addr).
      - by rewrite !lookup_alter_ne. }
    cbv zeta. split_and!.
    + by rewrite Hconn, lookup_alter_eq.
    + intros a Hne. by rewrite Hconn, lookup_alter_ne.
    + rewrite sendToServer_down by done. unfold refusal.
      rewrite Hconn, lookup_alter_eq. by destruct (connections c !! addr).
    + unfold HealthCheck. rewrite Hring, Haddr.
      destruct (connections (MarkServerDown serverID c) !! addr) as [sc|] eqn:Hsc;
        [|done].
      rewrite (Hdown sc Hsc). by destruct (client sc).
    + exact Hup.
    + intros Hnd. rewrite Hup. unfold MarkServerUp. rewrite Haddr.
      destruct c as [r m cfg s]. unfold set_connections, down in *. simpl in *.
      f_equal. apply map_eq. intros k. destruct (decide (addr = k)) as [<-|Hne].
      * rewrite lookup_alter_eq. destruct (m !! addr) as [sc|] eqn:Hsc; [|done].
        simpl. f_equal. destruct sc as [a cn cl [|]]; [done|].
        destruct Hnd. by intros ? [= <-].
      * by rewrite lookup_alter_ne.
  - unfold MarkServerDown, MarkServerUp, HealthCheck. by rewrite Haddr.
Qed.

Section servers.
Context `{Ring.SliceSort}.

(** X26.  A server that cannot be dialled when it is added is
    registered all the same, with a connection entry marked unhealthy;
    no later attempt dials it again: every attempt at its address fails
    as marked down, whatever the network does by then.  Only after
    [MarkServerUp] does an attempt dial, and then the entry holds the
    new connection. *)
Theorem AddServer_unreachable_stays_down net serverID address capacity c cause :
  DialContext net 0 address = DialError cause →
  let c' := AddServer net serverID address capacity c in
  Ring.NodeExists serverID (ring c') = true ∧
  connections c' !! address = Some (mkServerConnection address None None false) ∧
  (∀ a, a ≠ address → connections c' !! a = connections c !! a) ∧
  (∀ net' i req,
     sendToServer net' i address req c' = (c', inr (ErrMarkedDown address))) ∧
  (Ring.GetNodeAddress serverID (ring c') = Some address →
   ∀ net' i req g resp,
     DialContext net' i address = Connected g →
     PostMessage net' i address req = Response resp →
     ∃ c'', sendToServer net' i address req (MarkServerUp serverID c')
              = (c'', inl resp) ∧
       connections c'' !! address
         = Some (mkServerConnection address (Some g) (Some g) true)).
Proof.
  intros Hdial c'.
  assert (connections c'
          = <[address := mkServerConnection address None None false]>
              (connections c)) as Hconn.
  { unfold c', AddServer, connectToServer. by rewrite Hdial. }
  assert (ring c' = Ring.AddNode serverID capacity address (ring c)) as Hring.
  { unfold c', AddServer, connectToServer. by rewrite Hdial. }
  split_and!.
  - rewrite Hring. unfold Ring.NodeExists, Ring.AddNode.
    apply bool_decide_eq_true.
    destruct (Ring.nodeCapacity (ring c) !! serverID) as [w|] eqn:Hw.
    + by rewrite Hw.
    + simpl. by rewrite lookup_insert_eq.
  - by rewrite Hconn, lookup_insert_eq.
  - intros a Hne. by rewrite Hconn, lookup_insert_ne.
  - intros net' i req. unfold sendToServer.
    by rewrite Hconn, lookup_insert_eq.
  - intros Haddr net' i req g resp Hdial' Hpost.
    unfold MarkServerUp. rewrite Haddr. unfold sendToServer, connectToServer.
    simpl. rewrite lookup_alter_eq, Hconn, lookup_insert_eq. simpl.
    rewrite Hdial', Hpost. eexists. split; [reflexivity|].
    simpl. by rewrite lookup_insert_eq.
Qed.

(** X27.  [RemoveServer] unregisters the server and deletes the
    connection stored under its address, and no other.  The connection
    goes even when another server is registered with the same address:
    that server stays registered, and every attempt at the address then
    fails for want of a connection. *)
Theorem RemoveServer_drops_connection serverID c :
  let c' := RemoveServer serverID c in
  Ring.NodeExists serverID (ring c') = false ∧
  (∀ id, id ≠ serverID →
     Ring.GetNodeAddress id (ring c') = Ring.GetNodeAddress id (ring c) ∧
     Ring.NodeExists id (ring c') = Ring.NodeExists id (ring c)) ∧
  match Ring.GetNodeAddress serverID (ring c) with
  | Some addr =>
      connections c' = delete addr (connections c) ∧
      ∀ net i req,
        sendToServer net i addr req c' = (c', inr (ErrNoConnection addr))
  | None => connections c' = connections c
  end.
Proof.
  intros c'.
  assert (ring c' = Ring.RemoveNode serverID (ring c)) as Hring.
  { unfold c', RemoveServer. by destruct (Ring.GetNodeAddress serverID (ring c)). }
  split_and!.
  - rewrite Hring. unfold Ring.NodeExists, Ring.RemoveNode.
    apply bool_decide_eq_false.
    destruct (Ring.nodeCapacity (ring c) !! serverID) as [w|] eqn:Hw.
    + simpl. rewrite lookup_delete_eq. by intros [? ?].
    + rewrite Hw. by intros [? ?].
  - intros id Hne. rewrite Hring.
    unfold Ring.GetNodeAddress, Ring.NodeExists, Ring.RemoveNode.
    destruct (Ring.nodeCapacity (ring c) !! serverID) as [w|]; [|done].
    simpl. by rewrite !lookup_delete_ne.
  - destruct (Ring.GetNodeAddress serverID (ring c)) as [addr|] eqn:Haddr.
    + assert (connections c' = delete addr (connections c)) as Hconn.
      { unfold c', RemoveServer. by rewrite Haddr. }
      split; [done|]. intros net i req. unfold sendToServer.
      by rewrite Hconn, lookup_delete_eq.
    + unfold c', RemoveServer. by rewrite Haddr.
Qed.

End servers.

(** *** Reachable clients *)

Section reach.
Context `{Ring.SliceSort}.

Lemma stats_ok_success s s' :
  stats_ok s →
  TotalRequests s' = incr64 (TotalRequests s) →
  SuccessRequests s' = incr64 (SuccessRequests s) →
  FailedRequests s' = FailedRequests s →
  (PrimaryHits s' = incr64 (PrimaryHits s) ∧ FailoverCount s' = FailoverCount s) ∨
  (PrimaryHits s' = PrimaryHits s ∧ FailoverCount s' = incr64 (FailoverCount s)) →
  stats_ok s'.
Proof.
  intros [Ht Hs] Ht' Hs' Hf' Hp. split.
  - by rewrite Ht', Hs', Hf', Ht, incr64_add64_l.
  - rewrite Hs', Hs. destruct Hp as [[-> ->]|[-> ->]].
    + by rewrite incr64_add64_l.
    + by rewrite incr64_add64_r.
Qed.

Lemma stats_ok_failure s s' :
  stats_ok s →
  TotalRequests s' = incr64 (TotalRequests s) →
  SuccessRequests s' = SuccessRequests s →
  FailedRequests s' = incr64 (FailedRequests s) →
  PrimaryHits s' = PrimaryHits s → FailoverCount s' = FailoverCount s →
  stats_ok s'.
Proof.
  intros [Ht Hs] Ht' Hs' Hf' Hp Hc. split.
  - by rewrite Ht', Hs', Hf', Ht, incr64_add64_r.
  - by rewrite Hs', Hp, Hc.
Qed.

Lemma SendMessage_ok net now chatID senderID message c c' r :
  client_ok c → SendMessage net now chatID senderID message c = Ok (c', r) →
  client_ok c'.
Proof.
  intros (Hm & Hr & Hsucc & Hs). unfold SendMessage.
  destruct (Ring.GetNodes _ _ _) as [nodes| |]; simpl; [|done..].
  destruct (length nodes =? 0)%nat.
  - intros [= <- <-]. split_and!; simpl; [done..|].
    intros Hlimit. by apply (stats_ok_failure (stats c)); [apply Hs|..].
  - intros [= Hloop]. apply sendLoop_frame in Hloop as (Hr' & Hc' & Ht & Hres).
    simpl in *. split_and!; [by rewrite Hc'|by rewrite Hr'| |].
    + destruct r as [resp|err].
      * destruct Hres as (_ & -> & _ & [[-> ->]|[-> ->]]); rewrite Hsucc.
        -- by rewrite incr64_add64_l.
        -- by rewrite incr64_add64_r.
      * by destruct Hres as (_ & -> & _ & -> & ->).
    + rewrite Hc'. intros Hlimit. specialize (Hs Hlimit).
      destruct r as [resp|err].
      * destruct Hres as (_ & ? & ? & ?). by apply (stats_ok_success (stats c)).
      * destruct Hres as (_ & ? & ? & ? & ?). by apply (stats_ok_failure (stats c)).
Qed.

(** [SendMessage] panics only in [GetNodes], on a ring with nodes and a
    retry budget that cannot be a capacity. *)
Lemma SendMessage_panics net now chatID senderID message c :
  SendMessage net now chatID senderID message c = Panic ↔
  Ring.nodes (ring c) ≠ [] ∧
  (MaxRetries (config c) < 0 ∨ Ring.slice_limit < MaxRetries (config c)).
Proof.
  unfold SendMessage, Ring.GetNodes. simpl.
  destruct (Ring.nodes (ring c)) as [|v l]; cbn [length Nat.eqb].
  { simpl. split; [done|]. by intros [? _]. }
  destruct (Z.ltb_spec (MaxRetries (config c)) 0) as [?|?]; cbn [orb].
  { simpl. split; [|done]. intros _. split; [done|]. by left. }
  destruct (Z.ltb_spec Ring.slice_limit (MaxRetries (config c))) as [?|?].
  { simpl. split; [|done]. intros _. split; [done|]. by right. }
  cbn [mbind result_bind].
  destruct (length _ =? 0)%nat; (split; [done|]); intros [_ [?|?]]; lia.
Qed.

Lemma reachable_client_ok c : reachable c → client_ok c.
Proof.
  induction 1 as [cfg|net id addr cap c _ (Hm & Hr & Hsucc & Hs)
                  |id c _ (Hm & Hr & Hsucc & Hs)
                  |id c _ IH|id c _ IH|net now chat sender msg c c' r _ IH Hsend
                  |net now chat sender msg c _ (Hm & Hr & Hsucc & Hs) Hpanic
                  |c _ IH].
  - split_and!; simpl.
    + destruct (Z.leb_spec (MaxRetries cfg) 0); lia.
    + constructor.
    + done.
    + done.
  - unfold AddServer. destruct (connectToServer _ _ _); split_and!; simpl;
      try done; by constructor.
  - unfold RemoveServer.
    destruct (Ring.GetNodeAddress id (ring c)); split_and!; simpl;
      try done; by constructor.
  - unfold MarkServerDown. by destruct (Ring.GetNodeAddress id (ring c)).
  - unfold MarkServerUp. by destruct (Ring.GetNodeAddress id (ring c)).
  - by eapply SendMessage_ok.
  - apply SendMessage_panics in Hpanic as [_ Hbudget].
    split_and!; simpl; [done..|]. intros Hlimit. lia.
  - exact IH.
Qed.

(** X19.  The counters of a client between two calls.  On every
    reachable client every success is a primary hit or a failover; and
    when the retry budget is one that the allocator grants as a
    capacity, so that no [SendMessage] has panicked after counting its
    request, every request is a success or a failure.  All sums are in
    64-bit arithmetic. *)
Theorem reachable_client_counters_add_up c :
  reachable c →
  SuccessRequests (GetStats c)
    = add64 (PrimaryHits (GetStats c)) (FailoverCount (GetStats c)) ∧
  (MaxRetries (config c) ≤ Ring.slice_limit →
   TotalRequests (GetStats c)
     = add64 (SuccessRequests (GetStats c)) (FailedRequests (GetStats c))).
Proof.
  intros Hr. destruct (reachable_client_ok c Hr) as (_ & _ & Hsucc & Hs).
  split; [exact Hsucc|]. intros Hlimit. by destruct (Hs Hlimit).
Qed.


End reach.

End alloc.

(** *** The properties at work *)

Lemma client1_reachable : reachable client1.
Proof. repeat constructor. Qed.

Lemma client2_reachable : reachable client2.
Proof. repeat constructor. Qed.

Lemma SendMessage_counts_request_once_witness :
  ∃ c' r, SendMessage accepting 0 "chat-1" "user-1" "hello" client1 = Ok (c', r) ∧
    TotalRequests (GetStats c') = incr64 (TotalRequests (GetStats client1)).
Proof.
  destruct (SendMessage accepting 0 "chat-1" "user-1" "hello" client1)
    as [[c' r]| |] eqn:Hsend.
  - exists c', r. split; [reflexivity|].
    exact (proj1 (SendMessage_counts_request_once _ _ _ _ _ _ _ _ Hsend)).
  - exfalso. vm_compute in Hsend. discriminate Hsend.
  - exfalso. vm_compute in Hsend. discriminate Hsend.
Defined.

Lemma client2_after_reachable : reachable client2_after.
Proof.
  apply (reachable_send flaky 0 "chat-1" "user-1" "hello" client2 client2_after
           (inl (mkChatResponse true "server-a" 3 1 ""))).
  - exact client2_reachable.
  - vm_compute. reflexivity.
Qed.


Lemma reachable_client_counters_add_up_witness :
  GetStats client2_after = mkClientStats 1 1 0 1 0 ∧
  TotalRequests (GetStats client2_after)
    = add64 (SuccessRequests (GetStats client2_after))
        (FailedRequests (GetStats client2_after)).
Proof.
  split; [vm_compute; reflexivity|].
  apply (reachable_client_counters_add_up client2_after client2_after_reachable).
  apply Z.leb_le. vm_compute. reflexivity.
Defined.


Lemma exhausted_request_stays_failed_witness :
  ∃ c' address,
    SendMessage rejecting 0 "chat-1" "user-1" "hello" client1
      = Ok (c', inr (ErrAllExhausted None)) ∧
    SendMessage accepting 1 "chat-1" "user-2" "again" c'
      = Ok (incrFailedRequests (incrTotalRequests c'),
            inr (ErrAllExhausted (Some (refusal c' address)))).
Proof.
  destruct (SendMessage rejecting 0 "chat-1" "user-1" "hello" client1)
    as [[c' [resp|[|[e|]]]]| |] eqn:Hsend;
    try (exfalso; vm_compute in Hsend; discriminate Hsend).
  destruct (exhausted_request_stays_failed _ _ _ _ _ _ _ _ Hsend
              accepting 1 "user-2" "again") as [address Hagain].
  exists c', address. split; [reflexivity|exact Hagain].
Defined.

Lemma Close_keeps_routing_witness :
  GetServerCount (Close client1) = GetServerCount client1 ∧
  ∃ err, SendMessage accepting 0 "chat-1" "user-1" "hello" (Close client1)
         = Ok (incrFailedRequests (incrTotalRequests (Close client1)), inr err).
Proof.
  destruct (Close_keeps_routing accepting 0 "chat-1" "user-1" "hello" client1)
    as (Hcount & _ & _ & err & Hsend & _).
  - split; apply Z.leb_le; vm_compute; reflexivity.
  - split; [exact Hcount|]. exists err. exact Hsend.
Defined.

Lemma healthy_primary_answers_witness :
  ∃ c', SendMessage accepting 0 "chat-1" "user-1" "hello" client1
          = Ok (c', inl (mkChatResponse true "server-a" 3 1 "")) ∧
        connections c' = connections client1.
Proof.
  destruct (healthy_primary_answers accepting 0 "chat-1" "user-1" "hello" client1
              "server-a" "localhost:50051"
              (mkServerConnection "localhost:50051" (Some 1%nat) (Some 1%nat) true)
              1%nat (mkChatResponse true "server-a" 3 1 ""))
    as (c' & Hsend & _ & Hconn & _).
  - split; apply Z.leb_le; vm_compute; reflexivity.
  - vm_compute. reflexivity.
  - vm_compute. reflexivity.
  - reflexivity.
  - reflexivity.
  - reflexivity.
  - reflexivity.
  - exists c'. split; [exact Hsend|exact Hconn].
Defined.

Lemma failover_to_next_successor_witness :
  ∃ c', SendMessage flaky 0 "chat-1" "user-1" "hello" client2
          = Ok (c', inl (mkChatResponse true "server-a" 3 1 "")) ∧
        FailoverCount (GetStats c') = incr64 (FailoverCount (GetStats client2)).
Proof.
  destruct (failover_to_next_successor flaky 0 "chat-1" "user-1" "hello" client2
              (Ring.mkNodeInfo "server-b" "localhost:50052")
              (Ring.mkNodeInfo "server-a" "localhost:50051") []
              (mkServerConnection "localhost:50052" (Some 1%nat) (Some 1%nat) true)
              1%nat
              (mkServerConnection "localhost:50051" (Some 1%nat) (Some 1%nat) true)
              1%nat (mkChatResponse true "server-a" 3 1 ""))
    as (c' & Hsend & _ & Hfail & _).
  - vm_compute. reflexivity.
  - simpl. discriminate.
  - vm_compute. reflexivity.
  - reflexivity.
  - simpl. exact I.
  - vm_compute. reflexivity.
  - reflexivity.
  - reflexivity.
  - reflexivity.
  - reflexivity.
  - exists c'. split; [exact Hsend|exact Hfail].
Defined.

Lemma MarkServerDown_blocks_server_witness :
  sendToServer accepting 0 "localhost:50051" request1
    (MarkServerDown "server-a" client1)
  = (MarkServerDown "server-a" client1, inr (ErrMarkedDown "localhost:50051")) ∧
  MarkServerUp "server-a" (MarkServerDown "server-a" client1) = client1.
Proof.
  pose proof (MarkServerDown_blocks_server (λ _, inl true) accepting 0%nat
                request1 "server-a" client1) as Hdown.
  assert (Ring.GetNodeAddress "server-a" (ring client1) = Some "localhost:50051")
    as Haddr by (vm_compute; reflexivity).
  rewrite Haddr in Hdown. destruct Hdown as (_ & _ & Hsend & _ & _ & Hup).
  split.
  - rewrite Hsend. f_equal.
  - apply Hup. intros Hd.
    specialize (Hd (mkServerConnection "localhost:50051" (Some 1%nat) (Some 1%nat) true)).
    assert (true = false) as Habs by (apply Hd; vm_compute; reflexivity).
    discriminate Habs.
Defined.

Lemma AddServer_unreachable_stays_down_witness :
  sendToServer accepting 0 "localhost:50051" request1
    (AddServer unreachable "server-a" "localhost:50051" 2
       (NewSmartClient DefaultClientConfig))
  = (AddServer unreachable "server-a" "localhost:50051" 2
       (NewSmartClient DefaultClientConfig),
     inr (ErrMarkedDown "localhost:50051")).
Proof.
  destruct (AddServer_unreachable_stays_down unreachable "server-a"
              "localhost:50051" 2 (NewSmartClient DefaultClientConfig)
              "connection refused" eq_refl) as (_ & _ & _ & Hsend & _).
  exact (Hsend accepting 0%nat request1).
Defined.

Lemma RemoveServer_drops_connection_witness :
  connections (RemoveServer "server-a" client2)
    = delete "localhost:50051" (connections client2) ∧
  Ring.NodeExists "server-b" (ring (RemoveServer "server-a" client2)) = true.
Proof.
  pose proof (RemoveServer_drops_connection "server-a" client2) as Hrem.
  assert (Ring.GetNodeAddress "server-a" (ring client2) = Some "localhost:50051")
    as Haddr by (vm_compute; reflexivity).
  cbv zeta in Hrem. rewrite Haddr in Hrem.
  destruct Hrem as (_ & Hother & Hconn & _).
  split; [exact Hconn|].
  destruct (Hother "server-b") as [_ ->]; [discriminate|].
  vm_compute. reflexivity.
Defined.

End ClientMore.

(** ** The server: the handlers *)

Module ServerMore.
Import ServerRPC.

Lemma wrap32_wrap64 x : wrap32 (wrap64 x) = wrap32 x.
Proof.
  unfold wrap32, wrap64. f_equal.
  rewrite (Z.mod_eq (x + 2 ^ 63) (2 ^ 64)) by lia.
  set (q := (x + 2 ^ 63) / 2 ^ 64).
  replace (x + 2 ^ 63 - 2 ^ 64 * q - 2 ^ 63 + 2 ^ 31)
    with (x + 2 ^ 31 + (- (2 ^ 32 * q)) * 2 ^ 32) by lia.
  apply Z_mod_plus_full.
Qed.

Lemma PostMessage_ok fuel now req s s' resp :
  server_ok s → PostMessage fuel now req s = Ok (s', resp) → server_ok s'.
Proof.
  intros (Hh & cap1 & cap2 & Hc1 & Hc2 & Hr). unfold PostMessage.
  destruct (Server.healthy (chatServer s)) eqn:Hhealthy; simpl.
  - destruct (Cache.AddMessage _ _ _ _ _) as [[[σ p] lvl]| |] eqn:Hadd;
      simpl; [|done..].
    destruct (Cache.sessions σ !! p); [|done].
    intros [= <- _]. split; [simpl; congruence|].
    exists cap1, cap2. split_and!; [done..|]. simpl.
    eapply (Cache.reachable_exec _ _ _ fuel
              (Cache.OpAddMessage now (Client.ChatId req) _)); [exact Hr|].
    simpl. by rewrite Hadd.
  - intros [= <- _]. split; [congruence|]. by exists cap1, cap2.
Qed.

Lemma reachable_server_ok s : reachable s → server_ok s.
Proof.
  induction 1 as [config|fuel now req s s' resp _ IH Hpost|s s' _ IH Hstop].
  - split; [done|]. eexists _, _. split_and!; [| |apply Cache.reachable_new].
    + destruct (Z.leb_spec (Server.L1Capacity config) 0); lia.
    + destruct (Z.leb_spec (Server.L2Capacity config) 0); lia.
  - by eapply PostMessage_ok.
  - destruct IH as (Hh & Hcache). unfold Stop in Hstop.
    destruct (shutdownClosed s); [done|]. injection Hstop as <-.
    split; [done|]. exact Hcache.
Qed.

(** X28.  A healthy server answers every request.  In every reachable
    state of a server that has not been stopped, [PostMessage] returns
    (the cache of a server always has room, so three units of fuel are
    enough) a response with [success=true] that names the server, the
    tier in which the chat was found, and one more than the number of
    messages that were stored for the chat, as a 32-bit integer; after
    it the chat is in L1 and its session holds the stored messages
    followed by the new one. *)
Theorem PostMessage_answers fuel now req s :
  reachable s → IsHealthy s = true → (3 ≤ fuel)%nat →
  let σ := Server.cache (chatServer s) in
  let id := Client.ChatId req in
  let msg := Cache.mkMessage (Client.Message req) (Client.SenderId req)
               (Client.Timestamp req) in
  ∃ s' p session,
    PostMessage fuel now req s
    = Ok (s', {| Client.Success := true;
                 Client.ServerId := GetServerID s;
                 Client.CacheLocation := cacheLocation (Cache.GetSession id σ).1.2;
                 Client.MessageCount := wrap32 (Z.of_nat (length (stored id σ)) + 1);
                 Client.ErrorMessage := "" |}) ∧
    IsHealthy s' = true ∧
    Cache.GetSession id (Server.cache (chatServer s'))
      = (Some p, Cache.LevelL1, true) ∧
    Cache.sessions (Server.cache (chatServer s')) !! p = Some session ∧
    Cache.ChatID session = id ∧
    Cache.Messages session = stored id σ ++ [msg] ∧
    stored id (Server.cache (chatServer s')) = stored id σ ++ [msg].
Proof.
  intros Hr Hh Hfuel σ id msg.
  destruct (reachable_server_ok s Hr) as (_ & cap1 & cap2 & Hc1 & Hc2 & Hreach).
  fold σ in Hreach.
  destruct (CacheFacts.reachable_state_ok _ _ _ Hreach) as (Hst & Hcap1 & Hcap2).
  pose proof (CacheMore.reachable_entries_keyed _ _ _ Hreach) as Hk.
  destruct (CacheFacts.AddMessage_terminates fuel now id msg σ Hst)
    as [[[σ' p] lvl] Hadd]; [lia..|done|].
  destruct (CacheFacts.AddMessage_ok _ _ _ _ _ _ _ _ Hst Hadd)
    as (σ1 & Hget & Hcache & Hsess & Hst').
  destruct (CacheFacts.GetOrCreate_ok _ _ _ _ _ _ _ Hst Hget)
    as (_ & _ & _ & _ & Hafter & [e He]).
  pose proof (CacheMore.GetOrCreate_level _ _ _ _ _ _ _ Hget) as Hlevel.
  assert (Cache.GetSession id σ' = (Some p, Cache.LevelL1, true)) as Hfound.
  { unfold Cache.GetSession. by rewrite Hcache, He. }
  assert (∃ session, Cache.sessions σ' !! p = Some session ∧
            Cache.ChatID session = id ∧
            Cache.Messages session = stored id σ ++ [msg] ∧
            (Cache.GetSession id σ).1.2 = lvl) as (session & Hp & Hid & Hmsgs & Hlvl).
  { rewrite Hsess, lookup_alter_eq. unfold stored, Cache.GetSession.
    destruct lvl; [done|..]; simpl in Hafter.
    - destruct Hlevel as [e0 H1]. destruct Hafter as [[s0 Hs0] ->].
      destruct (Hk id _ (or_introl H1)) as (s0' & Hs0' & Hid). simpl in Hs0'.
      rewrite H1. simpl. rewrite lookup_alter_eq, Hs0. simpl.
      eexists. split; [done|]. simpl. split; [congruence|done].
    - destruct Hlevel as [H1 [e0 H2]]. destruct Hafter as [[s0 Hs0] ->].
      destruct (Hk id _ (or_intror H2)) as (s0' & Hs0' & Hid). simpl in Hs0'.
      rewrite H1, H2. simpl. rewrite lookup_alter_eq, Hs0. simpl.
      eexists. split; [done|]. simpl. split; [congruence|done].
    - destruct Hlevel as [H1 H2]. destruct Hafter as [Hnone ->].
      rewrite H1, H2. simpl. rewrite lookup_insert_eq. simpl.
      eexists. split; [done|]. done. }
  assert (Cache.MessageCount session
          = wrap64 (Z.of_nat (length (stored id σ)) + 1)) as Hcount.
  { destruct Hst' as (_ & _ & Hse). rewrite (Hse p session Hp), Hmsgs.
    rewrite length_app. simpl. f_equal. lia. }
  exists (set_cache σ' s), p, session.
  split_and!; try done.
  - unfold PostMessage. unfold IsHealthy in Hh. rewrite Hh. simpl.
    fold σ id msg. rewrite Hadd. simpl. rewrite Hp.
    by rewrite Hcount, wrap32_wrap64, Hlvl.
  - simpl. unfold stored. rewrite Hfound. simpl. by rewrite Hp.
Qed.

(** X29.  The life of a server.  In every reachable state the server is
    healthy exactly when its shutdown channel is open; [Stop] panics
    exactly when the server has been stopped before (the channel is
    closed twice), and otherwise leaves an unhealthy server with the
    cache as it was; [PostMessage] never panics, reports [success]
    exactly when the server is healthy, never changes the health, and a
    stopped server answers without touching its cache. *)
Theorem server_lifecycle s :
  reachable s →
  IsHealthy s = negb (shutdownClosed s) ∧
  (Stop s = Panic ↔ IsHealthy s = false) ∧
  (∀ s', Stop s = Ok s' →
     IsHealthy s' = false ∧ Stop s' = Panic ∧
     Server.cache (chatServer s') = Server.cache (chatServer s)) ∧
  ∀ fuel now req, (3 ≤ fuel)%nat →
    ∃ s' resp, PostMessage fuel now req s = Ok (s', resp) ∧
      Client.Success resp = IsHealthy s ∧
      Client.ServerId resp = GetServerID s ∧
      IsHealthy s' = IsHealthy s ∧
      (IsHealthy s = false →
         s' = s ∧ Client.ErrorMessage resp = "server is shutting down").
Proof.
  intros Hr. pose proof (reachable_server_ok s Hr) as Hok.
  destruct Hok as (Hh & cap1 & cap2 & Hc1 & Hc2 & Hreach).
  unfold IsHealthy, GetServerID. split_and!.
  - exact Hh.
  - unfold Stop. rewrite Hh. by destruct (shutdownClosed s).
  - intros s'. unfold Stop. destruct (shutdownClosed s); [done|].
    by intros [= <-].
  - intros fuel now req Hfuel.
    destruct (Server.healthy (chatServer s)) eqn:Hhealthy.
    + destruct (CacheFacts.reachable_state_ok _ _ _ Hreach) as (Hst & Hcap1 & Hcap2).
      destruct (CacheFacts.AddMessage_terminates fuel now (Client.ChatId req)
                  (Cache.mkMessage (Client.Message req) (Client.SenderId req)
                     (Client.Timestamp req))
                  (Server.cache (chatServer s)) Hst)
        as [[[σ' p] lvl] Hadd]; [lia..|done|].
      destruct (CacheFacts.AddMessage_ok _ _ _ _ _ _ _ _ Hst Hadd)
        as (σ1 & Hget & _ & Hsess & _).
      destruct (CacheFacts.GetOrCreate_ok _ _ _ _ _ _ _ Hst Hget)
        as (_ & _ & _ & _ & Hafter & _).
      assert (is_Some (Cache.sessions σ' !! p)) as [sess Hp].
      { rewrite Hsess, lookup_alter_eq.
        destruct lvl; simpl in Hafter; destruct Hafter as [Hbefore ->].
        - rewrite lookup_alter_eq. by destruct Hbefore as [? ->].
        - rewrite lookup_alter_eq. by destruct Hbefore as [? ->].
        - rewrite lookup_alter_eq. by destruct Hbefore as [? ->].
        - by rewrite lookup_insert_eq. }
      unfold PostMessage. rewrite Hhealthy. simpl. rewrite Hadd. simpl.
      rewrite Hp. eexists _, _. split; [reflexivity|]. done.
    + unfold PostMessage. rewrite Hhealthy. simpl.
      eexists _, _. split; [reflexivity|]. done.
Qed.

Lemma server1_reachable : reachable server1.
Proof.
  apply (reachable_post 3 1 Client.request1
           (NewChatServer (Server.mkServerConfig "server-a" 50051 2 3)) server1
           (Client.mkChatResponse true "server-a" 3 1 "")).
  - constructor.
  - vm_compute. reflexivity.
Qed.

Lemma PostMessage_answers_witness :
  ∃ s', PostMessage 3 2 Client.request1 server1
        = Ok (s', Client.mkChatResponse true "server-a" 1 2 "").
Proof.
  destruct (PostMessage_answers 3 2 Client.request1 server1 server1_reachable)
    as (s' & p & session & Hpost & _).
  - vm_compute. reflexivity.
  - lia.
  - exists s'. rewrite Hpost. f_equal.
Defined.

Lemma server_lifecycle_witness :
  IsHealthy server1 = true ∧ Stop server1 ≠ Panic.
Proof.
  destruct (server_lifecycle server1 server1_reachable) as (Hh & Hstop & _).
  split.
  - rewrite Hh. vm_compute. reflexivity.
  - intros Hp. apply Hstop in Hp. rewrite Hh in Hp. vm_compute in Hp.
    discriminate Hp.
Defined.

End ServerMore.
